(** * Saus deploy: the reconciliation engine of [src/deploy.ts]

    A shallow embedding of [deploy], [addTarget], [context.addTarget],
    [getKillableTargets], [defineTargetId], [diffObjects] and [equalArrays],
    followed by the properties of the engine: structural diffing, ordered
    dispatch of declared targets, the revert stack, the lock file and the
    persisted target store. *)

From Stdlib Require Import ZArith Lia Bool.
From stdpp Require Import base tactics option list strings pretty.

Set Default Proof Using "Type".
Open Scope string_scope.
Open Scope list_scope.

(** ** Values

    Deploy targets are plain JavaScript data.  Numbers are integers here;
    objects are association lists in insertion order with one entry per key.
    Only own enumerable properties are modelled: keys that name a property of
    [Object.prototype] or [Array.prototype] (such as [length]) are outside the
    model. *)

#[warnings="-register-all"]
Inductive Value : Type :=
  | VUndef
  | VNull
  | VBool (b : bool)
  | VNum (n : Z)
  | VStr (s : string)
  | VArr (items : list Value)
  | VObj (props : list (string * Value)).

(** A ChangeSet entry: [changed[key] = true] or [changed[key] = {...}]. *)
#[warnings="-register-all"]
Inductive Change : Type :=
  | CTrue
  | CSet (entries : list (string * Change)).

Definition ChangeSet : Type := list (string * Change).

(** [isPlainObject]: [value !== null && typeof value == 'object'].  Arrays are
    objects for [typeof]. *)
Definition isPlainObject (value : Value) : bool :=
  match value with
  | VArr _ | VObj _ => true
  | _ => false
  end.

(** [Array.isArray]. *)
Definition isArray (value : Value) : bool :=
  match value with
  | VArr _ => true
  | _ => false
  end.

(** [a === b] where at least one side is not an object: primitives are
    compared by type and value, and an object is never identical to a
    primitive.  Two objects are compared by reference in JavaScript; the
    callers below never reach [===] with two objects. *)
Definition strictEq (a b : Value) : bool :=
  match a, b with
  | VUndef, VUndef => true
  | VNull, VNull => true
  | VBool x, VBool y => Bool.eqb x y
  | VNum x, VNum y => Z.eqb x y
  | VStr x, VStr y => String.eqb x y
  | _, _ => false
  end.

(** Association-list access: [obj[key]] and [obj[key] = v]. *)
Fixpoint assoc {A : Type} (key : string) (l : list (string * A)) : option A :=
  match l with
  | [] => None
  | (k, v) :: l' => if String.eqb k key then Some v else assoc key l'
  end.

Fixpoint assocSet {A : Type} (key : string) (v : A) (l : list (string * A))
  : list (string * A) :=
  match l with
  | [] => [(key, v)]
  | (k, w) :: l' =>
      if String.eqb k key then (k, v) :: l' else (k, w) :: assocSet key v l'
  end.

(** The enumerable properties of an array are its indices, as strings. *)
Fixpoint indexed (i : nat) (items : list Value) : list (string * Value) :=
  match items with
  | [] => []
  | v :: items' => (pretty i, v) :: indexed (S i) items'
  end.

(** The own enumerable properties that [for (key in value)] visits. *)
Definition fields (value : Value) : list (string * Value) :=
  match value with
  | VObj props => props
  | VArr items => indexed 0 items
  | _ => []
  end.

(** [value[key]]: [undefined] when the property is absent. *)
Definition getProp (value : Value) (key : string) : Value :=
  default VUndef (assoc key (fields value)).

(** [key in value]. *)
Definition hasProp (value : Value) (key : string) : bool :=
  match assoc key (fields value) with
  | Some _ => true
  | None => false
  end.

(** The elements of an array value. *)
Definition arrayItems (value : Value) : list Value :=
  match value with
  | VArr items => items
  | _ => []
  end.

(** The state of one [diffObjects] activation: [differs] and [changed]. *)
Definition DiffState : Type := (bool * ChangeSet)%type.

(** The last branch of the closure [diff]: [oldValue !== value]. *)
Definition diffLeaf (key : string) (oldValue value : Value) (st : DiffState)
  : DiffState :=
  if negb (strictEq oldValue value) then (true, assocSet key CTrue st.2)
  else st.

(** [diffObjects] and [equalArrays].  [diffObjects oldValues values] returns
    [(differs, changed)], where [changed] is the object the caller passed in
    empty.  Both loops of the source are kept: the keys of [values] first,
    then the keys of [oldValues] that are not in [values].  [equalArraysOf]
    is [equalArrays] with the second array still wrapped as a value, which is
    what lets the two functions recurse together. *)
Fixpoint diffObjects (oldValues values : Value) {struct values} : DiffState :=
  let diff (key : string) (oldValue : Value) (value : Value)
           (rec : DiffState) (recArr : bool) (st : DiffState) : DiffState :=
    if isPlainObject oldValue && isPlainObject value then
      (st.1 || rec.1, assocSet key (CSet rec.2) st.2)
    else if isArray oldValue && isArray value then
      if negb recArr then (true, assocSet key CTrue st.2) else st
    else diffLeaf key oldValue value st in
  let st1 :=
    match values with
    | VObj props =>
        (fix loop (l : list (string * Value)) (st : DiffState) : DiffState :=
           match l with
           | [] => st
           | (key, value) :: l' =>
               let oldValue := getProp oldValues key in
               loop l' (diff key oldValue value
                          (diffObjects oldValue value)
                          (equalArraysOf (arrayItems oldValue) value) st)
           end) props (false, [])
    | VArr items =>
        (fix loop (i : nat) (l : list Value) (st : DiffState) : DiffState :=
           match l with
           | [] => st
           | value :: l' =>
               let key := pretty i in
               let oldValue := getProp oldValues key in
               loop (S i) l' (diff key oldValue value
                                (diffObjects oldValue value)
                                (equalArraysOf (arrayItems oldValue) value) st)
           end) 0%nat items (false, [])
    | _ => (false, [])
    end in
  fold_left
    (fun st kv =>
       if negb (hasProp values kv.1) then diffLeaf kv.1 kv.2 VUndef st else st)
    (fields oldValues) st1

with equalArraysOf (oldValues : list Value) (values : Value)
  {struct values} : bool :=
  match values with
  | VArr items =>
      if negb (length oldValues =? length items)%nat then false
      else
        (fix loop (olds news : list Value) : bool :=
           match news with
           | [] => true
           | value :: news' =>
               let oldValue := default VUndef (head olds) in
               if isPlainObject oldValue && isPlainObject value then
                 if (diffObjects oldValue value).1 then false
                 else loop (tail olds) news'
               else if isArray oldValue && isArray value then
                 if negb (equalArraysOf (arrayItems oldValue) value) then false
                 else loop (tail olds) news'
               else if negb (strictEq oldValue value) then false
               else loop (tail olds) news'
           end) oldValues items
  | _ => true
  end.

(** [equalArrays(oldValues, values)] on two arrays. *)
Definition equalArrays (oldValues values : list Value) : bool :=
  equalArraysOf oldValues (VArr values).

(** ** What the diff is compared with *)

(** One step of the first loop of [diffObjects]: the closure [diff] applied
    to a property of [values]. *)
Definition diffEntry (oldValues : Value) (st : DiffState)
    (kv : string * Value) : DiffState :=
  let oldValue := getProp oldValues kv.1 in
  if isPlainObject oldValue && isPlainObject kv.2 then
    (st.1 || (diffObjects oldValue kv.2).1,
     assocSet kv.1 (CSet (diffObjects oldValue kv.2).2) st.2)
  else if isArray oldValue && isArray kv.2 then
    if negb (equalArraysOf (arrayItems oldValue) kv.2)
    then (true, assocSet kv.1 CTrue st.2) else st
  else diffLeaf kv.1 oldValue kv.2 st.

(** One step of the second loop: a property of [oldValues] that [values]
    lacks is compared with [undefined]. *)
Definition diffGone (values : Value) (st : DiffState)
    (kv : string * Value) : DiffState :=
  if negb (hasProp values kv.1) then diffLeaf kv.1 kv.2 VUndef st else st.

(** What [diff] decides for one pair of values. *)
Definition agree (oldValue value : Value) : bool :=
  if isPlainObject oldValue && isPlainObject value
  then negb (diffObjects oldValue value).1
  else strictEq oldValue value.

(** Objects of JavaScript have one entry per key. *)
Fixpoint nodupKeys {A : Type} (l : list (string * A)) : bool :=
  match l with
  | [] => true
  | (k, _) :: l' =>
      negb (existsb (fun kv => String.eqb kv.1 k) l') && nodupKeys l'
  end.

Fixpoint wfValue (v : Value) : bool :=
  match v with
  | VArr items => forallb wfValue items
  | VObj props =>
      nodupKeys props
      && (fix all (l : list (string * Value)) : bool :=
            match l with
            | [] => true
            | (_, x) :: l' => wfValue x && all l'
            end) props
  | _ => true
  end.

(** Deep structural equality as the specification words it: objects have the
    same keys, in any order, with equal values; arrays have the same length
    and equal elements, index by index; leaves are exactly equal. *)
Fixpoint deepEqual (a b : Value) {struct a} : bool :=
  match a, b with
  | VObj pa, VObj pb =>
      (fix each (l : list (string * Value)) : bool :=
         match l with
         | [] => true
         | (k, va) :: l' =>
             match assoc k pb with
             | Some vb => deepEqual va vb && each l'
             | None => false
             end
         end) pa
      && forallb (fun kv => hasProp a kv.1) pb
  | VArr la, VArr lb =>
      (fix each (l l2 : list Value) : bool :=
         match l, l2 with
         | [], [] => true
         | va :: l', vb :: l2' => deepEqual va vb && each l' l2'
         | _, _ => false
         end) la lb
  | VObj _, _ | VArr _, _ => false
  | _, _ => strictEq a b
  end.

(** Agreement of two values on every property read: composites agree when
    every key reads the same on both sides, an absent property reading as
    [undefined] and an array being read through its indices; anything else
    agrees when it is the same primitive. *)
Inductive sameData : Value -> Value -> Prop :=
  | same_leaf a :
      isPlainObject a = false -> sameData a a
  | same_props a b :
      isPlainObject a = true -> isPlainObject b = true ->
      (forall key, sameData (getProp a key) (getProp b key)) ->
      sameData a b.

(** The entry that the ChangeSet of [diffObjects oldValues values] holds for
    a key. *)
Definition entryFor (oldValues values : Value) (key : string) : option Change :=
  let oldValue := getProp oldValues key in
  let value := getProp values key in
  if hasProp values key || hasProp oldValues key then
    if isPlainObject oldValue && isPlainObject value
    then Some (CSet (diffObjects oldValue value).2)
    else if strictEq oldValue value then None else Some CTrue
  else None.

(** The entry, if any, that the first loop writes for a property. *)
Definition changeOf (oldValues : Value) (kv : string * Value) : option Change :=
  let oldValue := getProp oldValues kv.1 in
  if isPlainObject oldValue && isPlainObject kv.2
  then Some (CSet (diffObjects oldValue kv.2).2)
  else if strictEq oldValue kv.2 then None else Some CTrue.

(** Whether a ChangeSet marks some leaf as changed. *)
Fixpoint marksChange (c : Change) : bool :=
  match c with
  | CTrue => true
  | CSet entries =>
      (fix any (l : list (string * Change)) : bool :=
         match l with
         | [] => false
         | (_, c') :: l' => marksChange c' || any l'
         end) entries
  end.

Definition hasTrue (c : ChangeSet) : bool := marksChange (CSet c).

(** ** Plugins, targets and files *)

(** A thrown error, by its message. *)
Definition Err : Type := string.

(** The outcome of awaiting a call that may throw. *)
Definition Result (A : Type) : Type := (Err + A)%type.

(** A [RevertFn]: a named rollback closure; awaiting it either completes or
    throws. *)
Record RevertFn : Type := mkRevert {
  revertName : string;
  revertResult : Result unit;
}.

(** What a capability hands back: a revert function or nothing. *)
Definition Reverted : Type := Result (option RevertFn).

(** A [DeployPlugin].  [pull] and [update] are optional. *)
Record DeployPlugin : Type := mkPlugin {
  name : string;
  pull : option (list (string * Value) -> Result (option (list (string * Value))));
  identify : list (string * Value) -> Result Value;
  spawn : list (string * Value) -> Reverted;
  update : option (list (string * Value) -> ChangeSet -> Reverted);
  kill : list (string * Value) -> Reverted;
}.

(** A [DeployHookRef] whose plugin has been loaded. *)
Record DeployHookRef : Type := mkHook {
  file : string;
  plugin : DeployPlugin;
}.

(** A target object: its enumerable fields and the hidden [_id] property that
    [defineTargetId] attaches. *)
Record TargetObj : Type := mkObj {
  props : list (string * Value);
  _id : option string;
}.

(** [Promisable<DeployTarget>]: a reference to a target object of the deploy
    script, or a promise of one. *)
Inductive TargetArg : Type :=
  | ArgObj (loc : nat)
  | ArgPromise (pid : nat).

(** A promise of the deploy script. *)
Inductive PromiseState : Type :=
  | Pending
  | Fulfilled (loc : nat)
  | Rejected (e : Err).

(** One provider's entry of [targets.yaml] ([DeployFile]). *)
Record PluginState : Type := mkPluginState {
  hook : string;
  targets : list TargetObj;
}.

Definition DeployFile : Type := list (string * PluginState).

(** What [newTargetCache] holds for one declaration: the second element of
    the declaration's arguments as it is when the cache is built. *)
Inductive CachedTarget : Type :=
  | CachedObj (fields : list (string * Value))
  | CachedPromise (pid : nat).

Definition NewTargetCache : Type := list (string * (string * list CachedTarget)).

(** The files the engine touches. *)
Record Files : Type := mkFiles {
  lockExists : bool;                     (* deploy.lock *)
  targetsYaml : DeployFile;              (* targets.yaml as read by getData *)
  targetsWrites : list NewTargetCache;   (* every targetsFile.setData *)
  debugWrites : list NewTargetCache;     (* every write of targets.debug.yaml *)
}.

(** What surrounds one run: the options, the working tree, and the parts of
    the repository that [deploy] calls but that live in other modules. *)
Record Env : Type := mkEnv {
  dryRun : bool;                              (* options.dryRun *)
  gitStatus : string;                         (* git status --porcelain *)
  toObjectHash : Value -> string;             (* utils/objectHash *)
  deployPlugins : list DeployPlugin;          (* context.deployPlugins *)
  loadDeployPlugin : string -> Result DeployPlugin;
  pushCachedTargets : Result unit;            (* files.commit and files.push *)
}.

(** ** Events

    Every call that leaves the engine is logged, at the moment of the call.
    Calls made on behalf of a declared target carry its declaration index. *)
Inductive Action : Type := Spawn | Update | Kill.

Inductive Event : Type :=
  | EvStart (index : nat)                        (* addTarget entered *)
  | EvPull (index : nat)
  | EvIdentify (index : nat)
  | EvIdentifySaved (index : nat) (plugin : string) (saved : nat)
  | EvDiff (index : nat) (differs : bool) (changed : ChangeSet)
  | EvAction (index : option nat) (a : Action) (plugin : string)
             (target : list (string * Value)) (r : Reverted)
  | EvEnd (index : nat) (r : Result unit)        (* addTarget returned/threw *)
  | EvWarn (plugin : string) (action : string)   (* logger.warnOnce *)
  | EvNoAction                                   (* "No deployment actions" *)
  | EvError (e : Err) (plugin : option string)   (* logger.error, logger.info *)
  | EvRevert (f : RevertFn)
  | EvLockDelete
  | EvSetData (c : NewTargetCache)
  | EvDebugFile (c : NewTargetCache).

(** The declaration an event belongs to. *)
Definition evIndex (ev : Event) : option nat :=
  match ev with
  | EvStart i | EvPull i | EvIdentify i | EvIdentifySaved i _ _
  | EvDiff i _ _ | EvEnd i _ => Some i
  | EvAction i _ _ _ _ => i
  | _ => None
  end.

(** An event of a declaration below [n], or of none. *)
Definition evBelow (n : nat) (ev : Event) : Prop :=
  match evIndex ev with
  | Some i => i < n
  | None => True
  end.

(** A trace (most recent first) in declaration order: an event is preceded
    only by events of its own declaration or of earlier ones; the entry into
    [addTarget] for a declaration is preceded only by events of earlier
    declarations, each of which has returned without an error. *)
Fixpoint ordered (tr : list Event) : Prop :=
  match tr with
  | [] => True
  | ev :: tr' =>
      match ev with
      | EvStart k =>
          Forall (evBelow k) tr' /\
          forall j, j < k -> In (EvEnd j (inr tt)) tr'
      | _ =>
          match evIndex ev with
          | Some i => Forall (evBelow (S i)) tr'
          | None => True
          end
      end /\ ordered tr'
  end.

(** An event of declaration [i] other than the entry into [addTarget], or
    of no declaration. *)
Definition evAt (i : nat) (ev : Event) : Prop :=
  match ev with
  | EvStart _ => False
  | _ => match evIndex ev with
         | Some j => j = i
         | None => True
         end
  end.

(** [tr'] is [tr] with more recent events in front, each satisfying [P]. *)
Inductive grows (P : Event -> Prop) (tr : list Event) : list Event -> Prop :=
  | grows_refl : grows P tr tr
  | grows_cons ev tr' : P ev -> grows P tr tr' -> grows P tr (ev :: tr')
  | grows_app evs tr' : Forall P evs -> grows P tr tr' -> grows P tr (evs ++ tr').

(** ** The state of a run *)

(** [deploying]: undefined until the deploy file has loaded, then a
    [Deferred] that settles once. *)
Inductive Deploying : Type :=
  | DUndefined
  | DPending
  | DResolved
  | DRejected (e : Err).

(** Where one activation of [addTarget] is suspended. *)
Inductive TaskPc : Type :=
  | TTarget                                            (* await target *)
  | TPulled (loc : nat) (r : Result (option (list (string * Value))))
  | TIdentified (loc : nat) (r : Result Value)
  | TFinding (loc : nat) (r : Result (list TargetObj)) (* findSavedTarget *)
  | TUpdated (loc : nat) (r : Reverted)
  | TKilled (loc : nat) (r : Reverted)                 (* kill, no update *)
  | TRespawned (loc : nat) (r : Reverted)              (* spawn after kill *)
  | TSpawned (loc : nat) (r : Reverted).

Record Task : Type := mkTask {
  taskIndex : nat;            (* const index = targetIndex *)
  taskHook : DeployHookRef;
  taskArg : TargetArg;
  taskPc : TaskPc;
}.

(** Where [deploy] itself is suspended. *)
Inductive MainPc : Type :=
  | MLoad                                    (* await loadDeployFile *)
  | MDeploying                               (* await deploying *)
  | MKilling (p : DeployPlugin) (r : Reverted)
             (rest : list (DeployPlugin * (string * nat)))
             (killed : nat)                  (* killedTargets.length *)
  | MReverting (e : Err) (i : nat)           (* for (revert of revertFns) *)
  | MPushing                                 (* await pushCachedTargets *)
  | MDone (r : Result unit).

Record State : Type := mkState {
  files : Files;
  heap : list TargetObj;                     (* objects of the deploy script *)
  promises : list PromiseState;
  targetCache : DeployFile;
  savedTargetsByPlugin : list string;        (* plugins already indexed *)
  revertFns : list RevertFn;
  deploying : Deploying;
  activePlugin : option string;
  reusedTargets : list (string * nat);       (* saved targets, by position *)
  updatedTargets : list nat;
  addedTargets : list nat;
  declared : list (DeployHookRef * TargetArg);  (* the array [targets] *)
  targetIndex : nat;
  secretsPending : bool;                     (* first declaration, awaiting *)
  microtasks : nat;                          (* queued dispatches *)
  tasks : list Task;                         (* activations of addTarget *)
  main : MainPc;
  trace : list Event;                        (* most recent first *)
}.

(** Assignments to the variables of [deploy]. *)
Definition set_files (x : Files) (s : State) : State :=
  mkState x (heap s) (promises s) (targetCache s) (savedTargetsByPlugin s)
    (revertFns s) (deploying s) (activePlugin s) (reusedTargets s)
    (updatedTargets s) (addedTargets s) (declared s) (targetIndex s)
    (secretsPending s) (microtasks s) (tasks s) (main s) (trace s).
Definition set_heap (x : list TargetObj) (s : State) : State :=
  mkState (files s) x (promises s) (targetCache s) (savedTargetsByPlugin s)
    (revertFns s) (deploying s) (activePlugin s) (reusedTargets s)
    (updatedTargets s) (addedTargets s) (declared s) (targetIndex s)
    (secretsPending s) (microtasks s) (tasks s) (main s) (trace s).
Definition set_promises (x : list PromiseState) (s : State) : State :=
  mkState (files s) (heap s) x (targetCache s) (savedTargetsByPlugin s)
    (revertFns s) (deploying s) (activePlugin s) (reusedTargets s)
    (updatedTargets s) (addedTargets s) (declared s) (targetIndex s)
    (secretsPending s) (microtasks s) (tasks s) (main s) (trace s).
Definition set_targetCache (x : DeployFile) (s : State) : State :=
  mkState (files s) (heap s) (promises s) x (savedTargetsByPlugin s)
    (revertFns s) (deploying s) (activePlugin s) (reusedTargets s)
    (updatedTargets s) (addedTargets s) (declared s) (targetIndex s)
    (secretsPending s) (microtasks s) (tasks s) (main s) (trace s).
Definition set_savedTargetsByPlugin (x : list string) (s : State) : State :=
  mkState (files s) (heap s) (promises s) (targetCache s) x (revertFns s)
    (deploying s) (activePlugin s) (reusedTargets s) (updatedTargets s)
    (addedTargets s) (declared s) (targetIndex s) (secretsPending s)
    (microtasks s) (tasks s) (main s) (trace s).
Definition set_revertFns (x : list RevertFn) (s : State) : State :=
  mkState (files s) (heap s) (promises s) (targetCache s)
    (savedTargetsByPlugin s) x (deploying s) (activePlugin s) (reusedTargets
    s) (updatedTargets s) (addedTargets s) (declared s) (targetIndex s)
    (secretsPending s) (microtasks s) (tasks s) (main s) (trace s).
Definition set_deploying (x : Deploying) (s : State) : State :=
  mkState (files s) (heap s) (promises s) (targetCache s)
    (savedTargetsByPlugin s) (revertFns s) x (activePlugin s) (reusedTargets
    s) (updatedTargets s) (addedTargets s) (declared s) (targetIndex s)
    (secretsPending s) (microtasks s) (tasks s) (main s) (trace s).
Definition set_activePlugin (x : option string) (s : State) : State :=
  mkState (files s) (heap s) (promises s) (targetCache s)
    (savedTargetsByPlugin s) (revertFns s) (deploying s) x (reusedTargets s)
    (updatedTargets s) (addedTargets s) (declared s) (targetIndex s)
    (secretsPending s) (microtasks s) (tasks s) (main s) (trace s).
Definition set_reusedTargets (x : list (string * nat)) (s : State) : State :=
  mkState (files s) (heap s) (promises s) (targetCache s)
    (savedTargetsByPlugin s) (revertFns s) (deploying s) (activePlugin s) x
    (updatedTargets s) (addedTargets s) (declared s) (targetIndex s)
    (secretsPending s) (microtasks s) (tasks s) (main s) (trace s).
Definition set_updatedTargets (x : list nat) (s : State) : State :=
  mkState (files s) (heap s) (promises s) (targetCache s)
    (savedTargetsByPlugin s) (revertFns s) (deploying s) (activePlugin s)
    (reusedTargets s) x (addedTargets s) (declared s) (targetIndex s)
    (secretsPending s) (microtasks s) (tasks s) (main s) (trace s).
Definition set_addedTargets (x : list nat) (s : State) : State :=
  mkState (files s) (heap s) (promises s) (targetCache s)
    (savedTargetsByPlugin s) (revertFns s) (deploying s) (activePlugin s)
    (reusedTargets s) (updatedTargets s) x (declared s) (targetIndex s)
    (secretsPending s) (microtasks s) (tasks s) (main s) (trace s).
Definition set_declared (x : list (DeployHookRef * TargetArg)) (s : State) : State :=
  mkState (files s) (heap s) (promises s) (targetCache s)
    (savedTargetsByPlugin s) (revertFns s) (deploying s) (activePlugin s)
    (reusedTargets s) (updatedTargets s) (addedTargets s) x (targetIndex s)
    (secretsPending s) (microtasks s) (tasks s) (main s) (trace s).
Definition set_targetIndex (x : nat) (s : State) : State :=
  mkState (files s) (heap s) (promises s) (targetCache s)
    (savedTargetsByPlugin s) (revertFns s) (deploying s) (activePlugin s)
    (reusedTargets s) (updatedTargets s) (addedTargets s) (declared s) x
    (secretsPending s) (microtasks s) (tasks s) (main s) (trace s).
Definition set_secretsPending (x : bool) (s : State) : State :=
  mkState (files s) (heap s) (promises s) (targetCache s)
    (savedTargetsByPlugin s) (revertFns s) (deploying s) (activePlugin s)
    (reusedTargets s) (updatedTargets s) (addedTargets s) (declared s)
    (targetIndex s) x (microtasks s) (tasks s) (main s) (trace s).
Definition set_microtasks (x : nat) (s : State) : State :=
  mkState (files s) (heap s) (promises s) (targetCache s)
    (savedTargetsByPlugin s) (revertFns s) (deploying s) (activePlugin s)
    (reusedTargets s) (updatedTargets s) (addedTargets s) (declared s)
    (targetIndex s) (secretsPending s) x (tasks s) (main s) (trace s).
Definition set_tasks (x : list Task) (s : State) : State :=
  mkState (files s) (heap s) (promises s) (targetCache s)
    (savedTargetsByPlugin s) (revertFns s) (deploying s) (activePlugin s)
    (reusedTargets s) (updatedTargets s) (addedTargets s) (declared s)
    (targetIndex s) (secretsPending s) (microtasks s) x (main s) (trace s).
Definition set_main (x : MainPc) (s : State) : State :=
  mkState (files s) (heap s) (promises s) (targetCache s)
    (savedTargetsByPlugin s) (revertFns s) (deploying s) (activePlugin s)
    (reusedTargets s) (updatedTargets s) (addedTargets s) (declared s)
    (targetIndex s) (secretsPending s) (microtasks s) (tasks s) x (trace s).
Definition set_trace (x : list Event) (s : State) : State :=
  mkState (files s) (heap s) (promises s) (targetCache s)
    (savedTargetsByPlugin s) (revertFns s) (deploying s) (activePlugin s)
    (reusedTargets s) (updatedTargets s) (addedTargets s) (declared s)
    (targetIndex s) (secretsPending s) (microtasks s) (tasks s) (main s) x.

(** [array[i] = x] inside the bounds of a list. *)
Definition setNth {A : Type} (i : nat) (x : A) (l : list A) : list A :=
  <[i := x]> l.

(** [Object.assign(target, pulled)]. *)
Definition objectAssign (target pulled : list (string * Value))
  : list (string * Value) :=
  fold_left (fun acc kv => assocSet kv.1 kv.2 acc) pulled target.

(** [array.find]: the first element that satisfies [f], with its position. *)
Fixpoint findFrom {A : Type} (f : A -> bool) (i : nat) (l : list A)
  : option (nat * A) :=
  match l with
  | [] => None
  | x :: l' => if f x then Some (i, x) else findFrom f (S i) l'
  end.

(** Awaiting every element of a list of results: the first error wins. *)
Fixpoint allResults {A : Type} (l : list (Result A)) : Result (list A) :=
  match l with
  | [] => inr []
  | inl e :: _ => inl e
  | inr x :: l' =>
      match allResults l' with
      | inl e => inl e
      | inr xs => inr (x :: xs)
      end
  end.

(** [context.deployPlugins[name]]. *)
Fixpoint pluginNamed (key : string) (l : list DeployPlugin)
  : option DeployPlugin :=
  match l with
  | [] => None
  | p :: l' => if String.eqb (name p) key then Some p else pluginNamed key l'
  end.

(** [set.has] and [array.includes] on small sets of names and positions. *)
Definition hasName (key : string) (l : list string) : bool :=
  existsb (String.eqb key) l.

Definition hasSaved (key : string * nat) (l : list (string * nat)) : bool :=
  existsb (fun x => String.eqb x.1 key.1 && (x.2 =? key.2)%nat) l.

(** The saved targets of a plugin after [defineTargetId] has run on them. *)
Definition setTargets (key : string) (saved : list TargetObj)
    (cache : DeployFile) : DeployFile :=
  map (fun kv => if String.eqb kv.1 key
                 then (kv.1, mkPluginState (hook kv.2) saved) else kv) cache.

(** The saved target at a position of the target cache. *)
Definition savedAt (cache : DeployFile) (ref : string * nat) : option TargetObj :=
  match assoc ref.1 cache with
  | Some st => targets st !! ref.2
  | None => None
  end.

(** ** The engine *)

Section Engine.

Variable env : Env.

Definition emit (ev : Event) (s : State) : State :=
  set_trace (ev :: trace s) s.

(** [addRevertFn]: a function is pushed; anything else is a warning outside
    dry runs. *)
Definition addRevertFn (revert : option RevertFn) (p : DeployPlugin)
    (action : string) (s : State) : State :=
  match revert with
  | Some f => set_revertFns (revertFns s ++ [f]) s
  | None => if negb (dryRun env) then emit (EvWarn (name p) action) s else s
  end.

(** [defineTargetId]: [Object.defineProperty(target, '_id', {value})].  The
    property is neither writable nor configurable, so defining it again with
    another value throws. *)
Definition defineTargetId (target : TargetObj) (values : Value)
  : Result TargetObj :=
  let id := toObjectHash env values in
  match _id target with
  | None => inr (mkObj (props target) (Some id))
  | Some old =>
      if String.eqb old id then inr target
      else inl "TypeError: Cannot redefine property: _id"
  end.

(** The [finally] block of [deploy]. *)
Definition finally (s : State) : State :=
  emit EvLockDelete
    (set_files (mkFiles false (targetsYaml (files s))
                  (targetsWrites (files s)) (debugWrites (files s))) s).

(** Leaving [deploy] through [finally] with outcome [r]. *)
Definition leave (r : Result unit) (s : State) : State :=
  set_main (MDone r) (finally s).

(** The body of [addTarget] from the entry to its first [await]. *)
Definition startTask (h : DeployHookRef) (arg : TargetArg) (s : State) : State :=
  let index := targetIndex s in
  let s := set_activePlugin (Some (name (plugin h))) s in
  let s := emit (EvStart index) s in
  set_tasks (tasks s ++ [mkTask index h arg TTarget]) s.

(** [context.addTarget(...args)]. *)
Definition addTargetCtx (h : DeployHookRef) (arg : TargetArg) (s : State)
  : State :=
  let index := length (declared s) in
  let s := set_declared (declared s ++ [(h, arg)]) s in
  if (index =? 0)%nat then set_secretsPending true s
  else if (index =? targetIndex s)%nat then startTask h arg s
  else s.

(** The deploy script declares targets while it is being loaded; [deploy]
    assumes that none is added once [loadDeployFile] has settled. *)
Definition declare (h : DeployHookRef) (arg : TargetArg) (s : State)
  : option State :=
  match main s with
  | MLoad => Some (addTargetCtx h arg s)
  | _ => None
  end.

(** The first declaration, once the secrets and the plugins are loaded. *)
Definition secretsLoaded (s : State) : option State :=
  if secretsPending s then
    let s := set_secretsPending false s in
    match declared s !! 0%nat with
    | Some (h, arg) =>
        Some (if (0 =? targetIndex s)%nat then startTask h arg s else s)
    | None => None
    end
  else None.

(** The queued microtask: [resolve(addTarget(...targets[targetIndex]))]. *)
Definition runMicrotask (s : State) : option State :=
  match microtasks s with
  | O => None
  | S n =>
      let s := set_microtasks n s in
      match declared s !! targetIndex s with
      | Some (h, arg) => Some (startTask h arg s)
      | None => Some s
      end
  end.

(** The [catch] of [addTarget]: [(deploying || Promise).reject(e)].  While
    [deploying] is undefined the rejection goes to the deploy script alone;
    a pending [deploying] is rejected; a settled one stays as it is. *)
Definition rejectTask (index : nat) (e : Err) (s : State) : State :=
  match deploying s with
  | DUndefined => emit (EvEnd index (inl e)) s
  | DPending => emit (EvEnd index (inl e)) (set_deploying (DRejected e) s)
  | _ => emit (EvEnd index (inl e)) s
  end.

(** The end of [addTarget]: the cursor moves when this activation is its
    head; the next declaration is dispatched from a microtask, or else
    [deploying] is resolved. *)
Definition finishTask (index : nat) (s : State) : State :=
  let s := emit (EvEnd index (inr tt)) s in
  if (index =? targetIndex s)%nat then
    let s := set_targetIndex (S (targetIndex s)) s in
    if (targetIndex s <? length (declared s))%nat
    then set_microtasks (S (microtasks s)) s
    else match deploying s with
         | DPending => set_deploying DResolved s
         | _ => s
         end
  else s.

(** [plugin.identify(target)] on the declared target. *)
Definition callIdentify (t : Task) (loc : nat) (o : TargetObj) (s : State)
  : State * option TaskPc :=
  let p := plugin (taskHook t) in
  (emit (EvIdentify (taskIndex t)) s, Some (TIdentified loc (identify p (props o)))).

(** [findSavedTarget] up to its [await]: the saved targets of the plugin are
    identified unless the plugin was indexed before. *)
Definition findSavedStart (t : Task) (s : State)
  : State * Result (list TargetObj) :=
  let p := plugin (taskHook t) in
  match assoc (name p) (targetCache s) with
  | None => (s, inl "TypeError: Cannot read properties of undefined")
  | Some st =>
      if hasName (name p) (savedTargetsByPlugin s) then (s, inr (targets st))
      else
        let s' :=
          fold_left (fun s j => emit (EvIdentifySaved (taskIndex t) (name p) j) s)
                    (seq 0 (length (targets st))) s in
        (s', allResults
               (map (fun saved =>
                       match identify p (props saved) with
                       | inl e => inl e
                       | inr v => defineTargetId saved v
                       end) (targets st)))
  end.

(** The calls of [identify] that [findSavedStart] logs, most recent first. *)
Definition identifyEvents (t : Task) (s : State) : list Event :=
  let p := plugin (taskHook t) in
  match assoc (name p) (targetCache s) with
  | Some st =>
      if hasName (name p) (savedTargetsByPlugin s) then []
      else rev (map (EvIdentifySaved (taskIndex t) (name p))
                    (seq 0 (length (targets st))))
  | None => []
  end.

(** The rest of the [try] block once [findSavedTarget] has answered: the
    diff, and the call of [update], [kill] or [spawn]. *)
Definition reconcile (t : Task) (loc : nat) (saved : list TargetObj)
    (s : State) : option (State * option TaskPc) :=
  let p := plugin (taskHook t) in
  let i := taskIndex t in
  let s := set_targetCache (setTargets (name p) saved (targetCache s)) s in
  let s := if hasName (name p) (savedTargetsByPlugin s) then s
           else set_savedTargetsByPlugin (savedTargetsByPlugin s ++ [name p]) s in
  match heap s !! loc with
  | None => None
  | Some target =>
      match findFrom (fun savedTarget =>
                        match _id savedTarget, _id target with
                        | Some a, Some b => String.eqb a b
                        | None, None => true
                        | _, _ => false
                        end) 0 saved with
      | Some (j, savedTarget) =>
          let s := set_reusedTargets ((name p, j) :: reusedTargets s) s in
          let d := diffObjects (VObj (props savedTarget)) (VObj (props target)) in
          let s := emit (EvDiff i d.1 d.2) s in
          if negb d.1 then Some (emit (EvEnd i (inr tt)) s, None)
          else
            match update p with
            | Some upd =>
                let r := upd (props target) d.2 in
                Some (emit (EvAction (Some i) Update (name p) (props target) r) s,
                      Some (TUpdated loc r))
            | None =>
                let r := kill p (props savedTarget) in
                Some (emit (EvAction (Some i) Kill (name p) (props savedTarget) r) s,
                      Some (TKilled loc r))
            end
      | None =>
          let r := spawn p (props target) in
          Some (emit (EvAction (Some i) Spawn (name p) (props target) r) s,
                Some (TSpawned loc r))
      end
  end.

(** One activation of [addTarget] runs from the [await] it is suspended at to
    its next [await], or to its end ([None]). *)
Definition taskStep (t : Task) (s : State) : option (State * option TaskPc) :=
  let p := plugin (taskHook t) in
  let i := taskIndex t in
  let failed e := Some (rejectTask i e s, None) in
  match taskPc t with
  | TTarget =>
      let resolved :=
        match taskArg t with
        | ArgObj loc => Some (inr loc)
        | ArgPromise pid =>
            match promises s !! pid with
            | Some (Fulfilled loc) => Some (inr loc)
            | Some (Rejected e) => Some (inl e)
            | _ => None
            end
        end in
      match resolved with
      | None => None
      | Some (inl e) => failed e
      | Some (inr loc) =>
          match heap s !! loc with
          | None => None
          | Some o =>
              match pull p with
              | Some f =>
                  Some (emit (EvPull i) s, Some (TPulled loc (f (props o))))
              | None => Some (callIdentify t loc o s)
              end
          end
      end
  | TPulled loc r =>
      match r, heap s !! loc with
      | inl e, _ => failed e
      | _, None => None
      | inr None, Some o => Some (callIdentify t loc o s)
      | inr (Some pulled), Some o =>
          let o' := mkObj (objectAssign (props o) pulled) (_id o) in
          Some (callIdentify t loc o' (set_heap (setNth loc o' (heap s)) s))
      end
  | TIdentified loc r =>
      match r, heap s !! loc with
      | inl e, _ => failed e
      | _, None => None
      | inr values, Some o =>
          match defineTargetId o values with
          | inl e => failed e
          | inr o' =>
              let s := set_heap (setNth loc o' (heap s)) s in
              let '(s, found) := findSavedStart t s in
              Some (s, Some (TFinding loc found))
          end
      end
  | TFinding loc r =>
      match r with
      | inl e => failed e
      | inr saved => reconcile t loc saved s
      end
  | TUpdated loc r =>
      match r with
      | inl e => failed e
      | inr revert =>
          let s := addRevertFn revert p "update" s in
          let s := set_updatedTargets (updatedTargets s ++ [loc]) s in
          Some (finishTask i s, None)
      end
  | TKilled loc r =>
      match r, heap s !! loc with
      | inl e, _ => failed e
      | _, None => None
      | inr revert, Some target =>
          let s := addRevertFn revert p "kill" s in
          let r' := spawn p (props target) in
          Some (emit (EvAction (Some i) Spawn (name p) (props target) r') s,
                Some (TRespawned loc r'))
      end
  | TRespawned loc r =>
      match r with
      | inl e => failed e
      | inr revert =>
          let s := addRevertFn revert p "spawn" s in
          let s := set_updatedTargets (updatedTargets s ++ [loc]) s in
          Some (finishTask i s, None)
      end
  | TSpawned loc r =>
      match r with
      | inl e => failed e
      | inr revert =>
          let s := addRevertFn revert p "spawn" s in
          let s := set_addedTargets (addedTargets s ++ [loc]) s in
          Some (finishTask i s, None)
      end
  end.

(** Scheduling the [n]-th suspended activation. *)
Definition runTask (n : nat) (s : State) : option State :=
  match tasks s !! n with
  | None => None
  | Some t =>
      match taskStep t s with
      | None => None
      | Some (s', Some pc) =>
          Some (set_tasks (setNth n (mkTask (taskIndex t) (taskHook t)
                                       (taskArg t) pc) (tasks s')) s')
      | Some (s', None) => Some (set_tasks (delete n (tasks s')) s')
      end
  end.

(** [getKillableTargets]: every saved target that no declaration reused,
    with the plugin of its entry. *)
Fixpoint getKillableTargets (targetsFile : DeployFile)
    (reused : list (string * nat))
  : Result (list (DeployPlugin * (string * nat))) :=
  match targetsFile with
  | [] => inr []
  | (key, state) :: rest =>
      let loaded :=
        match pluginNamed key (deployPlugins env) with
        | Some p => inr p
        | None => loadDeployPlugin env (hook state)
        end in
      match loaded with
      | inl e => inl e
      | inr p =>
          let killables :=
            map (fun j => (p, (key, j)))
                (List.filter (fun j => negb (hasSaved (key, j) reused))
                        (seq 0 (length (targets state)))) in
          match getKillableTargets rest reused with
          | inl e => inl e
          | inr more => inr (killables ++ more)%list
          end
      end
  end.

(** The value that [newTargetCache] receives for a declaration. *)
Definition cachedTarget (s : State) (arg : TargetArg) : CachedTarget :=
  match arg with
  | ArgObj loc => CachedObj (default [] (props <$> heap s !! loc))
  | ArgPromise pid => CachedPromise pid
  end.

(** [(newTargetCache[name] ||= {hook, targets: []}).targets.push(target)]. *)
Fixpoint pushCached (key hookFile : string) (c : CachedTarget)
    (cache : NewTargetCache) : NewTargetCache :=
  match cache with
  | [] => [(key, (hookFile, [c]))]
  | (k, (h, ts)) :: cache' =>
      if String.eqb k key then (k, (h, ts ++ [c])) :: cache'
      else (k, (h, ts)) :: pushCached key hookFile c cache'
  end.

Definition newTargetCache (s : State) : NewTargetCache :=
  fold_left (fun cache d =>
               pushCached (name (plugin d.1)) (file d.1) (cachedTarget s d.2) cache)
            (declared s) [].

(** After the [finally] of a run that did not throw: the new target cache
    goes to [targets.debug.yaml] in a dry run and to [targets.yaml]
    otherwise. *)
Definition persist (s : State) : State :=
  let s := finally s in
  let c := newTargetCache s in
  let f := files s in
  if dryRun env then
    set_main (MDone (inr tt))
      (emit (EvDebugFile c)
         (set_files (mkFiles (lockExists f) (targetsYaml f) (targetsWrites f)
                       (debugWrites f ++ [c])) s))
  else
    set_main MPushing
      (emit (EvSetData c)
         (set_files (mkFiles (lockExists f) (targetsYaml f)
                       (targetsWrites f ++ [c]) (debugWrites f)) s)).

(** The loop over [revertFns.reverse()], entered at position [i]. *)
Definition revertLoop (e : Err) (i : nat) (s : State) : State :=
  match revertFns s !! i with
  | Some f => set_main (MReverting e i) (emit (EvRevert f) s)
  | None => leave (inl e) s
  end.

(** The [catch] block of [deploy]. *)
Definition catchMain (e : Err) (s : State) : State :=
  match activePlugin s with
  | None =>
      leave (inl "TypeError: Cannot read properties of null")
            (emit (EvError e None) s)
  | Some p =>
      let s := emit (EvError e (Some p)) s in
      if negb (dryRun env)
      then revertLoop e 0 (set_revertFns (rev (revertFns s)) s)
      else leave (inl e) s
  end.

(** The loop over [killedTargets], entered with [kills] left to do. *)
Definition killLoop (kills : list (DeployPlugin * (string * nat)))
    (killed : nat) (s : State) : option State :=
  match kills with
  | [] => Some (persist s)
  | (p, ref) :: rest =>
      match savedAt (targetCache s) ref with
      | None => None
      | Some target =>
          let s := set_activePlugin (Some (name p)) s in
          let r := kill p (props target) in
          Some (set_main (MKilling p r rest killed)
                  (emit (EvAction None Kill (name p) (props target) r) s))
      end
  end.

(** [deploy] runs from the [await] it is suspended at to its next one. *)
Definition mainStep (s : State) : option State :=
  match main s with
  | MLoad => None
  | MDeploying =>
      match deploying s with
      | DResolved =>
          match getKillableTargets (targetCache s) (reusedTargets s) with
          | inl e => Some (catchMain e s)
          | inr killedTargets =>
              let numChanged :=
                (length killedTargets + length (updatedTargets s)
                 + length (addedTargets s))%nat in
              if (numChanged =? 0)%nat
              then Some (leave (inr tt) (emit EvNoAction s))
              else
                match killLoop killedTargets (length killedTargets) s with
                | Some s' => Some s'
                | None => None
                end
          end
      | DRejected e => Some (catchMain e s)
      | _ => None
      end
  | MKilling p r rest killed =>
      match r with
      | inl e => Some (catchMain e s)
      | inr revert => killLoop rest killed (addRevertFn revert p "kill" s)
      end
  | MReverting e i =>
      match revertFns s !! i with
      | None => None
      | Some f =>
          match revertResult f with
          | inl e' => Some (leave (inl e') s)
          | inr _ => Some (revertLoop e (S i) s)
          end
      end
  | MPushing => Some (set_main (MDone (pushCachedTargets env)) s)
  | MDone _ => None
  end.

(** [loadDeployFile] has settled. *)
Definition scriptDone (r : Result unit) (s : State) : option State :=
  match main s with
  | MLoad =>
      match r with
      | inl e => Some (catchMain e s)
      | inr _ => Some (set_main MDeploying (set_deploying DPending s))
      end
  | _ => None
  end.

(** A promise of the deploy script settles. *)
Definition settle (pid : nat) (r : Result nat) (s : State) : option State :=
  match promises s !! pid with
  | Some Pending =>
      Some (set_promises
              (setNth pid (match r with
                           | inl e => Rejected e
                           | inr loc => Fulfilled loc
                           end) (promises s)) s)
  | _ => None
  end.

(** What can happen next: the deploy script declares a target, settles one of
    its promises or ends; or the event loop resumes a suspended piece of
    [deploy]. *)
Inductive Label : Type :=
  | LDeclare (h : DeployHookRef) (arg : TargetArg)
  | LSettle (pid : nat) (r : Result nat)
  | LScript (r : Result unit)
  | LSecrets
  | LMicrotask
  | LTask (n : nat)
  | LMain.

Definition step (s : State) (l : Label) : option State :=
  match l with
  | LDeclare h arg => declare h arg s
  | LSettle pid r => settle pid r s
  | LScript r => scriptDone r s
  | LSecrets => secretsLoaded s
  | LMicrotask => runMicrotask s
  | LTask n => runTask n s
  | LMain => mainStep s
  end.

(** A schedule, run from a state. *)
Fixpoint exec (s : State) (ls : list Label) : option State :=
  match ls with
  | [] => Some s
  | l :: ls' =>
      match step s l with
      | Some s' => exec s' ls'
      | None => None
      end
  end.

(** [deploy] up to [await loadDeployFile(context)]: the checks of the working
    tree and of the lock file, the lock, and the target cache. *)
Definition start (f : Files) (objects : list TargetObj) (npromises : nat)
  : Result State :=
  if negb (dryRun env) && negb (String.eqb (gitStatus env) "") then
    inl "[saus] Cannot deploy with unstaged changes"
  else if negb (dryRun env) && lockExists f then
    inl "[saus] A deployment is already in progress"
  else
    inr (mkState (mkFiles true (targetsYaml f) (targetsWrites f) (debugWrites f))
           objects (replicate npromises Pending) (targetsYaml f)
           [] [] DUndefined None [] [] [] [] 0 false 0 [] MLoad []).

(** A run: the start, then a schedule. *)
Definition run (f : Files) (objects : list TargetObj) (npromises : nat)
    (ls : list Label) : Result (option State) :=
  match start f objects npromises with
  | inl e => inl e
  | inr s => inr (exec s ls)
  end.

End Engine.

(** ** Invariants of a run *)

(** The declaration queue: at most one activation of [addTarget] is in
    flight or about to be dispatched, it is the one under the cursor, and the
    trace is in declaration order. *)
Record queueInv (s : State) : Prop := mkQueueInv {
  q_one : length (tasks s) + microtasks s
          + (if secretsPending s then 1 else 0) <= 1;
  q_task : forall t, In t (tasks s) ->
           taskIndex t = targetIndex s /\
           declared s !! targetIndex s = Some (taskHook t, taskArg t);
  q_cursor : targetIndex s <= length (declared s);
  q_micro : 1 <= microtasks s -> targetIndex s < length (declared s);
  q_secrets : secretsPending s = true ->
              targetIndex s = 0 /\ 1 <= length (declared s);
  q_upto : Forall (evBelow (S (targetIndex s))) (trace s);
  q_fresh : tasks s = [] ->
            1 <= microtasks s \/ secretsPending s = true
            \/ targetIndex s = length (declared s) ->
            Forall (evBelow (targetIndex s)) (trace s);
  q_ended : forall j, j < targetIndex s -> In (EvEnd j (inr tt)) (trace s);
  q_ordered : ordered (trace s);
  q_resolved : deploying s = DResolved ->
               tasks s = [] /\ microtasks s = 0 /\ secretsPending s = false
               /\ targetIndex s = length (declared s)
               /\ updatedTargets s ++ addedTargets s <> [];
  q_load : main s = MLoad -> deploying s = DUndefined;
  q_rejected : forall e, deploying s = DRejected e ->
               tasks s = [] /\ microtasks s = 0 /\ secretsPending s = false
               /\ targetIndex s < length (declared s);
  q_phase : match main s with
            | MKilling _ _ _ _ | MPushing | MDone (inr _) =>
                deploying s = DResolved
            | _ => True
            end;
}.

(** An event that is neither the diff of declaration [i] nor an action on
    its behalf. *)
Definition noDiffAction (i : nat) (ev : Event) : Prop :=
  match ev with
  | EvDiff j _ _ => j <> i
  | EvAction (Some j) _ _ _ _ => j <> i
  | _ => True
  end.

(** An event that does not report declaration [i] unchanged. *)
Definition noUnchanged (i : nat) (ev : Event) : Prop :=
  match ev with
  | EvDiff j false _ => j <> i
  | _ => True
  end.

(** An event that reports no declaration unchanged. *)
Definition notUnchanged (ev : Event) : Prop :=
  match ev with
  | EvDiff _ false _ => False
  | _ => True
  end.

(** The suspension points of [addTarget] before the diff. *)
Definition beforeDiff (pc : TaskPc) : bool :=
  match pc with
  | TTarget | TPulled _ _ | TIdentified _ _ | TFinding _ _ => true
  | _ => false
  end.

(** An event that is no action on behalf of declaration [i]. *)
Definition noAction (i : nat) (ev : Event) : Prop :=
  match ev with
  | EvAction (Some j) _ _ _ _ => j <> i
  | _ => True
  end.

(** The queue after declaration [i] was found unchanged: [addTarget] has
    returned from inside its [try] block, so the cursor still points at [i],
    nothing is in flight or queued, and [deploying] is not settled. *)
Definition stalledAt (i : nat) (s : State) : Prop :=
  targetIndex s = i /\ tasks s = [] /\ microtasks s = 0
  /\ secretsPending s = false /\ i < length (declared s)
  /\ deploying s <> DResolved /\ (forall e, deploying s <> DRejected e)
  /\ Forall (noAction i) (trace s).

(** What the trace holds about the declaration of an activation, by the
    [await] the activation is suspended at. *)
Record diffInv (s : State) : Prop := mkDiffInv {
  d_pc : forall t, In t (tasks s) ->
         if beforeDiff (taskPc t)
         then Forall (noDiffAction (taskIndex t)) (trace s)
         else Forall (noUnchanged (taskIndex t)) (trace s);
  d_stalled : forall i c, In (EvDiff i false c) (trace s) -> stalledAt i s;
}.

(** An event that neither rolls an action back nor rewrites the target
    store. *)
Definition noRollbackNoSave (ev : Event) : Prop :=
  match ev with
  | EvRevert _ | EvSetData _ => False
  | _ => True
  end.

(** What a dry run keeps: the target store as it was read, and no rollback
    and no save under way. *)
Definition dryInv (f : Files) (s : State) : Prop :=
  targetsWrites (files s) = targetsWrites f
  /\ targetsYaml (files s) = targetsYaml f
  /\ Forall noRollbackNoSave (trace s)
  /\ match main s with
     | MReverting _ _ | MPushing => False
     | _ => True
     end.

(** The lock file is there exactly while [deploy] is under way. *)
Definition lockInv (s : State) : Prop :=
  match main s with
  | MDone _ => lockExists (files s) = false
  | MPushing => lockExists (files s) = false
  | _ => lockExists (files s) = true
  end.

(** The revert functions an action has handed back, most recent first. *)
Fixpoint pushed (tr : list Event) : list RevertFn :=
  match tr with
  | [] => []
  | EvAction _ _ _ _ (inr (Some f)) :: tr' => f :: pushed tr'
  | _ :: tr' => pushed tr'
  end.

(** The revert functions that were called, most recent first. *)
Fixpoint invoked (tr : list Event) : list RevertFn :=
  match tr with
  | [] => []
  | EvRevert f :: tr' => f :: invoked tr'
  | _ :: tr' => invoked tr'
  end.

(** The events with which a run starts to go wrong: an action that throws,
    and the entry into the [catch] block of [deploy]. *)
Definition bad (ev : Event) : bool :=
  match ev with
  | EvAction _ _ _ _ (inl _) => true
  | EvError _ _ => true
  | _ => false
  end.

Definition isFailedAction (ev : Event) : bool :=
  match ev with
  | EvAction _ _ _ _ (inl _) => true
  | _ => false
  end.

Definition isAction (ev : Event) : bool :=
  match ev with
  | EvAction _ _ _ _ _ => true
  | _ => false
  end.

(** The first bad event of a trace, in the order of time. *)
Fixpoint firstBad (tr : list Event) : option Event :=
  match tr with
  | [] => None
  | ev :: tr' =>
      match firstBad tr' with
      | Some b => Some b
      | None => if bad ev then Some ev else None
      end
  end.

(** The revert function that an awaited action has handed back and that
    [addRevertFn] has not pushed yet. *)
Definition pendingOf (r : Reverted) : list RevertFn :=
  match r with
  | inr (Some fn) => [fn]
  | _ => []
  end.

Definition pendingTask (pc : TaskPc) : list RevertFn :=
  match pc with
  | TUpdated _ r | TKilled _ r | TRespawned _ r | TSpawned _ r => pendingOf r
  | _ => []
  end.

Definition pendingMain (m : MainPc) : list RevertFn :=
  match m with
  | MKilling _ r _ _ => pendingOf r
  | _ => []
  end.

Definition pendingR (s : State) : list RevertFn :=
  concat (map (fun t => pendingTask (taskPc t)) (tasks s))
  ++ pendingMain (main s).

(** An activation suspended at an action that has thrown. *)
Definition deadPc (pc : TaskPc) : Prop :=
  match pc with
  | TUpdated _ (inl _) | TKilled _ (inl _)
  | TRespawned _ (inl _) | TSpawned _ (inl _) => True
  | _ => False
  end.

(** No activation of [addTarget] can be entered any more. *)
Definition quiet (s : State) : Prop :=
  microtasks s = 0 /\ secretsPending s = false
  /\ (targetIndex s < length (declared s) \/ main s <> MLoad).

(** While nothing has gone wrong: no revert function has been called, and
    the stack together with the pending revert function holds what the
    actions have handed back, in the order of time. *)
Definition soundRun (s : State) : Prop :=
  invoked (trace s) = []
  /\ revertFns s ++ pendingR s = rev (pushed (trace s))
  /\ match main s with
     | MReverting _ _ => False
     | MDone _ => deploying s = DResolved
     | _ => True
     end.

(** After an action has thrown first: no further action is called; until
    the [catch] block is entered the stack holds what the earlier actions
    have handed back; from then on it is reversed, and the sweep has called
    its first elements, in order. *)
Definition failedRun (s : State) : Prop :=
  (forall t, In t (tasks s) -> deadPc (taskPc t))
  /\ quiet s
  /\ match main s with
     | MLoad | MDeploying =>
         invoked (trace s) = []
         /\ revertFns s = rev (pushed (trace s))
         /\ deploying s <> DResolved
     | MKilling _ r _ _ =>
         invoked (trace s) = []
         /\ revertFns s = rev (pushed (trace s))
         /\ (exists e, r = inl e) /\ tasks s = []
     | MReverting _ i =>
         revertFns s = pushed (trace s)
         /\ rev (invoked (trace s)) = take (S i) (pushed (trace s))
         /\ i < length (pushed (trace s))
     | MDone _ =>
         revertFns s = pushed (trace s)
         /\ (rev (invoked (trace s)) = pushed (trace s)
             \/ exists i fn e',
                  rev (invoked (trace s)) = take (S i) (pushed (trace s))
                  /\ pushed (trace s) !! i = Some fn
                  /\ revertResult fn = inl e')
     | MPushing => False
     end.

(** A plugin is active as soon as an activation is entered or an action is
    called. *)
Definition activeInv (s : State) : Prop :=
  tasks s <> [] \/ existsb isAction (trace s) = true -> activePlugin s <> None.

(** After an action has thrown first, it stays the last action called. *)
Definition lastActionInv (s : State) : Prop :=
  forall ev, firstBad (trace s) = Some ev -> isFailedAction ev = true ->
             List.find isAction (trace s) = Some ev.

(** The revert stack along a run. *)
Definition revertInv (s : State) : Prop :=
  activeInv s
  /\ match firstBad (trace s) with
     | None => soundRun s
     | Some ev => if isFailedAction ev then failedRun s else True
     end.

(** An event other than the call of a revert function. *)
Definition noRevert (ev : Event) : Prop :=
  match ev with
  | EvRevert _ => False
  | _ => True
  end.

(** ** The new target cache *)

(** The targets that a target cache holds under a plugin name. *)
Definition cachedUnder (key : string) (c : NewTargetCache) : list CachedTarget :=
  match assoc key c with
  | Some (_, ts) => ts
  | None => []
  end.

(** The declarations made through the plugin of a name, in their order. *)
Definition declaredFor (key : string) (l : list (DeployHookRef * TargetArg))
  : list (DeployHookRef * TargetArg) :=
  List.filter (fun d => String.eqb (name (plugin d.1)) key) l.

(** The object that a declared value stands for, once it is known: the
    object itself, or the one a promise has been fulfilled with. *)
Definition argLoc (s : State) (arg : TargetArg) : option nat :=
  match arg with
  | ArgObj loc => Some loc
  | ArgPromise pid =>
      match promises s !! pid with
      | Some (Fulfilled loc) => Some loc
      | _ => None
      end
  end.

(** The local variable [target] of an activation once [await target] has
    answered. *)
Definition pcLoc (pc : TaskPc) : option nat :=
  match pc with
  | TTarget => None
  | TPulled loc _ | TIdentified loc _ | TFinding loc _ | TUpdated loc _
  | TKilled loc _ | TRespawned loc _ | TSpawned loc _ => Some loc
  end.

(** The suspension points from which [addTarget] returns at its end. *)
Definition afterAction (pc : TaskPc) : bool :=
  match pc with
  | TUpdated _ _ | TRespawned _ _ | TSpawned _ _ => true
  | _ => false
  end.

(** The fields of a target after [pull] and [Object.assign(target, pulled)]. *)
Definition pulledProps (p : DeployPlugin) (fields : list (string * Value))
  : list (string * Value) :=
  match pull p with
  | Some f =>
      match f fields with
      | inr (Some pulled) => objectAssign fields pulled
      | _ => fields
      end
  | None => fields
  end.

(** Declaration [i] stands for the object at [loc]. *)
Definition owner (s : State) (loc i : nat) : Prop :=
  exists h arg, declared s !! i = Some (h, arg) /\ argLoc s arg = Some loc.

(** What an activation does to the heap between two of its [await]s. *)
Definition calls (s : State) (t : Task) (pc : TaskPc) (heap' : list TargetObj)
  : Prop :=
  match taskPc t, pc with
  | TTarget, TPulled loc r =>
      argLoc s (taskArg t) = Some loc /\ heap' = heap s
      /\ exists o f, heap s !! loc = Some o
                     /\ pull (plugin (taskHook t)) = Some f /\ r = f (props o)
  | TTarget, TIdentified loc _ =>
      argLoc s (taskArg t) = Some loc /\ heap' = heap s
      /\ pull (plugin (taskHook t)) = None /\ loc < length (heap s)
  | TPulled loc r, TIdentified loc' _ =>
      loc' = loc
      /\ exists o, heap s !! loc = Some o
           /\ heap' = match r with
                      | inr (Some pulled) =>
                          <[loc := mkObj (objectAssign (props o) pulled) (_id o)]>
                            (heap s)
                      | _ => heap s
                      end
  | TIdentified loc _, TFinding loc' _ =>
      loc' = loc
      /\ exists o o', heap s !! loc = Some o /\ props o' = props o
                      /\ heap' = <[loc := o']> (heap s)
  | TFinding loc _, TUpdated loc' _ | TFinding loc _, TKilled loc' _
  | TFinding loc _, TSpawned loc' _ | TKilled loc _, TRespawned loc' _ =>
      loc' = loc /\ heap' = heap s
  | _, _ => False
  end.

(** One step, as the declarations, the objects and the activations see it. *)
Inductive Move (s s' : State) : Prop :=
  | MoveMain :
      heap s' = heap s -> promises s' = promises s ->
      declared s' = declared s -> targetIndex s' = targetIndex s ->
      tasks s' = tasks s -> microtasks s' = microtasks s ->
      secretsPending s' = secretsPending s -> Move s s'
  | MoveSettle pid x :
      promises s !! pid = Some Pending ->
      promises s' = <[pid := x]> (promises s) ->
      heap s' = heap s ->
      declared s' = declared s -> targetIndex s' = targetIndex s ->
      tasks s' = tasks s -> microtasks s' = microtasks s ->
      secretsPending s' = secretsPending s -> Move s s'
  | MoveDeclare h arg :
      declared s' = declared s ++ [(h, arg)] ->
      heap s' = heap s -> promises s' = promises s ->
      targetIndex s' = targetIndex s -> microtasks s' = microtasks s ->
      secretsPending s' = secretsPending s \/ declared s = [] ->
      (tasks s' = tasks s
       \/ tasks s = [] /\ targetIndex s = length (declared s)
          /\ tasks s' = [mkTask (targetIndex s) h arg TTarget]) ->
      Move s s'
  | MoveStart h arg :
      tasks s = [] -> 1 <= microtasks s \/ secretsPending s = true ->
      declared s !! targetIndex s = Some (h, arg) ->
      tasks s' = [mkTask (targetIndex s) h arg TTarget] ->
      microtasks s' = 0 -> secretsPending s' = false ->
      heap s' = heap s -> promises s' = promises s ->
      declared s' = declared s -> targetIndex s' = targetIndex s -> Move s s'
  | MoveCall t pc :
      tasks s = [t] ->
      tasks s' = [mkTask (taskIndex t) (taskHook t) (taskArg t) pc] ->
      calls s t pc (heap s') ->
      promises s' = promises s ->
      declared s' = declared s -> targetIndex s' = targetIndex s ->
      microtasks s' = microtasks s ->
      secretsPending s' = secretsPending s -> Move s s'
  | MoveStuck t :
      tasks s = [t] -> tasks s' = [] ->
      heap s' = heap s -> promises s' = promises s ->
      declared s' = declared s -> targetIndex s' = targetIndex s ->
      microtasks s' = microtasks s ->
      secretsPending s' = secretsPending s -> Move s s'
  | MoveFinish t :
      tasks s = [t] -> tasks s' = [] -> afterAction (taskPc t) = true ->
      heap s' = heap s -> promises s' = promises s ->
      declared s' = declared s -> targetIndex s' = S (targetIndex s) ->
      secretsPending s' = secretsPending s -> Move s s'.

(** An activation that has its target in hand has it from its declaration;
    the declarations behind the cursor have all been resolved. *)
Definition argInv (s : State) : Prop :=
  (forall t loc, In t (tasks s) -> pcLoc (taskPc t) = Some loc ->
     argLoc s (taskArg t) = Some loc /\ loc < length (heap s))
  /\ (forall i h arg, i < targetIndex s -> declared s !! i = Some (h, arg) ->
        exists loc, argLoc s arg = Some loc /\ loc < length (heap s)).

(** The fields of the objects of the deploy script: as the script made them
    until [pull] has answered for the one declaration that stands for the
    object, and with the pulled fields from then on. *)
Definition objInv (objects : list TargetObj) (s : State) : Prop :=
  length (heap s) = length objects
  /\ forall loc o0 o,
       objects !! loc = Some o0 -> heap s !! loc = Some o ->
       ((forall j, ~ owner s loc j) -> props o = props o0)
       /\ forall i h arg,
            declared s !! i = Some (h, arg) -> argLoc s arg = Some loc ->
            (forall j, owner s loc j -> j = i) ->
            (targetIndex s < i -> props o = props o0)
            /\ (targetIndex s = i -> tasks s = [] ->
                1 <= microtasks s \/ secretsPending s = true ->
                props o = props o0)
            /\ (forall t, In t (tasks s) -> targetIndex s = i ->
                  match taskPc t with
                  | TTarget => props o = props o0
                  | TPulled _ r =>
                      props o = props o0
                      /\ exists f, pull (plugin h) = Some f
                                   /\ r = f (props o0)
                  | _ => props o = pulledProps (plugin h) (props o0)
                  end)
            /\ (i < targetIndex s ->
                props o = pulledProps (plugin h) (props o0)).

(** An event other than the hand-over of a new target cache. *)
Definition noSnapshot (ev : Event) : Prop :=
  match ev with
  | EvSetData _ | EvDebugFile _ => False
  | _ => True
  end.

(** A new target cache is handed over once [deploying] has resolved and
    [deploy] is past its [finally]; it is the cache of the state from then
    on. *)
Definition snapInv (s : State) : Prop :=
  Forall noSnapshot (trace s)
  \/ deploying s = DResolved
     /\ (main s = MPushing \/ exists r, main s = MDone r)
     /\ forall c, In (EvSetData c) (trace s) \/ In (EvDebugFile c) (trace s) ->
                  c = newTargetCache s.

(** ** The next run *)

(** What the target store gives back to the next run for what it was handed:
    every object as a new object with the same fields, without the hidden
    [_id]; what it gives back for a promise is up to its serialiser. *)
Definition reloadTarget (promised : nat -> TargetObj) (c : CachedTarget)
  : TargetObj :=
  match c with
  | CachedObj fields => mkObj fields None
  | CachedPromise pid => promised pid
  end.

Definition reload (promised : nat -> TargetObj) (c : NewTargetCache)
  : DeployFile :=
  map (fun kv => (kv.1, mkPluginState kv.2.1
                          (map (reloadTarget promised) kv.2.2))) c.

(** An event other than the call of an action. *)
Definition noCall (ev : Event) : Prop :=
  match ev with
  | EvAction _ _ _ _ _ => False
  | _ => True
  end.

(** The saved targets start with one that has the given fields and the
    identity of the target. *)
Definition headSaved (fields : list (string * Value)) (target : TargetObj)
    (r : Result (list TargetObj)) : Prop :=
  forall saved, r = inr saved ->
    exists saved0 rest,
      saved = saved0 :: rest /\ props saved0 = fields /\ _id saved0 = _id target.

(** The first activation of a run whose store holds the object at [loc]
    as the first saved target of the plugin, with the fields the object has
    after [pull]: what it has in hand at each of its [await]s. *)
Definition secondPc (h : DeployHookRef) (loc : nat) (o0 : TargetObj)
    (store : DeployFile) (s : State) (pc : TaskPc) : Prop :=
  let p := plugin h in
  let pulled := pulledProps p (props o0) in
  let fresh := savedTargetsByPlugin s = [] /\ targetCache s = store in
  match pc with
  | TTarget => heap s !! loc = Some o0 /\ fresh
  | TPulled l r =>
      l = loc /\ heap s !! loc = Some o0 /\ fresh
      /\ exists f, pull p = Some f /\ r = f (props o0)
  | TIdentified l r =>
      l = loc /\ fresh /\ r = identify p pulled
      /\ exists o, heap s !! loc = Some o /\ props o = pulled
  | TFinding l r =>
      l = loc
      /\ exists o, heap s !! loc = Some o /\ props o = pulled
                   /\ headSaved pulled o r
  | _ => False
  end.

(** Such a run: the activation for the first declaration is the only one, it
    calls no action, and the cursor stays on it. *)
Definition secondInv (h : DeployHookRef) (loc : nat) (o0 : TargetObj)
    (store : DeployFile) (s : State) : Prop :=
  targetIndex s = 0
  /\ Forall noCall (trace s)
  /\ deploying s <> DResolved
  /\ (forall t, In t (tasks s) -> secondPc h loc o0 store s (taskPc t))
  /\ (tasks s = [] ->
      secondPc h loc o0 store s TTarget
      \/ microtasks s = 0 /\ secretsPending s = false
         /\ 0 < length (declared s)).

(** ** Further invariants of a run *)

(** The call of [kill] from the loop over [killedTargets]. *)
Definition killPhase (ev : Event) : bool :=
  match ev with
  | EvAction None _ _ _ _ => true
  | _ => false
  end.

(** A target killed by that loop is a saved target that no declaration
    has been matched with. *)
Definition killOk (s : State) (ev : Event) : Prop :=
  match ev with
  | EvAction None _ _ fields _ =>
      exists ref target,
        hasSaved ref (reusedTargets s) = false
        /\ savedAt (targetCache s) ref = Some target
        /\ props target = fields
  | _ => True
  end.

Definition killInv (s : State) : Prop :=
  (forall p r rest k,
      main s = MKilling p r rest k ->
      Forall (fun x => hasSaved x.2 (reusedTargets s) = false) rest)
  /\ Forall (killOk s) (trace s).

(** The events at which [activePlugin] is assigned: the entry into
    [addTarget], and a call of [kill] from the loop over [killedTargets]. *)
Definition dispatched (ev : Event) : bool :=
  match ev with
  | EvStart _ => true
  | EvAction None _ _ _ _ => true
  | _ => false
  end.

(** The suspension points of [addTarget] after [findSavedTarget] has
    answered without an error. *)
Definition needsEntry (pc : TaskPc) : bool :=
  match pc with
  | TFinding _ (inr _) | TUpdated _ _ | TKilled _ _ | TRespawned _ _
  | TSpawned _ _ => true
  | _ => false
  end.

(** An action called for a declaration belongs to a plugin that has an
    entry in the target cache that [deploy] has read; one called from the
    loop over [killedTargets] needs some entry. *)
Definition entryOk (store : DeployFile) (ev : Event) : Prop :=
  match ev with
  | EvAction (Some _) _ n _ _ => In n (map fst store)
  | EvAction None _ _ _ _ => store <> []
  | _ => True
  end.

Definition storeInv (store : DeployFile) (s : State) : Prop :=
  map fst (targetCache s) = map fst store
  /\ (forall t, In t (tasks s) -> needsEntry (taskPc t) = true ->
                In (name (plugin (taskHook t))) (map fst store))
  /\ Forall (entryOk store) (trace s)
  /\ (store = [] -> deploying s <> DResolved).

(** An event other than the entry into the [catch] block of [deploy] and
    the call of a revert function. *)
Definition calm (ev : Event) : Prop :=
  match ev with
  | EvError _ _ | EvRevert _ => False
  | _ => True
  end.

(** [deploy] is in its [catch] block, or has thrown. *)
Definition failing (m : MainPc) : Prop :=
  match m with
  | MReverting _ _ | MDone (inl _) => True
  | _ => False
  end.

(** Either nothing has gone wrong for [deploy] itself, or [deploy] is on
    its way out with an error and has not handed over a target cache. *)
Definition phaseInv (s : State) : Prop :=
  Forall calm (trace s)
  \/ failing (main s) /\ Forall noSnapshot (trace s).

(** The files written by a run: nothing until the new target cache is
    handed over, which is the last thing [deploy] logs; it goes to the
    target store, or to the side file in a dry run. *)
Definition writesInv (env : Env) (f : Files) (s : State) : Prop :=
  (Forall noSnapshot (trace s)
   /\ targetsWrites (files s) = targetsWrites f
   /\ debugWrites (files s) = debugWrites f)
  \/ exists tr,
       Forall noSnapshot tr
       /\ trace s = (if dryRun env then EvDebugFile (newTargetCache s)
                     else EvSetData (newTargetCache s))
                    :: EvLockDelete :: tr
       /\ targetsWrites (files s)
          = (if dryRun env then targetsWrites f
             else targetsWrites f ++ [newTargetCache s])
       /\ debugWrites (files s)
          = (if dryRun env then debugWrites f ++ [newTargetCache s]
             else debugWrites f)
       /\ lockExists (files s) = false
       /\ deploying s = DResolved
       /\ (main s = MPushing \/ exists r, main s = MDone r).

(** The actions called for declaration [i], most recent first. *)
Fixpoint actionsOf (i : nat) (tr : list Event) : list Action :=
  match tr with
  | [] => []
  | EvAction (Some j) a _ _ _ :: tr' =>
      if (j =? i)%nat then a :: actionsOf i tr' else actionsOf i tr'
  | _ :: tr' => actionsOf i tr'
  end.

(** What an activation of [addTarget] has called by the time it is
    suspended at one of its [await]s, most recent first. *)
Definition calledAt (pc : TaskPc) : list Action :=
  match pc with
  | TUpdated _ _ => [Update]
  | TKilled _ _ => [Kill]
  | TRespawned _ _ => [Spawn; Kill]
  | TSpawned _ _ => [Spawn]
  | _ => []
  end.

(** The actions of [addTarget] for one declaration: none, [spawn],
    [update], [kill], or [kill] and then [spawn]. *)
Definition onePlan (l : list Action) : Prop :=
  l = [] \/ l = [Spawn] \/ l = [Update] \/ l = [Kill] \/ l = [Spawn; Kill].

Definition actInv (s : State) : Prop :=
  (forall t, In t (tasks s) ->
             actionsOf (taskIndex t) (trace s) = calledAt (taskPc t))
  /\ forall i, onePlan (actionsOf i (trace s)).

(** The words under which [addRevertFn] names an action in its warning. *)
Definition actionName (a : Action) : string :=
  match a with
  | Spawn => "spawn"
  | Update => "update"
  | Kill => "kill"
  end.

(** The warnings of a trace, as pairs of a plugin name and an action name,
    and the actions of a trace that have handed back no revert function. *)
Fixpoint warned (tr : list Event) : list (string * string) :=
  match tr with
  | [] => []
  | EvWarn p a :: tr' => (p, a) :: warned tr'
  | _ :: tr' => warned tr'
  end.

Fixpoint handedNothing (tr : list Event) : list (string * string) :=
  match tr with
  | [] => []
  | EvAction _ a n _ (inr None) :: tr' => (n, actionName a) :: handedNothing tr'
  | _ :: tr' => handedNothing tr'
  end.

(** The warning that is due for an awaited action whose result
    [addRevertFn] has not seen yet. *)
Definition owedOf (n action : string) (r : Reverted) : list (string * string) :=
  match r with
  | inr None => [(n, action)]
  | _ => []
  end.

Definition owedTask (t : Task) : list (string * string) :=
  let n := name (plugin (taskHook t)) in
  match taskPc t with
  | TUpdated _ r => owedOf n "update" r
  | TKilled _ r => owedOf n "kill" r
  | TRespawned _ r | TSpawned _ r => owedOf n "spawn" r
  | _ => []
  end.

Definition owedMain (m : MainPc) : list (string * string) :=
  match m with
  | MKilling p r _ _ => owedOf (name p) "kill" r
  | _ => []
  end.

Definition owed (s : State) : list (string * string) :=
  concat (map owedTask (tasks s)) ++ owedMain (main s).

Definition warnInv (dry : bool) (s : State) : Prop :=
  if dry then warned (trace s) = []
  else owed s ++ warned (trace s) = handedNothing (trace s).

(** ** A small deployment

    One provider, [web], that identifies a target by its [name]; targets
    [x] and [y]; the schedules used below. *)
Module Ex.

Definition nameHash (v : Value) : string :=
  match v with
  | VStr x => x
  | _ => ""
  end.

Definition undo (x : string) : RevertFn := mkRevert x (inr tt).
Definition undoThrows (x : string) : RevertFn := mkRevert x (inl "undo failed").

Definition nameOf (t : list (string * Value)) : string :=
  nameHash (getProp (VObj t) "name").

Definition web : DeployPlugin :=
  mkPlugin "web" None
    (fun t => inr (getProp (VObj t) "name"))
    (fun t => inr (Some (undo ("spawn " +:+ nameOf t))))
    (Some (fun t _ => inr (Some (undo ("update " +:+ nameOf t)))))
    (fun t => inr (Some (undo ("kill " +:+ nameOf t)))).

Definition webHook : DeployHookRef := mkHook "web.js" web.

Definition envOf (dry : bool) (git : string) : Env :=
  mkEnv dry git nameHash [web] (fun _ => inl "no such plugin") (inr tt).

Definition x1 : TargetObj := mkObj [("name", VStr "x"); ("size", VNum 1)] None.
Definition x2 : TargetObj := mkObj [("name", VStr "x"); ("size", VNum 2)] None.
Definition y1 : TargetObj := mkObj [("name", VStr "y"); ("size", VNum 1)] None.
Definition z1 : TargetObj := mkObj [("name", VStr "z"); ("size", VNum 1)] None.

Definition store (saved : list TargetObj) : Files :=
  mkFiles false [("web", mkPluginState "web.js" saved)] [] [].

(** One activation of [addTarget] from its entry to its end: the target, the
    identity, the saved targets, the action. *)
Definition activation : list Label := [LTask 0; LTask 0; LTask 0; LTask 0]%nat.

(** The script declares [x] and ends; [x] is new, [y] is no longer declared. *)
Definition spawnAndKill : list Label :=
  [LDeclare webHook (ArgObj 0); LScript (inr tt); LSecrets] ++ activation
  ++ [LMain; LMain].

(** The script declares promises of [x], [y] and [z]; the promise of [y]
    is fulfilled before the promise of [x]. *)
Definition outOfOrder : list Label :=
  [LDeclare webHook (ArgPromise 0); LDeclare webHook (ArgPromise 1);
   LDeclare webHook (ArgObj 2); LScript (inr tt);
   LSettle 1 (inr 1%nat); LSecrets; LSettle 0 (inr 0%nat)]
  ++ activation ++ [LMicrotask] ++ activation ++ [LMicrotask] ++ activation
  ++ [LMain; LMain].

(** The target of the prior store is declared again as it is: the
    activation ends at the diff. *)
Definition declareOnce : list Label :=
  [LDeclare webHook (ArgObj 0); LScript (inr tt); LSecrets;
   LTask 0; LTask 0; LTask 0]%nat.

(** A target whose optional field is [undefined], and the same target after
    a round trip through the store, which drops the field. *)
Definition withRegion : Value :=
  VObj [("name", VStr "x"); ("region", VUndef)].
Definition withoutRegion : Value := VObj [("name", VStr "x")].

(** Two targets that differ in the one nested leaf [b.y]. *)
Definition nestedOld : Value :=
  VObj [("a", VObj [("x", VNum 1)]); ("b", VObj [("y", VNum 1)])].
Definition nestedNew : Value :=
  VObj [("a", VObj [("x", VNum 1)]); ("b", VObj [("y", VNum 2)])].

(** A locked store. *)
Definition lockedStore : Files :=
  mkFiles true [("web", mkPluginState "web.js" [])] [] [].

(** Three targets are new; the third [spawn] throws, and so does the revert
    function of the second. *)
Definition flaky : DeployPlugin :=
  mkPlugin "web" None
    (fun t => inr (getProp (VObj t) "name"))
    (fun t => if String.eqb (nameOf t) "z" then inl "spawn failed"
              else if String.eqb (nameOf t) "y"
                   then inr (Some (undoThrows "spawn y"))
                   else inr (Some (undo ("spawn " +:+ nameOf t))))
    None
    (fun t => inr (Some (undo ("kill " +:+ nameOf t)))).

Definition flakyHook : DeployHookRef := mkHook "web.js" flaky.

Definition flakyEnv : Env :=
  mkEnv false "" nameHash [flaky] (fun _ => inl "no such plugin") (inr tt).

(** The three declarations up to the failure of the third [spawn], which
    rejects [deploying]. *)
Definition untilFailure : list Label :=
  [LDeclare flakyHook (ArgObj 0); LDeclare flakyHook (ArgObj 1);
   LDeclare flakyHook (ArgObj 2); LScript (inr tt); LSecrets]
  ++ activation ++ [LMicrotask] ++ activation ++ [LMicrotask] ++ activation.

(** ... and then the [catch] block, which calls the revert function of the
    second [spawn]. *)
Definition untilSweep : list Label := untilFailure ++ [LMain].

(** ... and then the continuation after that call has thrown. *)
Definition afterSweep : list Label := untilSweep ++ [LMain].

(** Three targets are new; the third [spawn] throws, and every revert
    function does its work. *)
Definition brittle : DeployPlugin :=
  mkPlugin "web" None
    (fun t => inr (getProp (VObj t) "name"))
    (fun t => if String.eqb (nameOf t) "z" then inl "spawn failed"
              else inr (Some (undo ("spawn " +:+ nameOf t))))
    None
    (fun t => inr (Some (undo ("kill " +:+ nameOf t)))).

Definition brittleHook : DeployHookRef := mkHook "web.js" brittle.

Definition brittleEnv : Env :=
  mkEnv false "" nameHash [brittle] (fun _ => inl "no such plugin") (inr tt).

(** The three declarations up to the failure of the third [spawn]. *)
Definition untilThrow : list Label :=
  [LDeclare brittleHook (ArgObj 0); LDeclare brittleHook (ArgObj 1);
   LDeclare brittleHook (ArgObj 2); LScript (inr tt); LSecrets]
  ++ activation ++ [LMicrotask] ++ activation ++ [LMicrotask] ++ activation.

(** A provider whose [pull] reports the region of a target. *)
Definition regional : DeployPlugin :=
  mkPlugin "web" (Some (fun _ => inr (Some [("region", VStr "eu")])))
    (fun t => inr (getProp (VObj t) "name"))
    (fun t => inr (Some (undo ("spawn " +:+ nameOf t))))
    None
    (fun t => inr (Some (undo ("kill " +:+ nameOf t)))).

Definition regionalHook : DeployHookRef := mkHook "web.js" regional.

Definition regionalEnv : Env :=
  mkEnv false "" nameHash [regional] (fun _ => inl "no such plugin") (inr tt).

(** The script declares [x] as an object and [y] through a promise; both
    are new, and [deploy] gets as far as [targetsFile.setData]. *)
Definition objectAndPromise : list Label :=
  [LDeclare regionalHook (ArgObj 0); LDeclare regionalHook (ArgPromise 0);
   LScript (inr tt); LSettle 0 (inr 1%nat); LSecrets]
  ++ activation ++ [LTask 0; LMicrotask] ++ activation ++ [LTask 0; LMain].

(** What the store of these examples gives back for a promise. *)
Definition promisedAs (pid : nat) : TargetObj := mkObj [] None.

(** The target cache that [objectAndPromise] hands over, and the next run
    of the same script up to the end of its first activation. *)
Definition regionalCache : NewTargetCache :=
  [("web", ("web.js",
            [CachedObj [("name", VStr "x"); ("size", VNum 1);
                        ("region", VStr "eu")];
             CachedPromise 0]))].

Definition declareAgain : list Label :=
  [LDeclare regionalHook (ArgObj 0); LDeclare regionalHook (ArgPromise 0);
   LScript (inr tt); LSettle 0 (inr 1%nat); LSecrets] ++ activation.

(** A second provider, whose [pull] reports a time to live, and a script
    that passes one and the same object to both providers. *)
Definition dns : DeployPlugin :=
  mkPlugin "dns" (Some (fun _ => inr (Some [("ttl", VNum 60)])))
    (fun t => inr (getProp (VObj t) "name"))
    (fun t => inr (Some (undo ("spawn " +:+ nameOf t))))
    None
    (fun t => inr (Some (undo ("kill " +:+ nameOf t)))).

Definition dnsHook : DeployHookRef := mkHook "dns.js" dns.

Definition sharedEnv : Env :=
  mkEnv false "" nameHash [regional; dns] (fun _ => inl "no such plugin")
    (inr tt).

Definition bothStore : Files :=
  mkFiles false [("web", mkPluginState "web.js" []);
                 ("dns", mkPluginState "dns.js" [])] [] [].

Definition sharedObject : list Label :=
  [LDeclare regionalHook (ArgObj 0); LDeclare dnsHook (ArgObj 0);
   LScript (inr tt); LSecrets]
  ++ activation ++ [LTask 0; LMicrotask] ++ activation
  ++ [LTask 0; LMain; LMain].

Definition sharedAgain : list Label :=
  [LDeclare regionalHook (ArgObj 0); LDeclare dnsHook (ArgObj 0);
   LScript (inr tt); LSecrets] ++ activation ++ [LTask 0].

End Ex.

(** A provider whose actions hand back no revert function: the script
    declares [x], which is new, and [y] is no longer declared. *)
Module Bare.

Definition bare : DeployPlugin :=
  mkPlugin "web" None
    (fun t => inr (getProp (VObj t) "name"))
    (fun _ => inr None)
    None
    (fun _ => inr None).

Definition bareHook : DeployHookRef := mkHook "web.js" bare.

Definition bareEnv (dry : bool) : Env :=
  mkEnv dry "" Ex.nameHash [bare] (fun _ => inl "no such plugin") (inr tt).

Definition spawnThenKill : list Label :=
  [LDeclare bareHook (ArgObj 0); LScript (inr tt); LSecrets] ++ Ex.activation
  ++ [LMain; LMain].

End Bare.

(** * Properties *)

(** ** The diff *)

Lemma Value_ind' (P : Value -> Prop)
    (Hundef : P VUndef) (Hnull : P VNull) (Hbool : forall b, P (VBool b))
    (Hnum : forall n, P (VNum n)) (Hstr : forall x, P (VStr x))
    (Harr : forall items, Forall P items -> P (VArr items))
    (Hobj : forall props, Forall (fun kv => P kv.2) props -> P (VObj props)) :
  forall v, P v.
Proof.
  fix IH 1. intros [| | b | n | x | items | props].
  - exact Hundef.
  - exact Hnull.
  - exact (Hbool b).
  - exact (Hnum n).
  - exact (Hstr x).
  - apply Harr. induction items as [|v items IHl]; constructor.
    + exact (IH v).
    + exact IHl.
  - apply Hobj. induction props as [|[k v] props IHl]; constructor.
    + exact (IH v).
    + exact IHl.
Qed.

(** [diffObjects] is its two loops, one after the other. *)
Lemma diffObjects_loops oldValues values :
  diffObjects oldValues values =
  fold_left (diffGone values) (fields oldValues)
    (fold_left (diffEntry oldValues) (fields values) (false, [])).
Proof.
  destruct values as [| | b | n | x | items | props]; try reflexivity.
  - cbn [diffObjects fields]. f_equal.
    generalize (false, @nil (string * Change)) as st. generalize 0%nat as i.
    induction items as [|v items IH]; intros i st; [reflexivity|].
    cbn [indexed fold_left]. rewrite <- IH. reflexivity.
  - cbn [diffObjects fields]. f_equal.
    generalize (false, @nil (string * Change)) as st.
    induction props as [|[k v] props IH]; intros st; [reflexivity|].
    cbn [fold_left]. rewrite <- IH. reflexivity.
Qed.

(** Two arrays are two objects for [isPlainObject], so the [Array.isArray]
    branch of [diff] is never taken. *)
Lemma isArray_isPlainObject a b :
  isArray a && isArray b = true -> isPlainObject a && isPlainObject b = true.
Proof. destruct a, b; simpl; congruence. Qed.

Lemma diffEntry_differs oldValues st kv :
  (diffEntry oldValues st kv).1 =
  st.1 || negb (agree (getProp oldValues kv.1) kv.2).
Proof.
  unfold diffEntry, agree, diffLeaf.
  destruct (isPlainObject (getProp oldValues kv.1) && isPlainObject kv.2) eqn:Hp.
  - simpl. by rewrite negb_involutive.
  - destruct (isArray (getProp oldValues kv.1) && isArray kv.2) eqn:Ha.
    + apply isArray_isPlainObject in Ha. congruence.
    + destruct (strictEq _ _); simpl; by rewrite ?orb_true_r, ?orb_false_r.
Qed.

Lemma diffGone_differs values st kv :
  (diffGone values st kv).1 =
  st.1 || (negb (hasProp values kv.1) && negb (strictEq kv.2 VUndef)).
Proof.
  unfold diffGone, diffLeaf.
  destruct (hasProp values kv.1); simpl; [by rewrite orb_false_r|].
  destruct (strictEq _ _); simpl; by rewrite ?orb_true_r, ?orb_false_r.
Qed.

Lemma fold_diffEntry_differs oldValues l st :
  (fold_left (diffEntry oldValues) l st).1 =
  st.1 || existsb (fun kv => negb (agree (getProp oldValues kv.1) kv.2)) l.
Proof.
  revert st. induction l as [|kv l IH]; intros st; simpl.
  - by rewrite orb_false_r.
  - rewrite IH, diffEntry_differs. by rewrite orb_assoc.
Qed.

Lemma fold_diffGone_differs values l st :
  (fold_left (diffGone values) l st).1 =
  st.1 || existsb (fun kv => negb (hasProp values kv.1)
                             && negb (strictEq kv.2 VUndef)) l.
Proof.
  revert st. induction l as [|kv l IH]; intros st; simpl.
  - by rewrite orb_false_r.
  - rewrite IH, diffGone_differs. by rewrite orb_assoc.
Qed.

(** [differs] is false exactly when no property of either side disagrees. *)
Lemma diffObjects_false oldValues values :
  (diffObjects oldValues values).1 = false <->
  (forall kv, In kv (fields values) ->
              agree (getProp oldValues kv.1) kv.2 = true) /\
  (forall kv, In kv (fields oldValues) ->
              hasProp values kv.1 = false -> strictEq kv.2 VUndef = true).
Proof.
  rewrite diffObjects_loops, fold_diffGone_differs, fold_diffEntry_differs.
  simpl. rewrite orb_false_iff.
  rewrite <- !not_true_iff_false, !existsb_exists. split.
  - intros [H1 H2]. split.
    + intros kv Hin. destruct (agree _ _) eqn:E; [done|].
      destruct H1. exists kv. by rewrite E.
    + intros kv Hin Hhas. destruct (strictEq _ _) eqn:E; [done|].
      destruct H2. exists kv. by rewrite Hhas, E.
  - intros [H1 H2]. split.
    + intros (kv & Hin & Hx). rewrite (H1 kv Hin) in Hx. done.
    + intros (kv & Hin & Hx). apply andb_true_iff in Hx as [Hh Hs].
      apply negb_true_iff in Hh. rewrite (H2 kv Hin Hh) in Hs. done.
Qed.

(** *** Association lists *)

Lemma assoc_In {A} key (l : list (string * A)) v :
  assoc key l = Some v -> In (key, v) l.
Proof.
  induction l as [|[k w] l IH]; simpl; [done|].
  destruct (String.eqb k key) eqn:E.
  - apply String.eqb_eq in E. intros [= ->]. left. by subst.
  - intros H. right. auto.
Qed.

Lemma assoc_None {A} key (l : list (string * A)) :
  assoc key l = None -> forall v, ~ In (key, v) l.
Proof.
  induction l as [|[k w] l IH]; simpl; [tauto|].
  destruct (String.eqb k key) eqn:E; [done|].
  intros H v [[= -> ->]|Hin].
  - by rewrite String.eqb_refl in E.
  - by apply (IH H v).
Qed.

Lemma existsb_key_false {A} key (l : list (string * A)) :
  existsb (fun kv => String.eqb kv.1 key) l = false -> assoc key l = None.
Proof.
  induction l as [|[k w] l IH]; simpl; [done|].
  intros [-> H]%orb_false_iff. auto.
Qed.

Lemma nodupKeys_assoc {A} (l : list (string * A)) key v :
  nodupKeys l = true -> In (key, v) l -> assoc key l = Some v.
Proof.
  induction l as [|[k w] l IH]; simpl; [done|].
  intros [Hk Hl]%andb_true_iff [[= -> ->]|Hin].
  - by rewrite String.eqb_refl.
  - destruct (String.eqb k key) eqn:E; [|auto].
    apply String.eqb_eq in E. subst k.
    apply negb_true_iff, existsb_key_false in Hk.
    by destruct (assoc_None _ _ Hk v).
Qed.

Lemma indexed_In i items kv :
  In kv (indexed i items) ->
  exists j, kv.1 = pretty (i + j)%nat /\ items !! j = Some kv.2.
Proof.
  revert i. induction items as [|v items IH]; intros i; simpl; [done|].
  intros [<-|Hin].
  - exists 0%nat. by rewrite Nat.add_0_r.
  - destruct (IH _ Hin) as (j & Hk & Hv). exists (S j).
    by rewrite <- Nat.add_succ_comm.
Qed.

Lemma indexed_nodupKeys i items : nodupKeys (indexed i items) = true.
Proof.
  revert i. induction items as [|v items IH]; intros i; simpl; [done|].
  rewrite IH, andb_true_r. apply negb_true_iff, not_true_iff_false.
  intros (kv & Hin & Heq)%existsb_exists. apply String.eqb_eq in Heq.
  destruct (indexed_In _ _ _ Hin) as (j & Hk & _). rewrite Hk in Heq.
  apply (inj pretty) in Heq. lia.
Qed.

Lemma wfValue_fields v :
  wfValue v = true ->
  nodupKeys (fields v) = true /\
  forall kv, In kv (fields v) -> wfValue kv.2 = true.
Proof.
  destruct v as [| | b | n | x | items | props]; simpl; try (split; [done|tauto]).
  - intros H. split; [apply indexed_nodupKeys|].
    intros kv (j & _ & Hj)%indexed_In.
    rewrite forallb_forall in H. apply H.
    apply list_elem_of_In, list_elem_of_lookup. eauto.
  - intros [Hk Hall]%andb_true_iff. split; [done|].
    clear Hk. induction props as [|[k w] props IH]; simpl; [tauto|].
    apply andb_true_iff in Hall as [Hw Hall].
    intros kv [<-|Hin]; auto.
Qed.

Lemma wfValue_getProp v key : wfValue v = true -> wfValue (getProp v key) = true.
Proof.
  intros [_ H]%wfValue_fields. unfold getProp.
  destruct (assoc key (fields v)) as [w|] eqn:E; [|done].
  apply assoc_In in E. apply (H _ E).
Qed.

Lemma hasProp_getProp v kv :
  nodupKeys (fields v) = true -> In kv (fields v) ->
  getProp v kv.1 = kv.2 /\ hasProp v kv.1 = true.
Proof.
  intros Hn Hin. destruct kv as [k w]. unfold getProp, hasProp. simpl.
  by rewrite (nodupKeys_assoc _ _ _ Hn Hin).
Qed.

Lemma hasProp_false v key : hasProp v key = false -> getProp v key = VUndef.
Proof. unfold hasProp, getProp. by destruct (assoc key (fields v)). Qed.

Lemma hasProp_true v key :
  hasProp v key = true -> In (key, getProp v key) (fields v).
Proof.
  unfold hasProp, getProp. destruct (assoc key (fields v)) eqn:E; [|done].
  intros _. by apply assoc_In.
Qed.

Lemma strictEq_eq a b :
  strictEq a b = true -> a = b /\ isPlainObject a = false.
Proof.
  destruct a, b; simpl; try done.
  - intros ->%Bool.eqb_prop. done.
  - intros ->%Z.eqb_eq. done.
  - intros ->%String.eqb_eq. done.
Qed.

Lemma strictEq_refl a : isPlainObject a = false -> strictEq a a = true.
Proof.
  destruct a; simpl; try done; intros _.
  - by destruct b.
  - apply Z.eqb_refl.
  - apply String.eqb_refl.
Qed.

Lemma fields_values_In v kv (P : Value -> Prop) :
  match v with
  | VArr items => Forall P items
  | VObj props => Forall (fun kv => P kv.2) props
  | _ => True
  end ->
  In kv (fields v) -> P kv.2.
Proof.
  destruct v as [| | b | n | x | items | props]; simpl; try tauto.
  - intros H (j & _ & Hj)%indexed_In.
    rewrite Forall_forall in H. apply H.
    apply list_elem_of_lookup. eauto.
  - intros H Hin. rewrite Forall_forall in H.
    apply (H kv). by apply list_elem_of_In.
Qed.

(** *** Agreement *)

Lemma agree_sameData_composite values oldValues :
  isPlainObject values = true ->
  wfValue values = true -> wfValue oldValues = true ->
  (forall kv, In kv (fields values) ->
     forall o, wfValue o = true -> agree o kv.2 = true <-> sameData o kv.2) ->
  agree oldValues values = true <-> sameData oldValues values.
Proof.
  intros Hp Hwf Hwfo Hrec.
  destruct (wfValue_fields _ Hwf) as [Hn Hsub].
  destruct (wfValue_fields _ Hwfo) as [Hno Hsubo].
  destruct (isPlainObject oldValues) eqn:Hpo.
  2: { unfold agree. rewrite Hpo. simpl. split.
       - intros [-> H]%strictEq_eq. congruence.
       - inversion 1; subst; congruence. }
  unfold agree. rewrite Hpo, Hp. simpl.
  rewrite negb_true_iff, diffObjects_false. split.
  - intros [H1 H2]. apply same_props; [done..|]. intros key.
    destruct (hasProp values key) eqn:Hh.
    + apply hasProp_true in Hh. specialize (H1 _ Hh). simpl in H1.
      apply (Hrec _ Hh); [by apply wfValue_getProp | exact H1].
    + rewrite (hasProp_false _ _ Hh). destruct (hasProp oldValues key) eqn:Hho.
      * apply hasProp_true in Hho. specialize (H2 _ Hho Hh). simpl in H2.
        apply strictEq_eq in H2 as [-> _]. by constructor.
      * rewrite (hasProp_false _ _ Hho). by constructor.
  - intros Hs. inversion Hs as [a Ha|a b Ha Hb Hk]; subst; [congruence|].
    split.
    + intros kv Hin. destruct (hasProp_getProp values kv Hn Hin) as [Hg _].
      apply (Hrec kv Hin); [by apply wfValue_getProp|].
      specialize (Hk kv.1). by rewrite Hg in Hk.
    + intros kv Hin Hh.
      destruct (hasProp_getProp oldValues kv Hno Hin) as [Hg _].
      specialize (Hk kv.1). rewrite (hasProp_false _ _ Hh), Hg in Hk.
      inversion Hk; subst; [by apply strictEq_refl|done].
Qed.

(** [diff] finds no change exactly when the two values agree on every
    property read. *)
Lemma agree_sameData values :
  forall oldValues,
    wfValue values = true -> wfValue oldValues = true ->
    (agree oldValues values = true <-> sameData oldValues values).
Proof.
  induction values as [| | b | n | x | items IH | props IH] using Value_ind';
    intros old Hwf Hwfo;
    try (unfold agree; rewrite andb_false_r; split;
         [ intros [-> Hp]%strictEq_eq; by constructor
         | inversion 1; subst; [by apply strictEq_refl | done] ]).
  - apply agree_sameData_composite; [done..|].
    intros kv Hin o Hwo.
    destruct (wfValue_fields _ Hwf) as [_ Hsub].
    apply (fields_values_In (VArr items) kv
             (fun v => forall o, wfValue v = true -> wfValue o = true ->
                                 agree o v = true <-> sameData o v)); auto.
  - apply agree_sameData_composite; [done..|].
    intros kv Hin o Hwo.
    destruct (wfValue_fields _ Hwf) as [_ Hsub].
    apply (fields_values_In (VObj props) kv
             (fun v => forall o, wfValue v = true -> wfValue o = true ->
                                 agree o v = true <-> sameData o v)); auto.
Qed.

(** *** Deep equality implies agreement *)

Lemma indexed_assoc_Forall2 (P : Value -> Value -> Prop) la lb :
  Forall2 P la lb ->
  forall i key,
    match assoc key (indexed i la), assoc key (indexed i lb) with
    | Some va, Some vb => P va vb
    | None, None => True
    | _, _ => False
    end.
Proof.
  induction 1 as [|va vb la lb Hv Hl IH]; intros i key; simpl; [done|].
  destruct (String.eqb (pretty i) key); [done|]. apply IH.
Qed.

Lemma deepEqual_sameData a :
  forall b, deepEqual a b = true -> sameData a b.
Proof.
  induction a as [| | x | n | y | items IH | props IH] using Value_ind';
    intros b Hd;
    try (destruct b; simpl in Hd; try done;
         try (first [apply Bool.eqb_prop in Hd | apply Z.eqb_eq in Hd
                    | apply String.eqb_eq in Hd]; subst);
         by constructor).
  - destruct b as [| | | | | items' |]; try done. simpl in Hd.
    assert (Hall : Forall2 sameData items items').
    { revert items' Hd. induction IH as [|va la Hva Hla IHl];
        intros [|vb lb] Hd; try done; try by constructor.
      apply andb_true_iff in Hd as [H1 H2]. constructor; auto. }
    apply same_props; [done..|]. intros key. unfold getProp. simpl.
    pose proof (indexed_assoc_Forall2 _ _ _ Hall 0%nat key) as H.
    destruct (assoc key (indexed 0 items)), (assoc key (indexed 0 items'));
      simpl; try done. by constructor.
  - destruct b as [| | | | | | props']; try done. simpl in Hd.
    apply andb_true_iff in Hd as [H1 H2].
    apply same_props; [done..|]. intros key. unfold getProp. simpl.
    destruct (assoc key props) as [va|] eqn:Ea.
    + apply assoc_In in Ea. clear H2. simpl.
      induction IH as [|[k w] l Hw Hl IHl]; [done|].
      destruct (assoc k props') as [vb|] eqn:Eb; [|done].
      apply andb_true_iff in H1 as [Hd1 Hd2].
      destruct Ea as [[= -> ->]|Hin].
      * rewrite Eb. simpl. by apply Hw.
      * by apply IHl.
    + destruct (assoc key props') as [vb|] eqn:Eb; simpl; [|by constructor].
      apply assoc_In in Eb. rewrite forallb_forall in H2.
      specialize (H2 _ Eb). unfold hasProp in H2. simpl in H2.
      by rewrite Ea in H2.
Qed.

(** *** The ChangeSet *)

Lemma assoc_assocSet {A} key key' (v : A) l :
  assoc key' (assocSet key v l) =
  if String.eqb key key' then Some v else assoc key' l.
Proof.
  induction l as [|[k w] l IH]; simpl.
  - done.
  - destruct (String.eqb k key) eqn:E; simpl.
    + apply String.eqb_eq in E. subst k.
      by destruct (String.eqb key key').
    + rewrite IH. destruct (String.eqb k key') eqn:E'; [|done].
      apply String.eqb_eq in E'. subst k. by rewrite String.eqb_sym, E.
Qed.

Lemma diffEntry_changed oldValues st kv :
  (diffEntry oldValues st kv).2 =
  match changeOf oldValues kv with
  | Some c => assocSet kv.1 c st.2
  | None => st.2
  end.
Proof.
  unfold diffEntry, changeOf, diffLeaf.
  destruct (isPlainObject (getProp oldValues kv.1) && isPlainObject kv.2) eqn:Hp;
    [done|].
  destruct (isArray (getProp oldValues kv.1) && isArray kv.2) eqn:Ha.
  - apply isArray_isPlainObject in Ha. congruence.
  - by destruct (strictEq _ _).
Qed.

Lemma fold_diffEntry_changed oldValues l key :
  nodupKeys l = true ->
  forall st,
    assoc key (fold_left (diffEntry oldValues) l st).2 =
    match assoc key l with
    | Some v =>
        match changeOf oldValues (key, v) with
        | Some c => Some c
        | None => assoc key st.2
        end
    | None => assoc key st.2
    end.
Proof.
  induction l as [|[k v] l IH]; intros Hn st; simpl; [done|].
  simpl in Hn. apply andb_true_iff in Hn as [Hk Hn].
  rewrite (IH Hn), diffEntry_changed. simpl.
  destruct (String.eqb k key) eqn:E.
  - apply String.eqb_eq in E. subst k.
    apply negb_true_iff, existsb_key_false in Hk. rewrite Hk.
    destruct (changeOf oldValues (key, v)); [|done].
    by rewrite assoc_assocSet, String.eqb_refl.
  - destruct (changeOf oldValues (k, v)); [|done].
    by rewrite assoc_assocSet, E.
Qed.

Lemma fold_diffGone_changed values l key :
  nodupKeys l = true ->
  forall st,
    assoc key (fold_left (diffGone values) l st).2 =
    match assoc key l with
    | Some v =>
        if negb (hasProp values key) && negb (strictEq v VUndef)
        then Some CTrue else assoc key st.2
    | None => assoc key st.2
    end.
Proof.
  induction l as [|[k v] l IH]; intros Hn st; simpl; [done|].
  simpl in Hn. apply andb_true_iff in Hn as [Hk Hn].
  rewrite (IH Hn). unfold diffGone, diffLeaf. simpl.
  destruct (String.eqb k key) eqn:E.
  - apply String.eqb_eq in E. subst k.
    apply negb_true_iff, existsb_key_false in Hk. rewrite Hk.
    destruct (hasProp values key); simpl; [done|].
    destruct (strictEq v VUndef); simpl; [done|].
    by rewrite assoc_assocSet, String.eqb_refl.
  - destruct (hasProp values k); simpl; [done|].
    destruct (strictEq v VUndef); simpl; [done|].
    by rewrite assoc_assocSet, E.
Qed.

(** The ChangeSet, key by key. *)
Lemma diffObjects_entry oldValues values key :
  wfValue oldValues = true -> wfValue values = true ->
  assoc key (diffObjects oldValues values).2 = entryFor oldValues values key.
Proof.
  intros [Hno _]%wfValue_fields [Hn _]%wfValue_fields.
  rewrite diffObjects_loops, (fold_diffGone_changed _ _ _ Hno),
    (fold_diffEntry_changed _ _ _ Hn).
  unfold entryFor, changeOf, hasProp, getProp. simpl.
  destruct (assoc key (fields values)) as [v|] eqn:Ev; simpl.
  - destruct (assoc key (fields oldValues)) as [ov|]; simpl.
    + destruct (isPlainObject ov && isPlainObject v); [done|].
      by destruct (strictEq ov v).
    + by destruct v.
  - destruct (assoc key (fields oldValues)) as [ov|]; simpl; [|done].
    rewrite andb_false_r. by destruct (strictEq ov VUndef).
Qed.

Lemma hasTrue_existsb c : hasTrue c = existsb (fun kv => marksChange kv.2) c.
Proof.
  unfold hasTrue. simpl. induction c as [|[k ch] c IH]; simpl; [done|].
  by rewrite IH.
Qed.

Lemma hasTrue_assoc c :
  nodupKeys c = true ->
  hasTrue c = true <->
  exists key ch, assoc key c = Some ch /\ marksChange ch = true.
Proof.
  intros Hn. rewrite hasTrue_existsb, existsb_exists. split.
  - intros ([k ch] & Hin & Hm). exists k, ch. split; [|done].
    by apply nodupKeys_assoc.
  - intros (k & ch & Ha & Hm). exists (k, ch). split; [|done].
    by apply assoc_In.
Qed.

Lemma existsb_key_assocSet {A} key key' (v : A) l :
  existsb (fun kv => String.eqb kv.1 key') (assocSet key v l) =
  String.eqb key key' || existsb (fun kv => String.eqb kv.1 key') l.
Proof.
  induction l as [|[k w] l IH]; simpl; [done|].
  destruct (String.eqb k key) eqn:E; simpl.
  - apply String.eqb_eq in E. subst k.
    by destruct (String.eqb key key').
  - rewrite IH. by destruct (String.eqb k key'), (String.eqb key key').
Qed.

Lemma nodupKeys_assocSet {A} key (v : A) l :
  nodupKeys l = true -> nodupKeys (assocSet key v l) = true.
Proof.
  induction l as [|[k w] l IH]; simpl; [done|].
  intros [Hk Hl]%andb_true_iff.
  destruct (String.eqb k key) eqn:E; simpl.
  - by rewrite Hk, Hl.
  - rewrite (IH Hl), andb_true_r, existsb_key_assocSet.
    apply negb_true_iff in Hk. rewrite Hk, orb_false_r.
    by rewrite String.eqb_sym, E.
Qed.

Lemma diffObjects_nodupKeys oldValues values :
  nodupKeys (diffObjects oldValues values).2 = true.
Proof.
  rewrite diffObjects_loops.
  assert (H1 : forall l st, nodupKeys st.2 = true ->
             nodupKeys (fold_left (diffEntry oldValues) l st).2 = true).
  { induction l as [|kv l IH]; intros st Hst; simpl; [done|].
    apply IH. rewrite diffEntry_changed.
    destruct (changeOf oldValues kv); [|done]. by apply nodupKeys_assocSet. }
  assert (H2 : forall l st, nodupKeys st.2 = true ->
             nodupKeys (fold_left (diffGone values) l st).2 = true).
  { induction l as [|kv l IH]; intros st Hst; simpl; [done|].
    apply IH. unfold diffGone, diffLeaf.
    destruct (negb (hasProp values kv.1)); [|done].
    destruct (negb (strictEq kv.2 VUndef)); [|done].
    by apply nodupKeys_assocSet. }
  apply H2, H1. done.
Qed.

Lemma diffObjects_differs oldValues values :
  (diffObjects oldValues values).1 =
  existsb (fun kv => negb (agree (getProp oldValues kv.1) kv.2))
          (fields values)
  || existsb (fun kv => negb (hasProp values kv.1)
                        && negb (strictEq kv.2 VUndef)) (fields oldValues).
Proof.
  by rewrite diffObjects_loops, fold_diffGone_differs, fold_diffEntry_differs.
Qed.

Lemma hasTrue_differs_step values old :
  wfValue values = true -> wfValue old = true ->
  (forall kv, In kv (fields values) ->
     forall o, wfValue o = true ->
       hasTrue (diffObjects o kv.2).2 = (diffObjects o kv.2).1) ->
  hasTrue (diffObjects old values).2 = (diffObjects old values).1.
Proof.
  intros Hwf Hwfo Hrec.
  destruct (wfValue_fields _ Hwf) as [Hn Hsub].
  destruct (wfValue_fields _ Hwfo) as [Hno Hsubo].
  apply eq_true_iff_eq.
  rewrite (hasTrue_assoc _ (diffObjects_nodupKeys old values)).
  rewrite diffObjects_differs, orb_true_iff, !existsb_exists. split.
  - intros (key & ch & Ha & Hm).
    rewrite (diffObjects_entry _ _ _ Hwfo Hwf) in Ha. unfold entryFor in Ha.
    destruct (hasProp values key) eqn:Hh; simpl in Ha.
    + left. exists (key, getProp values key). split; [by apply hasProp_true|].
      simpl. unfold agree.
      destruct (isPlainObject (getProp old key)
                && isPlainObject (getProp values key)).
      * injection Ha as <-. rewrite negb_involutive.
        rewrite <- (Hrec _ (hasProp_true _ _ Hh)) by (by apply wfValue_getProp).
        exact Hm.
      * by destruct (strictEq _ _).
    + right. destruct (hasProp old key) eqn:Hho; [|done].
      exists (key, getProp old key). split; [by apply hasProp_true|].
      simpl. rewrite Hh. simpl.
      rewrite (hasProp_false _ _ Hh), andb_false_r in Ha.
      by destruct (strictEq _ _).
  - intros [(kv & Hin & Hx)|(kv & Hin & Hx)].
    + destruct (hasProp_getProp values kv Hn Hin) as [Hg Hh].
      exists kv.1. unfold agree in Hx.
      rewrite (diffObjects_entry _ _ _ Hwfo Hwf). unfold entryFor.
      rewrite Hh, Hg. simpl.
      destruct (isPlainObject (getProp old kv.1) && isPlainObject kv.2).
      * eexists. split; [done|]. rewrite negb_involutive in Hx.
        change (hasTrue (diffObjects (getProp old kv.1) kv.2).2 = true).
        by rewrite (Hrec _ Hin) by (by apply wfValue_getProp).
      * apply negb_true_iff in Hx. rewrite Hx. by eexists.
    + apply andb_true_iff in Hx as [Hh Hs].
      apply negb_true_iff in Hh. apply negb_true_iff in Hs.
      destruct (hasProp_getProp old kv Hno Hin) as [Hg Hho].
      exists kv.1, CTrue. split; [|done].
      rewrite (diffObjects_entry _ _ _ Hwfo Hwf). unfold entryFor.
      rewrite Hh, Hho, (hasProp_false _ _ Hh), Hg, andb_false_r. simpl.
      by rewrite Hs.
Qed.

(** A ChangeSet marks a leaf exactly when [differs] is true. *)
Lemma hasTrue_differs values :
  forall oldValues,
    wfValue values = true -> wfValue oldValues = true ->
    hasTrue (diffObjects oldValues values).2 = (diffObjects oldValues values).1.
Proof.
  induction values as [| | b | n | x | items IH | props IH] using Value_ind';
    intros old Hwf Hwfo; apply hasTrue_differs_step; try done.
  - intros kv Hin o Hwo.
    destruct (wfValue_fields _ Hwf) as [_ Hsub].
    apply (fields_values_In (VArr items) kv
             (fun w => forall o, wfValue w = true -> wfValue o = true ->
                hasTrue (diffObjects o w).2 = (diffObjects o w).1)); auto.
  - intros kv Hin o Hwo.
    destruct (wfValue_fields _ Hwf) as [_ Hsub].
    apply (fields_values_In (VObj props) kv
             (fun w => forall o, wfValue w = true -> wfValue o = true ->
                hasTrue (diffObjects o w).2 = (diffObjects o w).1)); auto.
Qed.

(** ** Runs *)

#[global] Arguments diffObjects : simpl never.

Lemma exec_app env s ls1 ls2 :
  exec env s (ls1 ++ ls2) =
  match exec env s ls1 with
  | Some s' => exec env s' ls2
  | None => None
  end.
Proof.
  revert s. induction ls1 as [|l ls1 IH]; intros s; simpl; [done|].
  destruct (step env s l); auto.
Qed.

(** Whatever holds at the start and survives every step holds throughout. *)
Lemma exec_invariant env (P : State -> Prop) :
  (forall s l s', P s -> step env s l = Some s' -> P s') ->
  forall ls s s', P s -> exec env s ls = Some s' -> P s'.
Proof.
  intros Hstep. induction ls as [|l ls IH]; intros s s' Hs; simpl.
  - by intros [= <-].
  - destruct (step env s l) as [s1|] eqn:E; [|done]. eauto.
Qed.

(** *** The assignments of each piece of [deploy]

    Each piece is a chain of assignments whose values carry the branching;
    this is the form the invariants below are checked on. *)

Lemma addRevertFn_assign env revert p action s :
  addRevertFn env revert p action s =
  set_trace (match revert with
             | Some _ => trace s
             | None => if negb (dryRun env)
                       then EvWarn (name p) action :: trace s else trace s
             end)
    (set_revertFns (match revert with
                    | Some f => revertFns s ++ [f]
                    | None => revertFns s
                    end) s).
Proof. destruct s, revert; simpl; [done|]. by destruct (negb _). Qed.

Lemma finishTask_assign index s :
  finishTask index s =
  let head := (index =? targetIndex s)%nat in
  let more := (S (targetIndex s) <? length (declared s))%nat in
  set_deploying (if head && negb more
                 then match deploying s with
                      | DPending => DResolved
                      | d => d
                      end
                 else deploying s)
    (set_microtasks (if head && more then S (microtasks s) else microtasks s)
       (set_targetIndex (if head then S (targetIndex s) else targetIndex s)
          (set_trace (EvEnd index (inr tt) :: trace s) s))).
Proof.
  destruct s. unfold finishTask. simpl.
  destruct (index =? _)%nat; simpl; [|done].
  destruct (S _ <? _)%nat; simpl; [done|]. by destruct deploying0.
Qed.

Lemma rejectTask_assign index e s :
  rejectTask index e s =
  set_deploying (match deploying s with
                 | DPending => DRejected e
                 | d => d
                 end)
    (set_trace (EvEnd index (inl e) :: trace s) s).
Proof. destruct s. unfold rejectTask. simpl. by destruct deploying0. Qed.

Lemma addTargetCtx_assign h arg s :
  addTargetCtx h arg s =
  let index := length (declared s) in
  let first := (index =? 0)%nat in
  let head := negb first && (index =? targetIndex s)%nat in
  set_tasks (if head then tasks s ++ [mkTask (targetIndex s) h arg TTarget]
             else tasks s)
    (set_trace (if head then EvStart (targetIndex s) :: trace s else trace s)
       (set_activePlugin (if head then Some (name (plugin h))
                          else activePlugin s)
          (set_secretsPending (if first then true else secretsPending s)
             (set_declared (declared s ++ [(h, arg)]) s)))).
Proof.
  destruct s. unfold addTargetCtx, startTask. simpl.
  destruct (length _ =? 0)%nat; simpl; [done|].
  by destruct (length _ =? _)%nat.
Qed.

Lemma persist_assign env s :
  persist env s =
  let c := newTargetCache s in
  set_main (if dryRun env then MDone (inr tt) else MPushing)
    (set_trace ((if dryRun env then EvDebugFile c else EvSetData c)
                :: EvLockDelete :: trace s)
       (set_files
          (mkFiles false (targetsYaml (files s))
             (if dryRun env then targetsWrites (files s)
              else targetsWrites (files s) ++ [c])
             (if dryRun env then debugWrites (files s) ++ [c]
              else debugWrites (files s))) s)).
Proof. destruct s. unfold persist. simpl. by destruct (dryRun env). Qed.

Lemma revertLoop_assign e i s :
  revertLoop e i s =
  let next := revertFns s !! i in
  set_main (match next with
            | Some _ => MReverting e i
            | None => MDone (inl e)
            end)
    (set_trace (match next with
                | Some f => EvRevert f :: trace s
                | None => EvLockDelete :: trace s
                end)
       (set_files (mkFiles (match next with
                            | Some _ => lockExists (files s)
                            | None => false
                            end)
                     (targetsYaml (files s)) (targetsWrites (files s))
                     (debugWrites (files s))) s)).
Proof.
  destruct s as [[] ?]. unfold revertLoop. simpl. by destruct (_ !! _).
Qed.

Lemma catchMain_assign env e s :
  catchMain env e s =
  let sweep := match activePlugin s with
               | Some _ => negb (dryRun env)
               | None => false
               end in
  let fns := if sweep then rev (revertFns s) else revertFns s in
  let next := if sweep then fns !! 0%nat else None in
  set_main (match activePlugin s, next with
            | None, _ => MDone (inl "TypeError: Cannot read properties of null")
            | Some _, Some _ => MReverting e 0
            | Some _, None => MDone (inl e)
            end)
    (set_trace (match next with
                | Some f => EvRevert f
                | None => EvLockDelete
                end :: EvError e (activePlugin s) :: trace s)
       (set_files (mkFiles (match next with
                            | Some _ => lockExists (files s)
                            | None => false
                            end)
                     (targetsYaml (files s)) (targetsWrites (files s))
                     (debugWrites (files s)))
          (set_revertFns fns s))).
Proof.
  destruct s as [[] ?]. unfold catchMain, revertLoop. simpl.
  destruct activePlugin0; simpl; [|done].
  destruct (dryRun env); simpl; [done|]. by destruct (rev _ !! _).
Qed.

Lemma fold_emit (f : nat -> Event) l s :
  fold_left (fun s j => emit (f j) s) l s =
  set_trace (rev (map f l) ++ trace s) s.
Proof.
  revert s. induction l as [|j l IH]; intros s; simpl.
  - by destruct s.
  - rewrite IH. destruct s. unfold emit, set_trace. simpl.
    by rewrite <- app_assoc.
Qed.

Lemma findSavedStart_assign env t s :
  (findSavedStart env t s).1 = set_trace (identifyEvents t s ++ trace s) s.
Proof.
  unfold findSavedStart, identifyEvents.
  destruct (assoc _ _); simpl; [|by destruct s].
  destruct (hasName _ _); simpl; [by destruct s|].
  apply fold_emit.
Qed.

(** Case analysis of one step, down to the pieces above. *)
Ltac break_hyp H :=
  repeat match type of H with
         | Some _ = Some _ => injection H as H
         | (_, _) = (_, _) => let H' := fresh in injection H as H H'; subst
         | None = Some _ => discriminate H
         | context [match ?x with _ => _ end] =>
             let E := fresh "E" in destruct x eqn:E
         | context [if ?x then _ else _] =>
             let E := fresh "E" in destruct x eqn:E
         | context [let '(_, _) := ?x in _] =>
             let E := fresh "E" in destruct x eqn:E
         end.

Ltac step_cases H :=
  match type of H with
  | step _ _ ?l = Some _ => destruct l
  end;
  unfold step, declare, settle, scriptDone, secretsLoaded, runMicrotask,
    runTask, mainStep in H;
  break_hyp H;
  repeat match goal with
         | E : taskStep _ _ _ = Some _ |- _ =>
             unfold taskStep, reconcile, callIdentify in E; break_hyp E
         | E : killLoop _ _ _ _ = Some _ |- _ =>
             unfold killLoop in E; break_hyp E
         | E : findSavedStart ?env ?t ?x = (?s0, _) |- _ =>
             let Hx := fresh in
             pose proof (findSavedStart_assign env t x) as Hx;
             rewrite E in Hx; simpl in Hx; subst s0;
             apply (f_equal snd) in E; simpl in E
         end;
  subst.

Ltac assign :=
  rewrite ?addRevertFn_assign, ?finishTask_assign, ?rejectTask_assign,
    ?addTargetCtx_assign, ?persist_assign, ?revertLoop_assign,
    ?catchMain_assign;
  unfold leave, finally, startTask, emit; simpl.

(** *** The lock file *)

Lemma lockInv_step env s l s' :
  lockInv s -> step env s l = Some s' -> lockInv s'.
Proof.
  unfold lockInv. intros Hinv Hstep. step_cases Hstep.
  all: assign.
  all: repeat case_match; simpl in *; try congruence.
Qed.

(** *** The declaration queue *)

Lemma evBelow_mono n m tr :
  n <= m -> Forall (evBelow n) tr -> Forall (evBelow m) tr.
Proof.
  intros Hle H. eapply Forall_impl; [exact H|]. intros ev. unfold evBelow.
  destruct (evIndex ev); [lia|done].
Qed.

Lemma identifyEvents_below t s n :
  taskIndex t < n -> Forall (evBelow n) (identifyEvents t s).
Proof.
  intros Hlt. unfold identifyEvents.
  destruct (assoc _ _); [|constructor].
  destruct (hasName _ _); [constructor|].
  apply Forall_forall. intros ev Hin.
  apply list_elem_of_In, in_rev, in_map_iff in Hin as (j & <- & _).
  exact Hlt.
Qed.

Lemma identifyEvents_ordered t s tr :
  Forall (evBelow (S (taskIndex t))) tr -> ordered tr ->
  ordered (identifyEvents t s ++ tr).
Proof.
  intros Htr Ho. pose proof (identifyEvents_below t s (S (taskIndex t))) as Hb.
  specialize (Hb ltac:(lia)).
  assert (Hall : Forall (fun ev => exists a b,
                    ev = EvIdentifySaved (taskIndex t) a b) (identifyEvents t s)).
  { unfold identifyEvents. destruct (assoc _ _); [|constructor].
    destruct (hasName _ _); [constructor|].
    apply Forall_forall. intros ev Hin.
    apply list_elem_of_In, in_rev, in_map_iff in Hin as (j & <- & _). eauto. }
  induction Hall as [|ev evs (a & b & ->) Hevs IH]; simpl; [done|].
  inversion Hb; subst. split; [|by apply IH].
  apply Forall_app. split; [done|exact Htr].
Qed.

Lemma grows_split P tr tr' :
  grows P tr tr' -> exists evs, tr' = evs ++ tr /\ Forall P evs.
Proof.
  induction 1 as [|ev tr' Hev _ (evs & -> & Hevs)|evs0 tr' H0 _ (evs & -> & Hevs)].
  - by exists [].
  - exists (ev :: evs). split; [done|by constructor].
  - exists (evs0 ++ evs). split; [by rewrite app_assoc|by apply Forall_app].
Qed.

Lemma grows_In P tr tr' ev : grows P tr tr' -> In ev tr -> In ev tr'.
Proof.
  intros (evs & -> & _)%grows_split Hin. apply in_or_app. by right.
Qed.

Lemma evAt_below i n ev : i < n -> evAt i ev -> evBelow n ev.
Proof.
  unfold evAt, evBelow. destruct ev; simpl; try done; try (intros ? ->; lia).
  destruct index; [intros ? ->; lia|done].
Qed.

Lemma grows_below i n tr tr' :
  i < n -> grows (evAt i) tr tr' ->
  Forall (evBelow n) tr -> Forall (evBelow n) tr'.
Proof.
  intros Hlt (evs & -> & Hevs)%grows_split Htr. apply Forall_app. split; [|done].
  eapply Forall_impl; [exact Hevs|]. intros ev. by apply evAt_below.
Qed.

Lemma grows_ordered i tr tr' :
  grows (evAt i) tr tr' ->
  Forall (evBelow (S i)) tr -> ordered tr -> ordered tr'.
Proof.
  intros (evs & -> & Hevs)%grows_split Htr Ho.
  induction Hevs as [|ev evs Hev Hevs IH]; simpl; [done|].
  split; [|done].
  assert (Hall : Forall (evBelow (S i)) (evs ++ tr)).
  { apply Forall_app. split; [|done].
    eapply Forall_impl; [exact Hevs|]. intros ev'. apply evAt_below. lia. }
  unfold evAt in Hev. destruct ev; simpl in *; try done; subst; try done.
  destruct index; [by subst|done].
Qed.

Lemma identifyEvents_at t s : Forall (evAt (taskIndex t)) (identifyEvents t s).
Proof.
  unfold identifyEvents. destruct (assoc _ _); [|constructor].
  destruct (hasName _ _); [constructor|].
  apply Forall_forall. intros ev Hin.
  apply list_elem_of_In, in_rev, in_map_iff in Hin as (j & <- & _). done.
Qed.

(** The one activation in flight. *)
Lemma queueInv_task s n t :
  queueInv s -> tasks s !! n = Some t ->
  tasks s = [t] /\ n = 0%nat /\ microtasks s = 0%nat
  /\ secretsPending s = false /\ taskIndex t = targetIndex s
  /\ declared s !! targetIndex s = Some (taskHook t, taskArg t)
  /\ targetIndex s < length (declared s).
Proof.
  intros Hq Ht. pose proof (q_one s Hq) as H1.
  destruct (tasks s) as [|t0 [|t1 ts]] eqn:Ets; simpl in H1; try done; [|lia].
  destruct n; simpl in Ht; [|done]. injection Ht as ->.
  destruct (q_task s Hq t) as [Hi Hd]; [rewrite Ets; by left|].
  split_and!; try done; try lia.
  - destruct (secretsPending s); [lia|done].
  - by apply lookup_lt_Some in Hd.
Qed.

(** An activation goes on to its next [await]. *)
Lemma queueInv_call s s' t pc :
  queueInv s -> tasks s = [t] ->
  tasks s' = [mkTask (taskIndex t) (taskHook t) (taskArg t) pc] ->
  microtasks s' = microtasks s -> secretsPending s' = secretsPending s ->
  targetIndex s' = targetIndex s -> declared s' = declared s ->
  deploying s' = deploying s -> main s' = main s ->
  updatedTargets s' = updatedTargets s -> addedTargets s' = addedTargets s ->
  grows (evAt (targetIndex s)) (trace s) (trace s') ->
  queueInv s'.
Proof.
  intros Hq Ht Ht' Hm Hs Hi Hd Hdep Hmain Hu Ha Htr.
  pose proof (q_one s Hq) as H1. rewrite Ht in H1.
  destruct (q_task s Hq t) as [Hti Hdt]; [rewrite Ht; by left|].
  constructor; rewrite ?Ht', ?Hm, ?Hs, ?Hi, ?Hd, ?Hdep, ?Hmain, ?Hu, ?Ha.
  - exact H1.
  - intros t0 [<-|[]]. simpl. done.
  - apply Hq.
  - apply Hq.
  - apply Hq.
  - eapply grows_below; [|exact Htr|apply Hq]. lia.
  - done.
  - intros j Hj. eapply grows_In; [exact Htr|]. by apply Hq.
  - eapply grows_ordered; [exact Htr|apply Hq..].
  - intros Hr. destruct (q_resolved s Hq Hr) as [Hn _]. congruence.
  - apply Hq.
  - intros e Hr. destruct (q_rejected s Hq e Hr) as [Hn _]. congruence.
  - apply Hq.
Qed.

(** An activation ends without moving the cursor: it threw, or it found its
    target unchanged. *)
Lemma queueInv_stuck s s' t :
  queueInv s -> tasks s = [t] ->
  tasks s' = [] ->
  microtasks s' = microtasks s -> secretsPending s' = secretsPending s ->
  targetIndex s' = targetIndex s -> declared s' = declared s ->
  (deploying s' = deploying s \/
   deploying s <> DUndefined /\ exists e, deploying s' = DRejected e) ->
  main s' = main s ->
  updatedTargets s' = updatedTargets s -> addedTargets s' = addedTargets s ->
  grows (evAt (targetIndex s)) (trace s) (trace s') ->
  queueInv s'.
Proof.
  intros Hq Ht Ht' Hm Hs Hi Hd Hdep Hmain Hu Ha Htr.
  destruct (queueInv_task s 0%nat t Hq) as (_ & _ & Hm0 & Hs0 & _ & _ & Hlt);
    [by rewrite Ht|].
  constructor; rewrite ?Ht', ?Hm, ?Hs, ?Hi, ?Hd, ?Hmain, ?Hu, ?Ha.
  - rewrite Hm0, Hs0. simpl. lia.
  - intros t0 [].
  - apply Hq.
  - apply Hq.
  - apply Hq.
  - eapply grows_below; [|exact Htr|apply Hq]. lia.
  - rewrite Hm0, Hs0. intros _ [?|[?|?]]; [lia|done|lia].
  - intros j Hj. eapply grows_In; [exact Htr|]. by apply Hq.
  - eapply grows_ordered; [exact Htr|apply Hq..].
  - intros Hr. destruct Hdep as [Hdep|[_ [e Hdep]]]; [|congruence].
    rewrite Hdep in Hr. destruct (q_resolved s Hq Hr) as [Hn _]. congruence.
  - intros Hl. destruct Hdep as [Hdep|[Hne _]].
    + rewrite Hdep. by apply Hq.
    + destruct Hne. by apply Hq.
  - intros e He. rewrite Hm0, Hs0. done.
  - pose proof (q_phase s Hq) as Hp.
    assert (Hnr : deploying s <> DResolved).
    { intros Hr. destruct (q_resolved s Hq Hr) as [Hn _]. congruence. }
    by destruct (main s) as [| | | | |[]].
Qed.

(** An activation returns from the end of [addTarget]: the cursor moves. *)
Lemma queueInv_finish s s' t tr :
  queueInv s -> tasks s = [t] ->
  let more := (S (targetIndex s) <? length (declared s))%nat in
  tasks s' = [] ->
  microtasks s' = (if more then S (microtasks s) else microtasks s) ->
  secretsPending s' = secretsPending s ->
  targetIndex s' = S (targetIndex s) -> declared s' = declared s ->
  deploying s' = (if negb more
                  then match deploying s with
                       | DPending => DResolved
                       | d => d
                       end
                  else deploying s) ->
  main s' = main s ->
  updatedTargets s' ++ addedTargets s' <> [] ->
  trace s' = EvEnd (targetIndex s) (inr tt) :: tr ->
  grows (evAt (targetIndex s)) (trace s) tr ->
  queueInv s'.
Proof.
  intros Hq Ht more Ht' Hm Hs Hi Hd Hdep Hmain Hu Htr Hg.
  destruct (queueInv_task s 0%nat t Hq) as (_ & _ & Hm0 & Hs0 & _ & _ & Hlt);
    [by rewrite Ht|].
  assert (Hmore : more = true <-> S (targetIndex s) < length (declared s))
    by apply Nat.ltb_lt.
  assert (Hall : Forall (evBelow (S (targetIndex s))) (trace s')).
  { rewrite Htr. constructor; [unfold evBelow; simpl; lia|].
    eapply grows_below; [|exact Hg|apply Hq]. lia. }
  assert (Hnr : deploying s <> DResolved).
  { intros Hr. destruct (q_resolved s Hq Hr) as [Hn _]. congruence. }
  constructor; rewrite ?Ht', ?Hs, ?Hi, ?Hd, ?Hmain.
  - rewrite Hm, Hm0, Hs0. destruct more; simpl; lia.
  - intros t0 [].
  - lia.
  - rewrite Hm, Hm0. destruct more; [intros _; by apply Hmore|lia].
  - by rewrite Hs0.
  - eapply evBelow_mono; [|exact Hall]. lia.
  - done.
  - intros j Hj. rewrite Htr. destruct (decide (j = targetIndex s)) as [->|Hne].
    + by left.
    + right. eapply grows_In; [exact Hg|]. apply Hq. lia.
  - rewrite Htr. simpl. split.
    + eapply grows_below; [|exact Hg|apply Hq]. lia.
    + eapply grows_ordered; [exact Hg|apply Hq..].
  - rewrite Hdep, Hm, Hm0. intros Hr. destruct more eqn:Em; simpl in Hr; [done|].
    split_and!; try done.
    assert (~ S (targetIndex s) < length (declared s)) by (rewrite <- Hmore; congruence).
    lia.
  - rewrite Hdep. intros Hl. pose proof (q_load s Hq Hl) as Hu0.
    rewrite Hu0. by destruct (negb more).
  - rewrite Hdep. intros e He.
    assert (Hr : deploying s = DRejected e)
      by (destruct (negb more), (deploying s); congruence).
    destruct (q_rejected s Hq e Hr) as [Hn _]. congruence.
  - pose proof (q_phase s Hq) as Hp.
    by destruct (main s) as [| | | | |[]].
Qed.

Lemma grows_impl (P Q : Event -> Prop) tr tr' :
  (forall ev, P ev -> Q ev) -> grows P tr tr' -> grows Q tr tr'.
Proof.
  intros HPQ. induction 1; [constructor|constructor; auto|].
  apply grows_app; [|done]. eapply Forall_impl; eauto.
Qed.

Lemma evNone_at i ev : evIndex ev = None -> evAt i ev.
Proof. unfold evAt. destruct ev; simpl; try done. by intros ->. Qed.

(** [deploy] itself goes on, or a promise of the script settles. *)
Lemma queueInv_main s s' :
  queueInv s ->
  tasks s' = tasks s -> microtasks s' = microtasks s ->
  secretsPending s' = secretsPending s ->
  targetIndex s' = targetIndex s -> declared s' = declared s ->
  updatedTargets s' = updatedTargets s -> addedTargets s' = addedTargets s ->
  (main s' = MLoad -> main s = MLoad) ->
  (deploying s' = deploying s \/
   deploying s = DUndefined /\ deploying s' = DPending /\ main s' <> MLoad) ->
  match main s' with
  | MKilling _ _ _ _ | MPushing | MDone (inr _) => deploying s = DResolved
  | _ => True
  end ->
  grows (fun ev => evIndex ev = None) (trace s) (trace s') ->
  queueInv s'.
Proof.
  intros Hq Ht Hm Hs Hi Hd Hu Ha Hmain Hdep Hph Hg.
  assert (Hg' : grows (evAt (targetIndex s)) (trace s) (trace s'))
    by (eapply grows_impl; [apply evNone_at|exact Hg]).
  constructor; rewrite ?Ht, ?Hm, ?Hs, ?Hi, ?Hd, ?Hu, ?Ha.
  - apply Hq.
  - apply Hq.
  - apply Hq.
  - apply Hq.
  - apply Hq.
  - eapply grows_below; [|exact Hg'|apply Hq]. lia.
  - intros H1 H2.
    destruct (grows_split _ _ _ Hg) as (evs & -> & Hevs).
    apply Forall_app. split; [|by apply Hq].
    eapply Forall_impl; [exact Hevs|]. intros ev Hev.
    unfold evBelow. by rewrite Hev.
  - intros j Hj. eapply grows_In; [exact Hg'|]. by apply Hq.
  - eapply grows_ordered; [exact Hg'|apply Hq..].
  - intros Hr. destruct Hdep as [Hdep|(_ & Hdep & _)]; [|congruence].
    rewrite Hdep in Hr. by apply Hq.
  - intros Hl. destruct Hdep as [Hdep|(_ & _ & Hne)]; [|done].
    rewrite Hdep. apply Hq. auto.
  - intros e He. destruct Hdep as [Hdep|(_ & Hdep & _)]; [|congruence].
    rewrite Hdep in He. by apply Hq in He.
  - destruct Hdep as [Hdep|(Hu0 & Hdep & _)].
    + rewrite Hdep. exact Hph.
    + rewrite Hu0 in Hph. by destruct (main s') as [| | | | |[]].
Qed.

(** An activation of [addTarget] is entered for the declaration under the
    cursor, which no event mentions yet. *)
Lemma queueInv_start s s' h arg :
  queueInv s -> tasks s = [] ->
  1 <= microtasks s \/ secretsPending s = true
  \/ targetIndex s = length (declared s) ->
  tasks s' = [mkTask (targetIndex s) h arg TTarget] ->
  microtasks s' = 0%nat -> secretsPending s' = false ->
  targetIndex s' = targetIndex s ->
  declared s' !! targetIndex s = Some (h, arg) ->
  length (declared s) <= length (declared s') ->
  deploying s' = deploying s -> main s' = main s ->
  deploying s <> DResolved ->
  trace s' = EvStart (targetIndex s) :: trace s ->
  queueInv s'.
Proof.
  intros Hq Ht Hwhy Ht' Hm Hs Hi Hd Hlen Hdep Hmain Hnr Htr.
  pose proof (q_fresh s Hq Ht Hwhy) as Hf.
  constructor; rewrite ?Ht', ?Hm, ?Hs, ?Hi, ?Hdep, ?Hmain, ?Htr.
  - simpl. lia.
  - intros t0 [<-|[]]. simpl. done.
  - apply lookup_lt_Some in Hd. lia.
  - lia.
  - done.
  - constructor; [unfold evBelow; simpl; lia|].
    eapply evBelow_mono; [|exact Hf]. lia.
  - done.
  - intros j Hj. right. by apply Hq.
  - simpl. split_and!; [done| |apply Hq]. intros j Hj. by apply Hq.
  - done.
  - apply Hq.
  - intros e He. destruct (q_rejected s Hq e He) as (_ & ? & ? & ?).
    destruct Hwhy as [?|[?|?]]; [lia|congruence|lia].
  - pose proof (q_phase s Hq) as Hp.
    by destruct (main s) as [| | | | |[]].
Qed.

(** Nothing is in flight while the cursor is at the end of the queue. *)
Lemma queueInv_idle s :
  queueInv s -> targetIndex s = length (declared s) ->
  tasks s = [] /\ microtasks s = 0%nat.
Proof.
  intros Hq Hi. split.
  - destruct (tasks s) as [|t ts] eqn:Ets; [done|].
    destruct (q_task s Hq t) as [_ Hd]; [rewrite Ets; by left|].
    apply lookup_lt_Some in Hd. lia.
  - pose proof (q_micro s Hq). lia.
Qed.

(** [context.addTarget] while the deploy file is loading. *)
Lemma queueInv_declare s h arg :
  queueInv s -> main s = MLoad -> queueInv (addTargetCtx h arg s).
Proof.
  intros Hq Hl. pose proof (q_load s Hq Hl) as Hu.
  pose proof (q_cursor s Hq) as Hc.
  destruct (decide (targetIndex s = length (declared s))) as [Hi|Hi].
  - destruct (queueInv_idle s Hq Hi) as [Ht Hm].
    destruct (decide (length (declared s) = 0%nat)) as [El|El].
    + (* the first declaration waits for the secrets *)
      assert (Hs : secretsPending s = false).
      { destruct (secretsPending s) eqn:Es; [|done].
        destruct (q_secrets s Hq Es). lia. }
      rewrite addTargetCtx_assign, El. simpl.
      constructor; simpl; rewrite ?Ht, ?Hm, ?length_app; simpl;
        try done; try lia; try apply Hq.
      * intros _ _. apply Hq; auto.
      * intros Hr. congruence.
      * intros e He. congruence.
    + (* the cursor is here: the activation starts *)
      assert (Hs : secretsPending s = false).
      { destruct (secretsPending s) eqn:Es; [|done].
        destruct (q_secrets s Hq Es). lia. }
      assert (Hf : (length (declared s) =? 0)%nat = false)
        by (apply Nat.eqb_neq; lia).
      assert (Hh : (length (declared s) =? targetIndex s)%nat = true)
        by (apply Nat.eqb_eq; lia).
      rewrite addTargetCtx_assign. cbv zeta. rewrite Hf, Hh. simpl.
      eapply (queueInv_start s _ h arg); simpl;
        rewrite ?Ht, ?Hm, ?Hs; try done; auto.
      * rewrite Hi. by apply list_lookup_middle.
      * rewrite length_app. simpl. lia.
      * congruence.
  - (* the cursor is behind: the declaration is parked *)
    assert (Hf : (length (declared s) =? 0)%nat = false) by (apply Nat.eqb_neq; lia).
    assert (Hh : (length (declared s) =? targetIndex s)%nat = false)
      by (apply Nat.eqb_neq; lia).
    rewrite addTargetCtx_assign. cbv zeta. rewrite Hf, Hh. simpl.
    constructor; simpl; try apply Hq.
    + intros t Hin. destruct (q_task s Hq t Hin) as [Hti Hd]. split; [done|].
      by apply lookup_app_l_Some.
    + rewrite length_app. simpl. lia.
    + rewrite length_app. simpl. intros Hm. pose proof (q_micro s Hq Hm). lia.
    + rewrite length_app. simpl. intros Hs.
      destruct (q_secrets s Hq Hs). lia.
    + rewrite length_app. simpl. intros Ht [Hm|[Hs|Hx]]; [| |lia].
      * apply Hq; auto.
      * apply Hq; auto.
    + intros Hr. congruence.
    + intros e He. congruence.
Qed.

Ltac grow :=
  repeat first
    [ apply grows_refl
    | apply grows_cons; [simpl; try done|]
    | apply grows_app; [apply identifyEvents_at|] ].

Lemma queueInv_step env s l s' :
  queueInv s -> step env s l = Some s' -> queueInv s'.
Proof.
  intros Hq Hstep. step_cases Hstep.
  all: try done.
  all: try match goal with
       | E : tasks ?s !! _ = Some ?t |- _ =>
           destruct (queueInv_task s _ t Hq E)
             as (Hts & -> & Hm0 & Hs0 & Hti & Hdt & Hlt)
       end.
  all: assign.
  (* deploy itself, or a promise *)
  all: try solve
        [ eapply queueInv_main; [exact Hq|simpl; try done..];
          pose proof (q_phase s Hq) as Hp;
          repeat case_match; simplify_eq; try done; try (left; done);
          grow; done ].
  (* an activation goes on *)
  all: try (eapply (queueInv_call _ _ t);
            [exact Hq|exact Hts|simpl; rewrite Hts; reflexivity
            |simpl; done..|];
            simpl; rewrite <- Hti; repeat case_match; grow; done).
  (* an activation ends where it is *)
  all: try (eapply (queueInv_stuck _ _ t);
            [exact Hq|exact Hts|simpl; rewrite Hts; reflexivity
            |simpl; try done..];
            [ first [ left; done
                    | destruct (deploying s);
                      [by left|right; split; [done|eauto]|by left..] ]
            | simpl; rewrite <- Hti; repeat case_match; grow; done ]).
  (* an activation returns and the cursor moves *)
  all: try (eapply (queueInv_finish _ _ t);
            [exact Hq|exact Hts|simpl; rewrite ?Hts, ?Hti, ?Nat.eqb_refl; simpl..];
            [reflexivity..| |reflexivity| ];
            [ by destruct (updatedTargets s), (addedTargets s)
            | rewrite <- Hti; repeat case_match; grow; done ]).
  - (* a declaration *)
    rewrite <- addTargetCtx_assign. by apply queueInv_declare.
  - (* the deploy file has loaded *)
    eapply queueInv_main; [exact Hq|simpl; try done..]; [|apply grows_refl].
    right. split_and!; try done. by apply Hq.
  - (* the secrets are loaded: the first declaration is dispatched *)
    destruct (q_secrets s Hq E) as [Hi Hlen].
    pose proof (q_one s Hq) as H1. rewrite E in H1.
    assert (Ht : tasks s = []) by (destruct (tasks s); [done|simpl in H1; lia]).
    eapply (queueInv_start s _ d t); simpl; rewrite ?Ht, ?Hi; try done; auto.
    + lia.
    + intros Hr. destruct (q_resolved s Hq Hr) as (_ & _ & Hs & _). congruence.
  - destruct (q_secrets s Hq E) as [Hi _].
    match goal with H : _ = false |- _ => by rewrite Hi in H end.
  - (* the microtask dispatches the next declaration *)
    pose proof (q_one s Hq) as H1. rewrite E in H1.
    assert (Ht : tasks s = []) by (destruct (tasks s); [done|simpl in H1; lia]).
    assert (n = 0%nat) as -> by lia.
    eapply (queueInv_start s _ d t); simpl; rewrite ?Ht; try done.
    + left. lia.
    + destruct (secretsPending s); [simpl in H1; lia|done].
    + intros Hr. destruct (q_resolved s Hq Hr) as (_ & Hm & _). congruence.
  - pose proof (q_micro s Hq) as Hm. rewrite E in Hm.
    simpl in E0. apply lookup_ge_None in E0. lia.
Qed.

Lemma start_state env f objects npromises s :
  start env f objects npromises = inr s ->
  s = mkState (mkFiles true (targetsYaml f) (targetsWrites f) (debugWrites f))
        objects (replicate npromises Pending) (targetsYaml f)
        [] [] DUndefined None [] [] [] [] 0 false 0 [] MLoad [] /\
  (dryRun env = false -> gitStatus env = "" /\ lockExists f = false).
Proof.
  unfold start. destruct (dryRun env); simpl.
  - by intros [= <-].
  - destruct (String.eqb (gitStatus env) "") eqn:Eg; simpl; [|done].
    apply String.eqb_eq in Eg. destruct (lockExists f); [done|].
    by intros [= <-].
Qed.

Lemma start_queueInv env f objects npromises s :
  start env f objects npromises = inr s -> queueInv s.
Proof.
  intros [-> _]%start_state. constructor; simpl; try done; try lia.
  all: intros; lia.
Qed.

(** Every state of a run satisfies the queue invariant. *)
Lemma run_queueInv env f objects npromises ls s :
  run env f objects npromises ls = inr (Some s) -> queueInv s.
Proof.
  unfold run. destruct (start _ _ _ _) as [|s0] eqn:E; [done|].
  intros [= Hx]. eapply (exec_invariant env queueInv); [|by eapply start_queueInv|exact Hx].
  intros. by eapply queueInv_step.
Qed.

(** *** Unchanged targets *)

Lemma grows_Forall (P Q : Event -> Prop) tr tr' :
  (forall ev, P ev -> Q ev) ->
  grows P tr tr' -> Forall Q tr -> Forall Q tr'.
Proof.
  intros HPQ (evs & -> & Hevs)%grows_split Htr. apply Forall_app. split; [|done].
  eapply Forall_impl; eauto.
Qed.

Lemma grows_In_inv P tr tr' ev :
  grows P tr tr' -> In ev tr' -> In ev tr \/ P ev.
Proof.
  intros (evs & -> & Hevs)%grows_split [Hin|Hin]%in_app_or; [|by left].
  right. rewrite Forall_forall in Hevs. apply Hevs. by apply list_elem_of_In.
Qed.

Lemma identifyEvents_Forall (P : Event -> Prop) t s :
  (forall i a b, P (EvIdentifySaved i a b)) -> Forall P (identifyEvents t s).
Proof.
  intros HP. unfold identifyEvents. destruct (assoc _ _); [|constructor].
  destruct (hasName _ _); [constructor|].
  apply Forall_forall. intros ev Hin.
  apply list_elem_of_In, in_rev, in_map_iff in Hin as (j & <- & _). apply HP.
Qed.

Ltac grow_with :=
  repeat first
    [ apply grows_refl
    | apply grows_cons; [simpl; try done|]
    | apply grows_app; [apply identifyEvents_Forall; done|] ].

Lemma evBelow_noDiffAction i ev : evBelow i ev -> noDiffAction i ev.
Proof.
  unfold evBelow, noDiffAction. destruct ev; simpl; try done; try lia.
  destruct index; [lia|done].
Qed.

Lemma noDiffAction_noUnchanged i ev : noDiffAction i ev -> noUnchanged i ev.
Proof. destruct ev; simpl; try done. by destruct differs. Qed.

Lemma noDiffAction_noAction i ev : noDiffAction i ev -> noAction i ev.
Proof. by destruct ev. Qed.

(** While something is in flight or queued, no declaration has been found
    unchanged. *)
Lemma diffInv_busy s i c :
  diffInv s ->
  tasks s <> [] \/ 1 <= microtasks s \/ secretsPending s = true
  \/ targetIndex s = length (declared s) ->
  ~ In (EvDiff i false c) (trace s).
Proof.
  intros Hd Hbusy Hin.
  destruct (d_stalled s Hd i c Hin) as (Hi & Ht & Hm & Hs & Hlt & _).
  destruct Hbusy as [?|[?|[?|?]]]; [done|lia|congruence|lia].
Qed.

Lemma diffInv_call s s' t pc :
  diffInv s -> tasks s = [t] ->
  tasks s' = [mkTask (taskIndex t) (taskHook t) (taskArg t) pc] ->
  (beforeDiff pc = true -> beforeDiff (taskPc t) = true) ->
  grows (fun ev => notUnchanged ev /\
                   (beforeDiff pc = true -> noDiffAction (taskIndex t) ev))
        (trace s) (trace s') ->
  diffInv s'.
Proof.
  intros Hd Ht Ht' Hpc Hg. constructor.
  - rewrite Ht'. intros t0 [<-|[]]. simpl.
    pose proof (d_pc s Hd t) as Hold. rewrite Ht in Hold.
    specialize (Hold ltac:(by left)).
    destruct (beforeDiff pc) eqn:Epc.
    + rewrite (Hpc eq_refl) in Hold.
      eapply grows_Forall; [|exact Hg|exact Hold]. intros ev [_ H]. auto.
    + assert (Hold' : Forall (noUnchanged (taskIndex t)) (trace s)).
      { destruct (beforeDiff (taskPc t)); [|done].
        eapply Forall_impl; [exact Hold|]. apply noDiffAction_noUnchanged. }
      eapply grows_Forall; [|exact Hg|exact Hold'].
      intros ev [H _]. destruct ev; try done. by destruct differs.
  - intros i c Hin.
    destruct (grows_In_inv _ _ _ _ Hg Hin) as [Hold|[Hnew _]]; [|done].
    destruct (diffInv_busy s i c Hd); [|done]. left. by rewrite Ht.
Qed.

Lemma diffInv_end s s' t :
  diffInv s -> tasks s = [t] -> tasks s' = [] ->
  grows notUnchanged (trace s) (trace s') ->
  diffInv s'.
Proof.
  intros Hd Ht Ht' Hg. constructor.
  - rewrite Ht'. intros t0 [].
  - intros i c Hin.
    destruct (grows_In_inv _ _ _ _ Hg Hin) as [Hold|Hnew]; [|done].
    destruct (diffInv_busy s i c Hd); [|done]. left. by rewrite Ht.
Qed.

Lemma diffInv_unchanged s s' t c :
  queueInv s -> diffInv s -> tasks s = [t] ->
  beforeDiff (taskPc t) = true ->
  tasks s' = [] ->
  microtasks s' = microtasks s -> secretsPending s' = secretsPending s ->
  targetIndex s' = targetIndex s -> declared s' = declared s ->
  deploying s' = deploying s ->
  trace s' = EvEnd (taskIndex t) (inr tt)
             :: EvDiff (taskIndex t) false c :: trace s ->
  diffInv s'.
Proof.
  intros Hq Hd Ht Hpc Ht' Hm Hs Hi Hdec Hdep Htr.
  destruct (queueInv_task s 0%nat t Hq) as (_ & _ & Hm0 & Hs0 & Hti & _ & Hlt);
    [by rewrite Ht|].
  pose proof (d_pc s Hd t) as Hold. rewrite Ht, Hpc in Hold.
  specialize (Hold ltac:(by left)).
  constructor.
  - rewrite Ht'. intros t0 [].
  - intros i c' Hin. rewrite Htr in Hin.
    destruct Hin as [?|[[= <- <-]|Hin]]; [done| |].
    + unfold stalledAt. rewrite Ht', Hm, Hs, Hi, Hdec, Hdep, Htr, Hti.
      split_and!; try done.
      * intros Hr. destruct (q_resolved s Hq Hr) as [Hn _]. congruence.
      * intros e Hr. destruct (q_rejected s Hq e Hr) as [Hn _]. congruence.
      * constructor; [done|]. constructor; [done|]. rewrite <- Hti.
        eapply Forall_impl; [exact Hold|]. apply noDiffAction_noAction.
    + destruct (diffInv_busy s i c' Hd); [|done]. left. by rewrite Ht.
Qed.

Lemma diffInv_main s s' :
  diffInv s ->
  tasks s' = tasks s -> microtasks s' = microtasks s ->
  secretsPending s' = secretsPending s ->
  targetIndex s' = targetIndex s -> declared s' = declared s ->
  (deploying s' = deploying s \/ deploying s' = DPending) ->
  grows (fun ev => evIndex ev = None) (trace s) (trace s') ->
  diffInv s'.
Proof.
  intros Hd Ht Hm Hs Hi Hdec Hdep Hg. constructor.
  - rewrite Ht. intros t Hin. pose proof (d_pc s Hd t Hin) as Hold.
    destruct (beforeDiff (taskPc t));
      (eapply grows_Forall; [|exact Hg|exact Hold]);
      intros ev Hev; destruct ev; simpl in *; try done; by subst.
  - intros i c Hin.
    destruct (grows_In_inv _ _ _ _ Hg Hin) as [Hold|Hnew]; [|done].
    destruct (d_stalled s Hd i c Hold) as (H1 & H2 & H3 & H4 & H5 & H6 & H7 & H8).
    unfold stalledAt. rewrite Ht, Hm, Hs, Hi, Hdec. split_and!; try done.
    + destruct Hdep as [->| ->]; done.
    + destruct Hdep as [->| ->]; done.
    + eapply grows_Forall; [|exact Hg|exact H8].
      intros ev Hev. destruct ev; simpl in *; try done. by subst.
Qed.

Lemma diffInv_start s s' h arg :
  queueInv s -> diffInv s -> tasks s = [] ->
  1 <= microtasks s \/ secretsPending s = true
  \/ targetIndex s = length (declared s) ->
  tasks s' = [mkTask (targetIndex s) h arg TTarget] ->
  trace s' = EvStart (targetIndex s) :: trace s ->
  diffInv s'.
Proof.
  intros Hq Hd Ht Hwhy Ht' Htr.
  pose proof (q_fresh s Hq Ht Hwhy) as Hf. constructor.
  - rewrite Ht', Htr. intros t0 [<-|[]]. simpl. constructor; [done|].
    eapply Forall_impl; [exact Hf|]. apply evBelow_noDiffAction.
  - rewrite Htr. intros i c [?|Hin]; [done|].
    destruct (diffInv_busy s i c Hd); [|done]. by right.
Qed.

Lemma diffInv_declare s h arg :
  queueInv s -> diffInv s -> main s = MLoad -> diffInv (addTargetCtx h arg s).
Proof.
  intros Hq Hd Hl.
  destruct (decide (targetIndex s = length (declared s))) as [Hi|Hi].
  - destruct (queueInv_idle s Hq Hi) as [Ht Hm].
    assert (Hno : forall i c, ~ In (EvDiff i false c) (trace s)).
    { intros i c. apply diffInv_busy; auto. }
    destruct (decide (length (declared s) = 0%nat)) as [El|El].
    + rewrite addTargetCtx_assign, El. simpl. constructor; simpl.
      * rewrite Ht. intros t0 [].
      * intros i c Hin. by destruct (Hno i c).
    + assert (Hf : (length (declared s) =? 0)%nat = false)
        by (apply Nat.eqb_neq; lia).
      assert (Hh : (length (declared s) =? targetIndex s)%nat = true)
        by (apply Nat.eqb_eq; lia).
      rewrite addTargetCtx_assign. cbv zeta. rewrite Hf, Hh. simpl.
      eapply (diffInv_start s _ h arg); simpl; rewrite ?Ht; try done; auto.
  - pose proof (q_cursor s Hq) as Hc.
    assert (Hf : (length (declared s) =? 0)%nat = false) by (apply Nat.eqb_neq; lia).
    assert (Hh : (length (declared s) =? targetIndex s)%nat = false)
      by (apply Nat.eqb_neq; lia).
    rewrite addTargetCtx_assign. cbv zeta. rewrite Hf, Hh. simpl.
    constructor; simpl; [apply Hd|].
    intros i c Hin.
    destruct (d_stalled s Hd i c Hin) as (H1 & H2 & H3 & H4 & H5 & H6 & H7 & H8).
    unfold stalledAt. simpl. rewrite length_app. split_and!; try done. lia.
Qed.

Lemma diffInv_step env s l s' :
  queueInv s -> diffInv s -> step env s l = Some s' -> diffInv s'.
Proof.
  intros Hq Hd Hstep. step_cases Hstep.
  all: try done.
  all: try match goal with
       | E : tasks ?s !! _ = Some ?t |- _ =>
           destruct (queueInv_task s _ t Hq E)
             as (Hts & -> & Hm0 & Hs0 & Hti & Hdt & Hlt)
       end.
  all: assign.
  all: repeat match goal with
       | H : negb ?b = false |- _ => apply negb_false_iff in H; rewrite ?H
       | H : negb ?b = true |- _ => apply negb_true_iff in H; rewrite ?H
       end.
  all: try solve
        [ eapply diffInv_main; [exact Hd|simpl; try done..];
          repeat case_match; simplify_eq; try done; try (left; done);
          try (right; done); grow_with; done ].
  all: try solve
        [ eapply (diffInv_call _ _ t);
          [exact Hd|exact Hts|simpl; rewrite Hts; reflexivity
          |simpl; match goal with E : taskPc _ = _ |- _ => rewrite E end; done
          |simpl; repeat case_match; grow_with; done] ].
  all: try solve
        [ eapply (diffInv_end _ _ t);
          [exact Hd|exact Hts|simpl; rewrite Hts; reflexivity
          |simpl; repeat case_match; grow_with; done] ].
  all: try solve
        [ eapply (diffInv_unchanged _ _ t);
          [exact Hq|exact Hd|exact Hts
          |match goal with E : taskPc _ = _ |- _ => by rewrite E end
          |simpl; rewrite ?Hts; try reflexivity..] ].
  - rewrite <- addTargetCtx_assign. by apply diffInv_declare.
  - pose proof (q_one s Hq) as H1. rewrite E in H1.
    assert (Ht : tasks s = []) by (destruct (tasks s); [done|simpl in H1; lia]).
    destruct (q_secrets s Hq E) as [Hi Hlen].
    eapply (diffInv_start s _ d t); simpl; rewrite ?Ht, ?Hi; try done; auto.
  - destruct (q_secrets s Hq E) as [Hi _].
    match goal with H : _ = false |- _ => by rewrite Hi in H end.
  - pose proof (q_one s Hq) as H1. rewrite E in H1.
    assert (Ht : tasks s = []) by (destruct (tasks s); [done|simpl in H1; lia]).
    eapply (diffInv_start s _ d t); simpl; rewrite ?Ht; try done.
    left. lia.
  - pose proof (q_micro s Hq) as Hm. rewrite E in Hm.
    simpl in E0. apply lookup_ge_None in E0. lia.
Qed.

Lemma start_diffInv env f objects npromises s :
  start env f objects npromises = inr s -> diffInv s.
Proof.
  intros [-> _]%start_state. constructor; simpl; [intros t []|intros i c []].
Qed.

Lemma run_diffInv env f objects npromises ls s :
  run env f objects npromises ls = inr (Some s) -> queueInv s /\ diffInv s.
Proof.
  unfold run. destruct (start _ _ _ _) as [|s0] eqn:E; [done|].
  intros [= Hx].
  eapply (exec_invariant env (fun s => queueInv s /\ diffInv s)); [| |exact Hx].
  - intros s1 l s2 [Hq Hd] Hstep. split.
    + by eapply queueInv_step.
    + by eapply diffInv_step.
  - split; [by eapply start_queueInv|by eapply start_diffInv].
Qed.

(** *** The report of a run without actions *)

Lemma noReport_step env s l s' :
  queueInv s -> Forall (fun ev => ev <> EvNoAction) (trace s) ->
  step env s l = Some s' ->
  Forall (fun ev => ev <> EvNoAction) (trace s').
Proof.
  intros Hq Hinv Hstep.
  assert (Hg : grows (fun ev => ev <> EvNoAction) (trace s) (trace s'));
    [|eapply grows_Forall; [|exact Hg|exact Hinv]; auto].
  clear Hinv. step_cases Hstep.
  all: try done.
  all: assign.
  all: try solve [repeat case_match; grow_with; done].
  (* the branch [numChanged == 0]: [deploying] resolves only at the end of
     an activation that has just recorded an added or updated target *)
  destruct (q_resolved s Hq) as (_ & _ & _ & _ & Hne); [done|].
  match goal with H : (_ =? 0)%nat = true |- _ => apply Nat.eqb_eq in H end.
  destruct (updatedTargets s), (addedTargets s); simpl in *; try done; lia.
Qed.

Lemma run_noReport env f objects npromises ls s :
  run env f objects npromises ls = inr (Some s) ->
  Forall (fun ev => ev <> EvNoAction) (trace s).
Proof.
  unfold run. destruct (start _ _ _ _) as [|s0] eqn:E; [done|].
  intros [= Hx].
  eapply (exec_invariant env
            (fun s => queueInv s /\ Forall (fun ev => ev <> EvNoAction) (trace s)));
    [| |exact Hx].
  - intros s1 l s2 [Hq Hd] Hstep. split.
    + by eapply queueInv_step.
    + by eapply noReport_step.
  - split; [by eapply start_queueInv|].
    apply start_state in E as [-> _]. constructor.
Qed.


(** *** Dry runs *)

Lemma dryInv_step env f s l s' :
  dryRun env = true -> dryInv f s -> step env s l = Some s' -> dryInv f s'.
Proof.
  intros Hdry (Hw & Hy & Htr & Hm) Hstep. unfold dryInv.
  assert (Hg : grows noRollbackNoSave (trace s) (trace s')
               /\ targetsWrites (files s') = targetsWrites (files s)
               /\ targetsYaml (files s') = targetsYaml (files s)
               /\ match main s' with
                  | MReverting _ _ | MPushing => False
                  | _ => True
                  end).
  2: { destruct Hg as (Hg & -> & -> & Hm'). split_and!; try done.
       eapply grows_Forall; [|exact Hg|exact Htr]. auto. }
  clear Hw Hy Htr. step_cases Hstep.
  all: try done.
  all: assign.
  all: rewrite ?Hdry; simpl.
  all: try solve [repeat case_match; simplify_eq; split_and!; try done;
                  grow_with; done].
Qed.

Lemma run_dryInv env f objects npromises ls s :
  dryRun env = true ->
  run env f objects npromises ls = inr (Some s) -> dryInv f s.
Proof.
  intros Hdry. unfold run. destruct (start _ _ _ _) as [|s0] eqn:E; [done|].
  intros [= Hx].
  eapply (exec_invariant env (dryInv f)); [| |exact Hx].
  - intros s1 l s2. by apply dryInv_step.
  - apply start_state in E as [-> _]. unfold dryInv. simpl.
    split_and!; done.
Qed.

(** *** The lock file *)

Lemma run_lockInv env f objects npromises ls s :
  run env f objects npromises ls = inr (Some s) -> lockInv s.
Proof.
  unfold run. destruct (start _ _ _ _) as [|s0] eqn:E; [done|].
  intros [= Hx].
  eapply (exec_invariant env lockInv); [| |exact Hx].
  - intros s1 l s2. by apply lockInv_step.
  - by apply start_state in E as [-> _].
Qed.

(** * The claims *)

(** ** Dry runs (C1) *)

(** C1, as the code has it: in a dry run the target store is never
    rewritten and no revert function is called, whatever the schedule; the
    capabilities themselves are not gated on the option. *)
Theorem dry_run_keeps_store env f objects npromises ls s :
  dryRun env = true ->
  run env f objects npromises ls = inr (Some s) ->
  targetsWrites (files s) = targetsWrites f
  /\ targetsYaml (files s) = targetsYaml f
  /\ Forall noRollbackNoSave (trace s).
Proof.
  intros Hdry Hrun.
  destruct (run_dryInv _ _ _ _ _ _ Hdry Hrun) as (H1 & H2 & H3 & _). done.
Qed.

Lemma dry_run_keeps_store_witness :
  exists s,
    run (Ex.envOf true "") (Ex.store [Ex.y1]) [Ex.x1] 0 Ex.spawnAndKill
    = inr (Some s)
    /\ targetsWrites (files s) = []
    /\ targetsYaml (files s) = targetsYaml (Ex.store [Ex.y1])
    /\ Forall noRollbackNoSave (trace s).
Proof.
  eexists. split; [vm_compute; reflexivity|].
  apply (dry_run_keeps_store (Ex.envOf true "") (Ex.store [Ex.y1]) [Ex.x1] 0
           Ex.spawnAndKill); [reflexivity|vm_compute; reflexivity].
Defined.

(** C1 as stated fails: a dry run calls [spawn] for a new target and [kill]
    for a target that is no longer declared. *)
Lemma dry_run_invokes_spawn_and_kill :
  dryRun (Ex.envOf true "") = true /\
  exists s,
    run (Ex.envOf true "") (Ex.store [Ex.y1]) [Ex.x1] 0 Ex.spawnAndKill
    = inr (Some s)
    /\ In (EvAction (Some 0%nat) Spawn "web" (props Ex.x1)
             (inr (Some (Ex.undo "spawn x")))) (trace s)
    /\ In (EvAction None Kill "web" (props Ex.y1)
             (inr (Some (Ex.undo "kill y")))) (trace s).
Proof.
  split; [reflexivity|]. eexists. split; [vm_compute; reflexivity|].
  simpl. split; auto 10.
Qed.

(** ** Declaration order (C4) *)



(** What [ordered] says of two events of a trace: the earlier one belongs to
    the same declaration or to an earlier one, and the entry into
    [addTarget] for a declaration comes after the return of every earlier
    declaration. *)
Lemma ordered_spec tr :
  ordered tr ->
  forall later ev earlier, tr = later ++ ev :: earlier ->
    forall j, evIndex ev = Some j ->
      Forall (evBelow (S j)) earlier /\
      (ev = EvStart j ->
       Forall (evBelow j) earlier /\
       forall i, i < j -> In (EvEnd i (inr tt)) earlier).
Proof.
  intros Ho later. revert tr Ho.
  induction later as [|ev0 later IH]; intros tr Ho ev earlier -> j Hj.
  - simpl in Ho. destruct Ho as [Hev _].
    destruct ev; simpl in *; simplify_eq; try (split; [exact Hev|done]).
    destruct Hev as [H1 H2]. split; [|done].
    eapply evBelow_mono; [|exact H1]. lia.
  - simpl in Ho. destruct Ho as [_ Ho]. by eapply IH.
Qed.

(** ** The diff (C5, C6) *)







(** ** Rollback errors (C3) *)

Lemma invoked_grows tr tr' :
  grows noRevert tr tr' -> invoked tr' = invoked tr.
Proof.
  intros (evs & -> & Hevs)%grows_split.
  induction Hevs as [|ev evs Hev _ IH]; [done|]. by destruct ev.
Qed.

(** Once [deploy] has returned or thrown, nothing calls a revert function. *)
Lemma done_step env s l s' r :
  main s = MDone r -> step env s l = Some s' ->
  main s' = MDone r /\ invoked (trace s') = invoked (trace s)
  /\ files s' = files s.
Proof.
  intros Hm Hstep.
  assert (H : main s' = MDone r /\ grows noRevert (trace s) (trace s')
              /\ files s' = files s);
    [|destruct H as (? & ?%invoked_grows & ?); done].
  step_cases Hstep.
  all: try congruence.
  all: assign.
  all: try solve [repeat case_match; simplify_eq; split_and!; try done;
                  grow_with; done].
Qed.

Lemma done_exec env ls s s' r :
  main s = MDone r -> exec env s ls = Some s' ->
  main s' = MDone r /\ invoked (trace s') = invoked (trace s)
  /\ files s' = files s.
Proof.
  revert s. induction ls as [|l ls IH]; intros s Hm; simpl.
  - by intros [= <-].
  - destruct (step env s l) as [s1|] eqn:E; [|done]. intros Hx.
    destruct (done_step _ _ _ _ _ Hm E) as (Hm1 & Hi1 & Hf1).
    destruct (IH _ Hm1 Hx) as (? & ? & ?). split_and!; congruence.
Qed.

(** C3, as the code has it: when the revert function that the sweep awaits
    throws, [deploy] leaves through [finally] with that error: the lock file
    is removed, the run rejects with the rollback error, and no further
    revert function is ever called. *)
Theorem rollback_error_ends_sweep env s e i fn e' :
  main s = MReverting e i ->
  revertFns s !! i = Some fn ->
  revertResult fn = inl e' ->
  exists s',
    step env s LMain = Some s'
    /\ main s' = MDone (inl e')
    /\ lockExists (files s') = false
    /\ invoked (trace s') = invoked (trace s)
    /\ forall ls s'', exec env s' ls = Some s'' ->
         main s'' = MDone (inl e')
         /\ invoked (trace s'') = invoked (trace s).
Proof.
  intros Hm Hf Hr. eexists. split.
  - simpl. unfold mainStep. rewrite Hm, Hf, Hr. reflexivity.
  - simpl. split_and!; try done.
    intros ls s'' Hx.
    destruct (done_exec env ls (leave (inl e') s) s'' (inl e') eq_refl Hx)
      as (? & ? & _).
    done.
Qed.

Lemma rollback_error_ends_sweep_witness :
  exists s,
    run Ex.flakyEnv (Ex.store []) [Ex.x1; Ex.y1; Ex.z1] 0 Ex.untilSweep
    = inr (Some s)
    /\ exists s',
         step Ex.flakyEnv s LMain = Some s'
         /\ main s' = MDone (inl "undo failed")
         /\ lockExists (files s') = false
         /\ invoked (trace s') = invoked (trace s)
         /\ forall ls s'', exec Ex.flakyEnv s' ls = Some s'' ->
              main s'' = MDone (inl "undo failed")
              /\ invoked (trace s'') = invoked (trace s).
Proof.
  eexists. split; [vm_compute; reflexivity|].
  apply (rollback_error_ends_sweep Ex.flakyEnv _ "spawn failed" 0
           (Ex.undoThrows "spawn y") "undo failed"); reflexivity.
Defined.

(** C3 as stated fails: the third [spawn] throws "spawn failed"; the revert
    function of the second throws; the revert function of the first is never
    called, and the run rejects with "undo failed". *)
Lemma rollback_error_stops_sweep :
  exists s,
    run Ex.flakyEnv (Ex.store []) [Ex.x1; Ex.y1; Ex.z1] 0 Ex.afterSweep
    = inr (Some s)
    /\ pushed (trace s) = [Ex.undoThrows "spawn y"; Ex.undo "spawn x"]
    /\ invoked (trace s) = [Ex.undoThrows "spawn y"]
    /\ main s = MDone (inl "undo failed")
    /\ forall l, step Ex.flakyEnv s l = None.
Proof.
  eexists. split; [vm_compute; reflexivity|].
  split_and!; try (vm_compute; reflexivity).
  intros [h arg|pid r|r| | |n|]; try (vm_compute; reflexivity).
Qed.

(** ** Runs without actions (C7) *)

(** C7 on the code: the report of a run without actions is never reached.
    A declaration found unchanged returns from inside the [try] block of
    [addTarget], so the cursor stays on it, [deploying] is never resolved,
    and [deploy] does not return. *)
Theorem no_action_branch_unreachable env f objects npromises ls s :
  run env f objects npromises ls = inr (Some s) ->
  ~ In EvNoAction (trace s)
  /\ forall i c, In (EvDiff i false c) (trace s) ->
       main s <> MDone (inr tt) /\ deploying s <> DResolved
       /\ tasks s = [] /\ targetIndex s = i.
Proof.
  intros Hrun. split.
  - pose proof (run_noReport _ _ _ _ _ _ Hrun) as H.
    rewrite Forall_forall in H. intros Hin.
    by apply (H EvNoAction); [apply list_elem_of_In|].
  - intros i c Hin. destruct (run_diffInv _ _ _ _ _ _ Hrun) as [Hq Hd].
    destruct (d_stalled s Hd i c Hin) as (Hi & Ht & _ & _ & _ & Hr & _).
    split_and!; try done.
    intros Hm. pose proof (q_phase s Hq) as Hp. by rewrite Hm in Hp.
Qed.

Lemma no_action_branch_unreachable_witness :
  exists s,
    run (Ex.envOf false "") (Ex.store [Ex.x1]) [Ex.x1] 0 Ex.declareOnce
    = inr (Some s)
    /\ ~ In EvNoAction (trace s)
    /\ forall i c, In (EvDiff i false c) (trace s) ->
         main s <> MDone (inr tt) /\ deploying s <> DResolved
         /\ tasks s = [] /\ targetIndex s = i.
Proof.
  eexists. split; [vm_compute; reflexivity|].
  apply (no_action_branch_unreachable (Ex.envOf false "") (Ex.store [Ex.x1])
           [Ex.x1] 0 Ex.declareOnce).
  vm_compute. reflexivity.
Defined.

(** The run of the specification's own example -- the prior store holds
    [{name: "x", size: 1}] and the script declares it again -- finds the target
    unchanged and then waits for [deploying] for ever: no piece of [deploy]
    can go on. *)
Lemma unchanged_target_blocks_deploy :
  exists s,
    run (Ex.envOf false "") (Ex.store [Ex.x1]) [Ex.x1] 0 Ex.declareOnce
    = inr (Some s)
    /\ trace s = [EvEnd 0 (inr tt); EvDiff 0 false [];
                  EvIdentifySaved 0 "web" 0; EvIdentify 0; EvStart 0]%nat
    /\ main s = MDeploying /\ deploying s = DPending
    /\ lockExists (files s) = true
    /\ forall l, step (Ex.envOf false "") s l = None.
Proof.
  eexists. split; [vm_compute; reflexivity|].
  split_and!; try (vm_compute; reflexivity).
  intros [h arg|pid r|r| | |n|]; vm_compute; reflexivity.
Qed.

(** ** The lock file (C9) *)




(** ** The revert stack (C2) *)

Lemma firstBad_app evs tr :
  firstBad (evs ++ tr) =
  match firstBad tr with
  | Some b => Some b
  | None => firstBad evs
  end.
Proof.
  induction evs as [|ev evs IH]; simpl.
  - by destruct (firstBad tr).
  - rewrite IH. by destruct (firstBad tr).
Qed.

Lemma firstBad_grows P tr tr' ev :
  firstBad tr = Some ev -> grows P tr tr' -> firstBad tr' = Some ev.
Proof.
  intros Hf (evs & -> & _)%grows_split. by rewrite firstBad_app, Hf.
Qed.

Lemma identifyEvents_neutral t s :
  firstBad (identifyEvents t s) = None
  /\ pushed (identifyEvents t s) = []
  /\ invoked (identifyEvents t s) = []
  /\ existsb isAction (identifyEvents t s) = false.
Proof.
  unfold identifyEvents. destruct (assoc _ _); [|done].
  destruct (hasName _ _); [done|].
  generalize (seq 0 (length (targets p))). intros l.
  induction l as [|j l IH] using rev_ind; [done|].
  rewrite map_app, rev_app_distr. simpl.
  destruct IH as (H1 & H2 & H3 & H4). by rewrite H1.
Qed.

Lemma pushed_app evs tr : pushed (evs ++ tr) = pushed evs ++ pushed tr.
Proof.
  induction evs as [|ev evs IH]; [done|]. simpl.
  destruct ev; simpl; try done. destruct r as [|[]]; simpl; by rewrite ?IH.
Qed.

Lemma invoked_app evs tr : invoked (evs ++ tr) = invoked evs ++ invoked tr.
Proof.
  induction evs as [|ev evs IH]; [done|]. simpl.
  destruct ev; simpl; by rewrite ?IH.
Qed.

Lemma identifyEvents_trace t s tr :
  firstBad (identifyEvents t s ++ tr) = firstBad tr
  /\ pushed (identifyEvents t s ++ tr) = pushed tr
  /\ invoked (identifyEvents t s ++ tr) = invoked tr
  /\ existsb isAction (identifyEvents t s ++ tr) = existsb isAction tr.
Proof.
  destruct (identifyEvents_neutral t s) as (H1 & H2 & H3 & H4).
  rewrite firstBad_app, pushed_app, invoked_app, existsb_app, H1, H2, H3, H4.
  split_and!; try done. by destruct (firstBad tr).
Qed.

(** Every step only adds events. *)
Lemma step_grows env s l s' :
  step env s l = Some s' -> grows (fun _ => True) (trace s) (trace s').
Proof.
  intros Hstep. step_cases Hstep.
  all: try done.
  all: assign.
  all: repeat case_match; grow_with; done.
Qed.

Lemma activeInv_step env s l s' :
  activeInv s -> step env s l = Some s' -> activeInv s'.
Proof.
  unfold activeInv. intros Hinv Hstep. step_cases Hstep.
  all: try done.
  all: try match goal with
       | E : tasks ?s !! ?n = Some ?t |- _ =>
           assert (Hne : tasks s <> []) by (by destruct (tasks s));
           specialize (Hinv (or_introl Hne))
       end.
  all: assign.
  all: rewrite ?(proj1 (proj2 (proj2 (identifyEvents_trace _ _ _)))).
  all: try done.
  all: try solve [repeat case_match; simplify_eq; simpl in *; try done;
                  intros [?|?]; try done; apply Hinv; auto].
Qed.

Lemma firstBad_isAction tr ev :
  firstBad tr = Some ev -> isFailedAction ev = true ->
  existsb isAction tr = true.
Proof.
  induction tr as [|ev0 tr IH]; simpl; [done|].
  destruct (firstBad tr) as [b|].
  - intros [= ->] Hf. rewrite (IH eq_refl Hf). apply orb_true_r.
  - destruct (bad ev0); [|done]. intros [= ->] Hf.
    destruct ev; try done.
Qed.


Lemma take_S_lookup {A} (l : list A) i x :
  l !! i = Some x -> take (S i) l = take i l ++ [x].
Proof. intros H. by apply take_S_r. Qed.

Lemma take_ge_lookup {A} (l : list A) i : l !! i = None -> take i l = l.
Proof. intros H%lookup_ge_None. by apply take_ge. Qed.

Lemma failedRun_frame s s' :
  failedRun s ->
  (forall t, In t (tasks s') -> In t (tasks s)) ->
  microtasks s' = microtasks s -> secretsPending s' = secretsPending s ->
  targetIndex s' = targetIndex s ->
  length (declared s) <= length (declared s') ->
  revertFns s' = revertFns s ->
  pushed (trace s') = pushed (trace s) ->
  invoked (trace s') = invoked (trace s) ->
  (main s' = main s \/ main s = MLoad /\ main s' = MDeploying) ->
  (deploying s <> DResolved -> deploying s' <> DResolved) ->
  failedRun s'.
Proof.
  intros (Hdead & (Hm0 & Hs0 & Hstuck) & Hmain) Ht Hm Hs Hi Hd Hr Hp Hinv Hmn Hdep.
  unfold failedRun, quiet. rewrite Hm, Hs, Hi, Hr, Hp, Hinv.
  split_and!; try done.
  - intros t Hin. auto.
  - destruct Hstuck as [?|Hne]; [left; lia|].
    right. destruct Hmn as [->|[? ->]]; done.
  - destruct Hmn as [->|[Hl ->]].
    + destruct (main s); try done; try (by destruct Hmain as (? & ? & ?); auto).
      destruct Hmain as (? & ? & ? & Hnil). split_and!; try done.
      destruct (tasks s') as [|t ts]; [done|].
      specialize (Ht t ltac:(by left)). by rewrite Hnil in Ht.
    + rewrite Hl in Hmain. destruct Hmain as (? & ? & ?). auto.
Qed.

Lemma failedRun_catch env e s :
  dryRun env = false -> activePlugin s <> None -> failedRun s ->
  match main s with
  | MLoad | MDeploying | MKilling _ _ _ _ => True
  | _ => False
  end ->
  failedRun (catchMain env e s).
Proof.
  intros Hdry Hact (Hdead & (Hm0 & Hs0 & Hstuck) & Hmain) Hm.
  assert (Hst : invoked (trace s) = [] /\ revertFns s = rev (pushed (trace s))).
  { destruct (main s); try done; by destruct Hmain as (? & ? & ?). }
  destruct Hst as [Hinv Hrev].
  rewrite catchMain_assign. destruct (activePlugin s) as [p|]; [|done].
  rewrite Hdry. simpl. rewrite Hrev, rev_involutive.
  unfold failedRun, quiet. simpl.
  split_and!; try done.
  - right. by destruct (pushed (trace s)).
  - destruct (pushed (trace s)) as [|fn fns] eqn:Ep; simpl.
    + rewrite Hinv. split; [done|]. by left.
    + rewrite Hinv. simpl. split_and!; try done. lia.
Qed.

Lemma failedRun_sweep env s s' e i :
  failedRun s -> main s = MReverting e i -> mainStep env s = Some s' ->
  failedRun s'.
Proof.
  intros (Hdead & (Hm0 & Hs0 & Hstuck) & Hmain) Hm Hstep.
  rewrite Hm in Hmain. destruct Hmain as (Hrev & Hinv & Hlt).
  unfold mainStep in Hstep. rewrite Hm in Hstep.
  destruct (revertFns s !! i) as [fn|] eqn:Ef; [|done].
  destruct (revertResult fn) as [e'|[]] eqn:Er; injection Hstep as <-.
  - (* the revert function throws: [finally], and out *)
    unfold failedRun, quiet, leave, finally, emit. simpl.
    split_and!; try done.
    + by right.
    + right. exists i, fn, e'. rewrite <- Hrev at 2. done.
  - (* it returns: the next one, or out *)
    rewrite revertLoop_assign. unfold failedRun, quiet. simpl.
    split_and!; try done.
    + right. by destruct (revertFns s !! S i).
    + destruct (revertFns s !! S i) as [fn'|] eqn:Ef'; simpl.
      * rewrite Hinv. split_and!; try done.
        -- rewrite Hrev in Ef'. by rewrite (take_S_lookup _ _ _ Ef').
        -- rewrite Hrev in Ef'. by apply lookup_lt_Some in Ef'.
      * split; [done|]. left. rewrite Hinv.
        rewrite Hrev in Ef'. by apply take_ge_lookup.
Qed.

Lemma failedRun_step env s l s' :
  dryRun env = false ->
  queueInv s -> activePlugin s <> None -> failedRun s ->
  step env s l = Some s' -> failedRun s'.
Proof.
  intros Hdry Hq Hact Hfr Hstep.
  pose proof Hfr as (Hdead & (Hm0 & Hs0 & Hstuck) & Hmain).
  destruct l.
  - (* a declaration is parked *)
    unfold step, declare in Hstep. destruct (main s) eqn:Em; try done.
    injection Hstep as <-.
    assert (Hlt : targetIndex s < length (declared s)) by (by destruct Hstuck).
    assert (Hf : (length (declared s) =? 0)%nat = false) by (apply Nat.eqb_neq; lia).
    assert (Hh : (length (declared s) =? targetIndex s)%nat = false)
      by (apply Nat.eqb_neq; lia).
    rewrite addTargetCtx_assign. cbv zeta. rewrite Hf, Hh. simpl.
    eapply failedRun_frame; [exact Hfr|simpl; try done..]; auto.
    rewrite length_app. lia.
  - (* a promise settles *)
    unfold step, settle in Hstep. destruct (promises s !! pid) as [[]|]; try done.
    injection Hstep as <-.
    eapply failedRun_frame; [exact Hfr|simpl; try done..]; auto.
  - (* the script ends *)
    unfold step, scriptDone in Hstep. destruct (main s) eqn:Em; try done.
    destruct r as [e|[]]; injection Hstep as <-.
    + apply failedRun_catch; try done. by rewrite Em.
    + eapply failedRun_frame; [exact Hfr|simpl; try done..]; auto.
  - unfold step, secretsLoaded in Hstep. by rewrite Hs0 in Hstep.
  - unfold step, runMicrotask in Hstep. by rewrite Hm0 in Hstep.
  - (* the activation whose action threw *)
    simpl in Hstep. unfold runTask in Hstep.
    destruct (tasks s !! n) as [t|] eqn:Et; [|done].
    destruct (queueInv_task s _ t Hq Et) as (Hts & -> & _ & _ & Hti & Hdt & Hlt).
    pose proof (Hdead t) as Hd. rewrite Hts in Hd. specialize (Hd ltac:(by left)).
    assert (Hrej : exists e, taskStep env t s = Some (rejectTask (taskIndex t) e s, None)).
    { unfold taskStep. destruct (taskPc t) as [| | | |? r|? r|? r|? r];
        try done; destruct r; try done; eauto. }
    destruct Hrej as [e Hrej]. rewrite Hrej in Hstep. injection Hstep as <-.
    rewrite rejectTask_assign. simpl. rewrite Hts. simpl.
    unfold failedRun, quiet. simpl. split_and!; try done.
    destruct (main s); try done.
    all: destruct Hmain as (? & ? & ?); split_and!; try done.
    all: try by destruct (deploying s).
    by destruct H1.
  - (* deploy itself *)
    simpl in Hstep. pose proof Hstep as Hstep0. unfold mainStep in Hstep.
    destruct (main s) eqn:Em; try done.
    + (* awaiting [deploying] *)
      destruct Hmain as (_ & _ & Hnr).
      destruct (deploying s) eqn:Ed; try done.
      injection Hstep as <-. apply failedRun_catch; try done. by rewrite Em.
    + (* the [kill] that threw *)
      destruct Hmain as (_ & _ & [e ->] & _).
      injection Hstep as <-. apply failedRun_catch; try done. by rewrite Em.
    + by eapply failedRun_sweep.
Qed.
Lemma soundRun_step env s l s' :
  dryRun env = false ->
  queueInv s -> activeInv s -> firstBad (trace s) = None -> soundRun s ->
  step env s l = Some s' ->
  match firstBad (trace s') with
  | None => soundRun s'
  | Some ev => if isFailedAction ev then failedRun s' else True
  end.
Proof.
  intros Hdry Hq Hact Hfb (Hinv & Hrev & Hmn) Hstep.
  pose proof (q_phase s Hq) as Hph.
  pose proof (q_resolved s Hq) as Hres.
  unfold soundRun, failedRun, quiet, pendingR in *.
  step_cases Hstep.
  all: try done.
  all: try match goal with
       | E : tasks ?s !! _ = Some ?t |- _ =>
           destruct (queueInv_task s _ t Hq E)
             as (Hts & -> & Hm0 & Hs0 & Hti & Hdt & Hlt);
           rewrite Hts in Hrev; simpl in Hrev;
           match goal with E3 : taskPc t = _ |- _ => rewrite E3 in Hrev end;
           simpl in Hrev;
           assert (Hnr : deploying s <> DResolved)
             by (intros Hr; destruct (Hres Hr) as [Hn _]; congruence);
           assert (Hpm : pendingMain (main s) = [])
             by (destruct (main s); try done; simpl in *; congruence);
           rewrite Hpm in Hrev
       end.
  all: try match goal with
       | E : main ?s = MKilling _ _ _ _ |- _ => rewrite E in Hph
       end.
  all: try (destruct Hres as (Hnil & Hm0' & Hs0' & _); [done|]).
  all: try match goal with
       | E : (length (declared ?s) =? targetIndex ?s)%nat = true |- _ =>
           apply Nat.eqb_eq in E;
           destruct (queueInv_idle s Hq (eq_sym E)) as [Hnil _]
       end.
  all: try match goal with
       | E : secretsPending ?s = true |- _ =>
           assert (Hnil : tasks s = [])
             by (pose proof (q_one s Hq) as H1; rewrite E in H1;
                 destruct (tasks s); [done|simpl in H1; lia])
       | E : microtasks ?s = S _ |- _ =>
           assert (Hnil : tasks s = [])
             by (pose proof (q_one s Hq) as H1; rewrite E in H1;
                 destruct (tasks s); [done|simpl in H1; lia])
       end.
  all: assign.
  all: rewrite ?Hdry; simpl.
  all: repeat match goal with
       | |- context [firstBad (identifyEvents ?t ?s ++ ?tr)] =>
           rewrite (proj1 (identifyEvents_trace t s tr))
       | |- context [pushed (identifyEvents ?t ?s ++ ?tr)] =>
           rewrite (proj1 (proj2 (identifyEvents_trace t s tr)))
       | |- context [invoked (identifyEvents ?t ?s ++ ?tr)] =>
           rewrite (proj1 (proj2 (proj2 (identifyEvents_trace t s tr))))
       end.
  all: rewrite ?Hfb; simpl.
  all: try (rewrite Hts; simpl).
  all: try rewrite Hpm.
  all: rewrite ?app_nil_r in *.
  all: try done.
  all: repeat (case_match; simplify_eq; simpl in *; rewrite ?Hfb in *; simpl in * ).
  all: try (rewrite Hnil in *; simpl in * ).
  all: rewrite ?app_nil_r, <- ?app_assoc in *; simpl in *.
  all: try done.
  all: try solve
        [ split_and!; try done; try lia; try congruence;
          try (by left); try (by right); try (intros ? [<-|[]]; done);
          try (by eexists);
          try (rewrite <- Hrev; by rewrite ?rev_app_distr, ?app_nil_r, <- ?app_assoc);
          try (by rewrite <- Hrev, <- ?app_assoc) ].
  (* a declaration under the cursor *)
  match goal with
  | H : _ && (length (declared s) =? targetIndex s)%nat = true |- _ =>
      apply andb_true_iff in H as [_ H]; apply Nat.eqb_eq in H;
      destruct (queueInv_idle s Hq (eq_sym H)) as [Hnil _]
  end.
  rewrite Hnil in *. simpl in *. by rewrite app_nil_r in *.
Qed.

Lemma revertInv_step env s l s' :
  dryRun env = false ->
  queueInv s -> revertInv s -> step env s l = Some s' -> revertInv s'.
Proof.
  intros Hdry Hq [Hact Hph] Hstep. split; [by eapply activeInv_step|].
  destruct (firstBad (trace s)) as [ev|] eqn:Hfb.
  - rewrite (firstBad_grows _ _ _ _ Hfb (step_grows _ _ _ _ Hstep)).
    destruct (isFailedAction ev) eqn:Hfa; [|done].
    eapply failedRun_step; try done.
    apply Hact. right. by eapply firstBad_isAction.
  - by eapply soundRun_step.
Qed.

Lemma find_app_first {A} (f : A -> bool) l1 l2 :
  List.find f (l1 ++ l2) =
  match List.find f l1 with
  | Some x => Some x
  | None => List.find f l2
  end.
Proof. induction l1 as [|x l1 IH]; simpl; [done|]. by destruct (f x). Qed.

Lemma find_identifyEvents t s tr :
  List.find isAction (identifyEvents t s ++ tr) = List.find isAction tr.
Proof.
  rewrite find_app_first.
  destruct (List.find isAction (identifyEvents t s)) as [ev|] eqn:E; [|done].
  apply find_some in E as [Hin Hev].
  destruct (identifyEvents_neutral t s) as (_ & _ & _ & Hx).
  assert (existsb isAction (identifyEvents t s) = true)
    by (apply existsb_exists; eauto).
  congruence.
Qed.

Lemma lastActionInv_step env s l s' :
  dryRun env = false ->
  queueInv s -> revertInv s -> lastActionInv s ->
  step env s l = Some s' -> lastActionInv s'.
Proof.
  intros Hdry Hq [Hact Hph] Hlast Hstep. unfold lastActionInv in *.
  destruct (firstBad (trace s)) as [ev0|] eqn:Hfb.
  - (* after the failure: no step calls an action *)
    rewrite (firstBad_grows _ _ _ _ Hfb (step_grows _ _ _ _ Hstep)).
    intros ev [= <-] Hfa. specialize (Hlast ev0 eq_refl Hfa).
    rewrite Hfa in Hph. destruct Hph as (Hdead & (Hm0 & Hs0 & Hstuck) & Hmain).
    step_cases Hstep.
    all: try done; try congruence.
    all: try match goal with
         | E : tasks ?s !! _ = Some ?t |- _ =>
             destruct (queueInv_task s _ t Hq E)
               as (Hts & -> & _ & _ & Hti & Hdt & Hlt);
             let H := fresh in
             pose proof (Hdead t) as H; rewrite Hts in H;
             specialize (H ltac:(by left));
             match goal with E3 : taskPc t = _ |- _ => rewrite E3 in H end;
             simpl in H; try done
         end.
    all: assign.
    all: rewrite ?find_identifyEvents; simpl.
    all: try done.
    all: try solve [repeat case_match; simplify_eq; simpl in *; try done;
                    try (by destruct Hmain as (? & ? & ?));
                    try (by destruct Hmain as (? & ? & [? ?] & ?))].
  - (* until then: the action that throws is the one just called *)
    clear Hlast. intros ev. step_cases Hstep.
    all: try congruence.
    all: assign.
    all: rewrite ?Hdry; simpl.
    all: repeat match goal with
         | |- context [firstBad (identifyEvents ?t ?s ++ ?tr)] =>
             rewrite (proj1 (identifyEvents_trace t s tr))
         end.
    all: rewrite ?find_identifyEvents; simpl.
    all: rewrite ?Hfb; simpl.
    all: try done.
    all: try solve [repeat (case_match; simplify_eq; simpl in *;
                            rewrite ?Hfb in *; simpl in * );
                    try done; try congruence;
                    intros; simplify_eq; done].
Qed.

Lemma run_revertInv env f objects npromises ls s :
  dryRun env = false ->
  run env f objects npromises ls = inr (Some s) ->
  queueInv s /\ revertInv s /\ lastActionInv s.
Proof.
  intros Hdry. unfold run. destruct (start _ _ _ _) as [|s0] eqn:E; [done|].
  intros [= Hx].
  eapply (exec_invariant env
            (fun s => queueInv s /\ revertInv s /\ lastActionInv s));
    [| |exact Hx].
  - intros s1 l s2 (Hq & Hr & Hl) Hstep. split_and!.
    + by eapply queueInv_step.
    + by eapply revertInv_step.
    + by eapply lastActionInv_step.
  - split_and!; [by eapply start_queueInv| |].
    + apply start_state in E as [-> _]. split; [by intros [|]|done].
    + apply start_state in E as [-> _]. by intros ev.
Qed.


Lemma failedRun_done s r :
  failedRun s -> main s = MDone r ->
  Forall (fun fn => revertResult fn = inr tt) (pushed (trace s)) ->
  rev (invoked (trace s)) = pushed (trace s).
Proof.
  intros (_ & _ & Hmain) Hm Hok. rewrite Hm in Hmain.
  destruct Hmain as [_ [Hall|(i & fn & e' & _ & Hi & He)]]; [done|].
  rewrite Forall_forall in Hok.
  assert (Hin : fn ∈ pushed (trace s)) by (apply list_elem_of_lookup; eauto).
  specialize (Hok fn Hin). congruence.
Qed.

(** The sweep, driven by [deploy] alone, comes to its end. *)
Lemma sweep_loop env n :
  forall s e i,
    failedRun s -> main s = MReverting e i ->
    length (pushed (trace s)) - i <= n ->
    Forall (fun fn => revertResult fn = inr tt) (pushed (trace s)) ->
    exists k s',
      exec env s (repeat LMain k) = Some s'
      /\ main s' = MDone (inl e) /\ failedRun s'
      /\ pushed (trace s') = pushed (trace s).
Proof.
  induction n as [|n IH]; intros s e i Hfr Hm Hn Hok.
  - destruct Hfr as (_ & _ & Hmain). rewrite Hm in Hmain.
    destruct Hmain as (_ & _ & Hlt). lia.
  - pose proof Hfr as (_ & _ & Hmain). rewrite Hm in Hmain.
    destruct Hmain as (Hrev & Hinv & Hlt).
    destruct (revertFns s !! i) as [fn|] eqn:Ef;
      [|apply lookup_ge_None in Ef; rewrite Hrev in Ef; lia].
    assert (Hfn : revertResult fn = inr tt).
    { rewrite Forall_forall in Hok. apply Hok. rewrite <- Hrev.
      apply list_elem_of_lookup. eauto. }
    assert (Hstep : mainStep env s = Some (revertLoop e (S i) s)).
    { unfold mainStep. by rewrite Hm, Ef, Hfn. }
    pose proof (failedRun_sweep _ _ _ _ _ Hfr Hm Hstep) as Hfr1.
    assert (Hp1 : pushed (trace (revertLoop e (S i) s)) = pushed (trace s)).
    { rewrite revertLoop_assign. simpl. by destruct (revertFns s !! S i). }
    destruct (revertFns s !! S i) as [fn'|] eqn:Ef'.
    + assert (Hm1 : main (revertLoop e (S i) s) = MReverting e (S i)).
      { rewrite revertLoop_assign. simpl. by rewrite Ef'. }
      destruct (IH _ e (S i) Hfr1 Hm1) as (k & s' & Hx & Hd & Hf' & Hp');
        [rewrite Hp1; lia|by rewrite Hp1|].
      exists (S k), s'. simpl. rewrite Hstep. split_and!; try done. congruence.
    + exists 1%nat, (revertLoop e (S i) s). simpl. rewrite Hstep.
      split_and!; try done. rewrite revertLoop_assign. simpl. by rewrite Ef'.
Qed.

Lemma sweep_completes env s :
  dryRun env = false -> activePlugin s <> None -> failedRun s ->
  Forall (fun fn => revertResult fn = inr tt) (pushed (trace s)) ->
  ((exists e, main s = MDeploying /\ deploying s = DRejected e)
   \/ exists p e rest k, main s = MKilling p (inl e) rest k) ->
  exists k s' e,
    exec env s (repeat LMain k) = Some s'
    /\ main s' = MDone (inl e)
    /\ rev (invoked (trace s')) = pushed (trace s)
    /\ pushed (trace s') = pushed (trace s).
Proof.
  intros Hdry Hact Hfr Hok Hinf.
  assert (Hc : exists e, mainStep env s = Some (catchMain env e s)
                         /\ match main s with
                            | MLoad | MDeploying | MKilling _ _ _ _ => True
                            | _ => False
                            end).
  { destruct Hinf as [(e & Hm & Hd)|(p & e & rest & k & Hm)];
      exists e; unfold mainStep; rewrite Hm; [by rewrite Hd|done]. }
  destruct Hc as (e & Hstep & Hmain).
  pose proof (failedRun_catch env e s Hdry Hact Hfr Hmain) as Hfr1.
  assert (Hp1 : pushed (trace (catchMain env e s)) = pushed (trace s)).
  { rewrite catchMain_assign. cbv zeta.
    destruct (activePlugin s); [|done]. rewrite Hdry. simpl.
    by destruct (rev (revertFns s) !! 0%nat). }
  assert (Hm1 : main (catchMain env e s) = MReverting e 0
                \/ main (catchMain env e s) = MDone (inl e)).
  { rewrite catchMain_assign. cbv zeta.
    destruct (activePlugin s); [|done]. rewrite Hdry. simpl.
    destruct (rev (revertFns s) !! 0%nat); auto. }
  destruct Hm1 as [Hm1|Hm1].
  - destruct (sweep_loop env (length (pushed (trace s))) _ e 0%nat Hfr1 Hm1)
      as (k & s' & Hx & Hd & Hf' & Hp'); [rewrite Hp1; lia|by rewrite Hp1|].
    exists (S k), s', e. simpl. rewrite Hstep. split_and!; try done; [|congruence].
    rewrite <- Hp1, <- Hp'. eapply failedRun_done; eauto.
    by rewrite Hp', Hp1.
  - exists 1%nat, (catchMain env e s), e. simpl. rewrite Hstep.
    split_and!; try done.
    rewrite <- Hp1. eapply failedRun_done; eauto. by rewrite Hp1.
Qed.

(** C2, as the code has it: when the first thing to go wrong in a run that
    is not dry is an action that throws, no action is called after it.  If no
    revert function throws, then once [deploy] has thrown the revert functions
    called are exactly those that the earlier actions handed back, each once,
    the most recent first; and [deploy] does get there by itself as soon as
    the error has reached it, through [deploying] or from the kill phase.  The
    action that threw hands nothing back. *)
Theorem rollback_in_reverse_order env f objects npromises ls s ev :
  dryRun env = false ->
  run env f objects npromises ls = inr (Some s) ->
  firstBad (trace s) = Some ev -> isFailedAction ev = true ->
  Forall (fun fn => revertResult fn = inr tt) (pushed (trace s)) ->
  List.find isAction (trace s) = Some ev
  /\ (forall r, main s = MDone r ->
        rev (invoked (trace s)) = pushed (trace s))
  /\ ((exists e, main s = MDeploying /\ deploying s = DRejected e)
      \/ (exists p e rest k, main s = MKilling p (inl e) rest k) ->
      exists k s' e,
        exec env s (repeat LMain k) = Some s'
        /\ main s' = MDone (inl e)
        /\ rev (invoked (trace s')) = pushed (trace s)
        /\ pushed (trace s') = pushed (trace s)).
Proof.
  intros Hdry Hrun Hfb Hfa Hok.
  destruct (run_revertInv _ _ _ _ _ _ Hdry Hrun) as (Hq & [Ha Hr] & Hl).
  rewrite Hfb, Hfa in Hr.
  pose proof (Hl ev Hfb Hfa) as Hlast.
  split_and!.
  - done.
  - intros r Hm. by eapply failedRun_done.
  - intros Hinf. apply sweep_completes; try done.
    apply Ha. right. apply List.find_some in Hlast as [Hin Hact].
    apply existsb_exists. eauto.
Qed.

Lemma rollback_in_reverse_order_witness :
  exists s,
    run Ex.brittleEnv (Ex.store []) [Ex.x1; Ex.y1; Ex.z1] 0 Ex.untilThrow
    = inr (Some s)
    /\ pushed (trace s) = [Ex.undo "spawn y"; Ex.undo "spawn x"]
    /\ List.find isAction (trace s)
       = Some (EvAction (Some 2%nat) Spawn "web" (props Ex.z1)
                 (inl "spawn failed"))
    /\ (forall r, main s = MDone r ->
          rev (invoked (trace s)) = pushed (trace s))
    /\ ((exists e, main s = MDeploying /\ deploying s = DRejected e)
        \/ (exists p e rest k, main s = MKilling p (inl e) rest k) ->
        exists k s' e,
          exec Ex.brittleEnv s (repeat LMain k) = Some s'
          /\ main s' = MDone (inl e)
          /\ rev (invoked (trace s')) = pushed (trace s)
          /\ pushed (trace s') = pushed (trace s)).
Proof.
  eexists. split; [vm_compute; reflexivity|].
  split; [vm_compute; reflexivity|].
  apply (rollback_in_reverse_order Ex.brittleEnv (Ex.store [])
           [Ex.x1; Ex.y1; Ex.z1] 0 Ex.untilThrow).
  - reflexivity.
  - vm_compute; reflexivity.
  - vm_compute; reflexivity.
  - reflexivity.
  - vm_compute. repeat constructor.
Defined.

(** C2 as stated fails: the first and the second [spawn] hand back a revert
    function each, the third throws; the sweep calls the revert function of
    the second, which throws, and the revert function of the first is not
    called. *)
Lemma rollback_skips_earlier_revert :
  exists s,
    run Ex.flakyEnv (Ex.store []) [Ex.x1; Ex.y1; Ex.z1] 0 Ex.afterSweep
    = inr (Some s)
    /\ firstBad (trace s) = Some (EvAction (Some 2%nat) Spawn "web" (props Ex.z1)
                 (inl "spawn failed"))
    /\ (exists r, main s = MDone r)
    /\ In (Ex.undo "spawn x") (pushed (trace s))
    /\ ~ In (Ex.undo "spawn x") (invoked (trace s))
    /\ rev (invoked (trace s)) <> pushed (trace s).
Proof.
  eexists. split; [vm_compute; reflexivity|].
  split_and!.
  - vm_compute; reflexivity.
  - eexists. vm_compute; reflexivity.
  - vm_compute. auto.
  - vm_compute. intros [H|[]]. discriminate H.
  - vm_compute. discriminate.
Qed.

(** *** The new target cache *)

Lemma pushCached_under key hookFile c cache n :
  cachedUnder n (pushCached key hookFile c cache)
  = cachedUnder n cache ++ (if String.eqb key n then [c] else []).
Proof.
  unfold cachedUnder. induction cache as [|[k [h ts]] cache IH]; simpl.
  - by destruct (String.eqb key n).
  - destruct (String.eqb k key) eqn:Ek; simpl.
    + apply String.eqb_eq in Ek. subst k.
      destruct (String.eqb key n); [done|]. by rewrite app_nil_r.
    + destruct (String.eqb k n) eqn:En; [|exact IH].
      apply String.eqb_eq in En. subst k.
      rewrite String.eqb_sym, Ek. by rewrite app_nil_r.
Qed.

Lemma fold_pushCached_under (g : TargetArg -> CachedTarget) l cache n :
  cachedUnder n
    (fold_left (fun cache d =>
                  pushCached (name (plugin d.1)) (file d.1) (g d.2) cache)
               l cache)
  = cachedUnder n cache ++ map (fun d => g d.2) (declaredFor n l).
Proof.
  revert cache. induction l as [|d l IH]; intros cache; simpl.
  - by rewrite app_nil_r.
  - rewrite IH, pushCached_under.
    destruct (String.eqb (name (plugin d.1)) n); simpl.
    + by rewrite <- app_assoc.
    + by rewrite app_nil_r.
Qed.

Lemma existsb_key_pushCached key hookFile c cache k :
  existsb (fun kv => String.eqb kv.1 k) (pushCached key hookFile c cache)
  = existsb (fun kv => String.eqb kv.1 k) cache || String.eqb key k.
Proof.
  induction cache as [|[k' [h ts]] cache IH]; simpl.
  - by rewrite orb_false_r.
  - destruct (String.eqb k' key) eqn:Ek; simpl.
    + apply String.eqb_eq in Ek. subst k'.
      destruct (String.eqb key k); simpl; [done|]. by rewrite orb_false_r.
    + rewrite IH. by rewrite orb_assoc.
Qed.

Lemma nodupKeys_pushCached key hookFile c cache :
  nodupKeys cache = true -> nodupKeys (pushCached key hookFile c cache) = true.
Proof.
  induction cache as [|[k [h ts]] cache IH]; simpl; [done|].
  intros [Hk Hn]%andb_prop.
  destruct (String.eqb k key) eqn:Ek; simpl.
  - by rewrite Hk, Hn.
  - rewrite existsb_key_pushCached, IH by done.
    apply negb_true_iff in Hk. rewrite Hk. simpl.
    by rewrite String.eqb_sym, Ek.
Qed.

Lemma newTargetCache_nodupKeys s : nodupKeys (newTargetCache s) = true.
Proof.
  unfold newTargetCache.
  assert (H : forall l cache,
             nodupKeys cache = true ->
             nodupKeys
               (fold_left (fun cache d =>
                             pushCached (name (plugin d.1)) (file d.1)
                               (cachedTarget s d.2) cache) l cache) = true).
  { induction l as [|d l IH]; intros cache Hc; simpl; [done|].
    apply IH. by apply nodupKeys_pushCached. }
  by apply H.
Qed.

Lemma newTargetCache_under s n :
  cachedUnder n (newTargetCache s)
  = map (fun d => cachedTarget s d.2) (declaredFor n (declared s)).
Proof. unfold newTargetCache. by rewrite fold_pushCached_under. Qed.

Lemma newTargetCache_ext s s' :
  declared s' = declared s -> heap s' = heap s ->
  newTargetCache s' = newTargetCache s.
Proof.
  intros Hd Hh. unfold newTargetCache, cachedTarget. by rewrite Hd, Hh.
Qed.

(** *** The steps, as the declarations and the objects see them *)

Lemma argLoc_ext s s' arg :
  promises s' = promises s -> argLoc s' arg = argLoc s arg.
Proof. intros Hp. unfold argLoc. by rewrite Hp. Qed.

Lemma defineTargetId_props env o v o' :
  defineTargetId env o v = inr o' -> props o' = props o.
Proof.
  unfold defineTargetId. destruct (_id o); [|by intros [= <-]].
  destruct (String.eqb _ _); [by intros [= <-]|done].
Qed.

Lemma step_move env s l s' :
  queueInv s -> step env s l = Some s' -> Move s s'.
Proof.
  intros Hq Hstep. step_cases Hstep.
  all: try done.
  all: try match goal with
       | E : tasks ?s !! _ = Some ?t |- _ =>
           destruct (queueInv_task s _ t Hq E)
             as (Hts & -> & Hm0 & Hs0 & Hti & Hdt & Hlt)
       end.
  all: assign.
  all: try solve [apply MoveMain; simpl; repeat case_match; done].
  all: try solve [eapply (MoveStuck _ _ t);
                  [exact Hts|simpl; rewrite Hts; reflexivity|simpl; done..]].
  all: try solve [eapply (MoveFinish _ _ t);
                  [exact Hts|simpl; rewrite Hts; reflexivity
                  |by match goal with H : taskPc _ = _ |- _ => rewrite H end
                  |simpl; rewrite ?Hti, ?Nat.eqb_refl; done..]].
  all: try (eapply (MoveCall _ _ t);
            [exact Hts|simpl; rewrite Hts; reflexivity| |simpl; done..];
            unfold calls;
            match goal with H : taskPc _ = _ |- _ => rewrite H end; simpl).
  all: try solve [split; done].
  - (* a declaration *)
    destruct (length (declared s) =? 0)%nat eqn:E0; simpl.
    + eapply MoveDeclare; simpl; try done; [|by left].
      right. apply Nat.eqb_eq in E0. by destruct (declared s).
    + destruct (length (declared s) =? targetIndex s)%nat eqn:Ei; simpl;
        (eapply MoveDeclare; simpl; [done..|by left|]); [|by left].
      apply Nat.eqb_eq in Ei.
      assert (Ht : tasks s = []).
      { destruct (tasks s) as [|t0 ts] eqn:Ets; [done|].
        destruct (q_task s Hq t0) as [_ Hd]; [rewrite Ets; by left|].
        apply lookup_lt_Some in Hd. lia. }
      right. by rewrite Ht.
  - eapply (MoveSettle _ _ pid); simpl; done.
  - eapply (MoveSettle _ _ pid); simpl; done.
  - (* the secrets are loaded *)
    pose proof (q_one s Hq) as H1. rewrite E in H1.
    assert (Ht : tasks s = []) by (destruct (tasks s); [done|simpl in H1; lia]).
    destruct (q_secrets s Hq E) as [Hi _].
    eapply (MoveStart _ _ d t); simpl; rewrite ?Ht, ?Hi; try done; auto.
    by destruct (microtasks s); [|simpl in H1; lia].
  - destruct (q_secrets s Hq E) as [Hi _].
    match goal with H : _ = false |- _ => by rewrite Hi in H end.
  - (* the microtask *)
    pose proof (q_one s Hq) as H1. rewrite E in H1.
    assert (Ht : tasks s = []) by (destruct (tasks s); [done|simpl in H1; lia]).
    assert (n = 0%nat) as -> by lia.
    eapply (MoveStart _ _ d t); simpl; rewrite ?Ht; try done.
    + left. lia.
    + by destruct (secretsPending s); [simpl in H1; lia|].
  - pose proof (q_micro s Hq) as Hm. rewrite E in Hm.
    simpl in E0. apply lookup_ge_None in E0. lia.
  - (* [await target] has answered: [pull] is called *)
    split_and!; [|done|eauto].
    unfold argLoc. repeat case_match; simplify_eq; done.
  - split_and!; [|done|done|by eapply lookup_lt_Some].
    unfold argLoc. repeat case_match; simplify_eq; done.
  - split; [done|]. eexists. split; [done|]. done.
  - split; [done|]. eexists. split; [done|]. done.
  - split; [done|]. eexists _, _. split_and!; [done| |done].
    by eapply defineTargetId_props.
Qed.

Lemma argLoc_settle s s' pid x arg loc :
  promises s !! pid = Some Pending -> promises s' = <[pid := x]> (promises s) ->
  argLoc s arg = Some loc -> argLoc s' arg = Some loc.
Proof.
  destruct arg as [l|p]; simpl; [done|]. intros Hp ->.
  destruct (decide (p = pid)) as [->|Hne].
  - by rewrite Hp.
  - by rewrite list_lookup_insert_ne.
Qed.

Lemma calls_length s t pc heap' :
  calls s t pc heap' -> length heap' = length (heap s).
Proof.
  unfold calls. intros H.
  destruct (taskPc t), pc; try done.
  all: repeat match goal with
         | H : _ /\ _ |- _ => destruct H
         | H : exists _, _ |- _ => destruct H
         end; subst; try done.
  - repeat case_match; by rewrite ?length_insert.
  - by rewrite length_insert.
Qed.

(** Along a step the objects stay where they are, the cursor does not go
    back, and what is declared and resolved stays so. *)
Lemma move_mono s s' :
  Move s s' ->
  length (heap s') = length (heap s)
  /\ targetIndex s <= targetIndex s'
  /\ (forall arg loc, argLoc s arg = Some loc -> argLoc s' arg = Some loc)
  /\ (forall i d, declared s !! i = Some d -> declared s' !! i = Some d).
Proof.
  intros [Hh Hp Hd Hi _ _ _
         |pid x Hpid Hp Hh Hd Hi _ _ _
         |h arg Hd Hh Hp Hi _ _ _
         |h arg _ _ _ _ _ _ Hh Hp Hd Hi
         |t pc _ _ Hc Hp Hd Hi _ _
         |t _ _ Hh Hp Hd Hi _ _
         |t _ _ _ Hh Hp Hd Hi _].
  all: rewrite ?Hh, ?Hd, ?Hi.
  all: split_and!; try done; try lia.
  all: try (intros arg' loc'; by rewrite (argLoc_ext s s' arg' Hp)).
  - intros arg' loc'. by eapply argLoc_settle.
  - intros i d Hl. by apply lookup_app_l_Some.
  - by eapply calls_length.
Qed.

Lemma argInv_step s s' :
  queueInv s -> argInv s -> Move s s' -> argInv s'.
Proof.
  intros Hq [Ht Hb] Hmove.
  destruct (move_mono s s' Hmove) as (Hlen & Hle & Harg & Hdecl).
  assert (Hold : forall i h arg,
             i < targetIndex s -> declared s' !! i = Some (h, arg) ->
             declared s !! i = Some (h, arg)).
  { intros i h arg Hi Hd. pose proof (q_cursor s Hq) as Hc.
    destruct (declared s !! i) as [d|] eqn:E.
    - apply Hdecl in E. congruence.
    - apply lookup_ge_None in E. lia. }
  assert (Hb' : forall i h arg,
             i < targetIndex s -> declared s' !! i = Some (h, arg) ->
             exists loc, argLoc s' arg = Some loc /\ loc < length (heap s')).
  { intros i h arg Hi Hd. apply Hold in Hd; [|done].
    destruct (Hb i h arg Hi Hd) as (loc & Ha & Hl).
    exists loc. rewrite Hlen. auto. }
  assert (Ht' : forall t loc, In t (tasks s) ->
             pcLoc (taskPc t) = Some loc ->
             argLoc s' (taskArg t) = Some loc /\ loc < length (heap s')).
  { intros t loc Hin Hpc. destruct (Ht t loc Hin Hpc). rewrite Hlen. auto. }
  destruct Hmove as [_ _ _ Hi Hts _ _
                    |pid x _ _ _ _ Hi Hts _ _
                    |h arg _ _ _ Hi _ _ Hts
                    |h arg _ _ _ Hts _ _ _ _ _ Hi
                    |t pc Hts0 Hts Hc _ _ Hi _ _
                    |t _ Hts _ _ _ Hi _ _
                    |t Hts0 Hts Hpc _ _ Hd Hi _].
  all: split; rewrite ?Hts, ?Hi; try done.
  - destruct Hts as [->|(_ & _ & ->)]; [done|]. by intros t loc [<-|[]].
  - by intros t loc [<-|[]].
  - intros t' loc [<-|[]]. simpl. intros Hpc. rewrite Hlen.
    assert (Hkeep : forall l0, pcLoc (taskPc t) = Some l0 ->
               argLoc s' (taskArg t) = Some l0 /\ l0 < length (heap s)).
    { intros l0 Hl0. rewrite <- Hlen. apply Ht'; [|done].
      rewrite Hts0. by left. }
    unfold calls in Hc.
    destruct (taskPc t) eqn:Et, pc; try done; simpl in Hpc; simplify_eq.
    all: repeat match goal with
           | H : _ /\ _ |- _ => destruct H
           | H : exists _, _ |- _ => destruct H
           end; subst.
    all: try (split; [by apply Harg|by eapply lookup_lt_Some]).
    all: try (split; [by apply Harg|done]).
    all: by apply Hkeep.
  - intros i h arg Hlt Hdi. destruct (decide (i = targetIndex s)) as [->|Hne].
    + assert (Hin : In t (tasks s)) by (rewrite Hts0; by left).
      destruct (q_task s Hq t Hin) as [_ Hdt].
      rewrite Hd, Hdt in Hdi. injection Hdi as <- <-.
      destruct (pcLoc (taskPc t)) as [loc|] eqn:El;
        [|by destruct (taskPc t)].
      exists loc. by apply Ht'.
    + apply (Hb' i h arg); [lia|done].
Qed.

Lemma owner_mono s s' loc j : Move s s' -> owner s loc j -> owner s' loc j.
Proof.
  intros Hm (h & arg & Hd & Ha).
  destruct (move_mono s s' Hm) as (_ & _ & Harg & Hdecl).
  exists h, arg. split; [by apply Hdecl|by apply Harg].
Qed.

(** A step writes to one object at most: the one in the hands of the
    activation under the cursor. *)
Lemma move_heap s s' loc o o' :
  queueInv s -> argInv s -> Move s s' ->
  heap s !! loc = Some o -> heap s' !! loc = Some o' ->
  o' = o
  \/ exists t pc,
       tasks s = [t] /\ pcLoc (taskPc t) = Some loc
       /\ tasks s' = [mkTask (taskIndex t) (taskHook t) (taskArg t) pc]
       /\ targetIndex s' = targetIndex s
       /\ owner s loc (targetIndex s).
Proof.
  intros Hq [Hat _] Hmove Ho Ho'.
  destruct Hmove as [Hh _ _ _ _ _ _
                    |pid x _ _ Hh _ _ _ _ _
                    |h arg _ Hh _ _ _ _ _
                    |h arg _ _ _ _ _ _ Hh _ _ _
                    |t pc Hts Hts' Hc _ _ Hi _ _
                    |t _ _ Hh _ _ _ _ _
                    |t _ _ _ Hh _ _ _ _].
  all: try (left; congruence).
  assert (Hin : In t (tasks s)) by (rewrite Hts; by left).
  destruct (q_task s Hq t Hin) as [_ Hdt].
  assert (Hw : forall l x, heap s' = <[l := x]> (heap s) ->
                 pcLoc (taskPc t) = Some l -> l = loc ->
                 exists t pc,
                   tasks s = [t] /\ pcLoc (taskPc t) = Some loc
                   /\ tasks s' = [mkTask (taskIndex t) (taskHook t) (taskArg t) pc]
                   /\ targetIndex s' = targetIndex s
                   /\ owner s loc (targetIndex s)).
  { intros l x _ Hpc ->. exists t, pc. split_and!; try done.
    destruct (Hat t loc Hin Hpc) as [Ha _]. by exists (taskHook t), (taskArg t). }
  unfold calls in Hc.
  destruct (taskPc t) eqn:Et, pc; try done.
  all: repeat match goal with
         | H : _ /\ _ |- _ => destruct H
         | H : exists _, _ |- _ => destruct H
         end; subst.
  all: try (left; congruence).
  - destruct r as [e|[pulled|]]; try (left; congruence).
    destruct (decide (loc0 = loc)) as [Heq|Hne]; [right; by eapply Hw|].
    left. match goal with H : heap s' = _ |- _ => rewrite H in Ho' end.
    rewrite list_lookup_insert_ne in Ho' by done. congruence.
  - destruct (decide (loc0 = loc)) as [Heq|Hne]; [right; by eapply Hw|].
    left. match goal with H : heap s' = _ |- _ => rewrite H in Ho' end.
    rewrite list_lookup_insert_ne in Ho' by done. congruence.
Qed.

Lemma pulledProps_none p fields :
  pull p = None -> pulledProps p fields = fields.
Proof. unfold pulledProps. by intros ->. Qed.

Lemma objInv_step objects s s' :
  queueInv s -> argInv s -> objInv objects s -> Move s s' ->
  objInv objects s'.
Proof.
  intros Hq Hargs [Hlen0 Hobj] Hmove.
  destruct (move_mono s s' Hmove) as (Hlen & Hle & Harg & Hdecl).
  split; [congruence|].
  intros loc o0 o' Ho0 Ho'.
  destruct (heap s !! loc) as [o|] eqn:Ho.
  2: { apply lookup_ge_None in Ho. apply lookup_lt_Some in Ho'. lia. }
  destruct (Hobj loc o0 o Ho0 Ho) as [Hfree Hown].
  pose proof (move_heap s s' loc o o' Hq Hargs Hmove Ho Ho') as Hheap.
  destruct Hargs as [Hat Hab].
  pose proof (q_cursor s Hq) as Hcur.
  split.
  - (* no declaration stands for the object *)
    intros Hno.
    assert (Hno_s : forall j, ~ owner s loc j).
    { intros j Hj. eapply Hno, owner_mono; eauto. }
    destruct Hheap as [->|(t & pc & _ & _ & _ & _ & Hc)]; [by apply Hfree|].
    by destruct (Hno_s _ Hc).
  - intros i h arg Hdi Hai Huniq'.
    assert (Huniq : forall j, owner s loc j -> j = i).
    { intros j Hj. eapply Huniq', owner_mono; eauto. }
    assert (Hcase : (declared s !! i = Some (h, arg) /\ argLoc s arg = Some loc)
                    \/ (forall j, ~ owner s loc j)
                       /\ (declared s !! i = None \/ argLoc s arg = None)).
    { destruct (declared s !! i) as [d|] eqn:Ed.
      - pose proof (Hdecl _ _ Ed) as Ed'. rewrite Hdi in Ed'.
        injection Ed' as <-.
        destruct (argLoc s arg) as [l|] eqn:Ea.
        + pose proof (Harg _ _ Ea) as Ea'. rewrite Hai in Ea'.
          injection Ea' as <-. by left.
        + right. split; [|by right].
          intros j Hj. pose proof (Huniq j Hj) as ->.
          destruct Hj as (h' & arg' & Hd' & Ha'). congruence.
      - right. split; [|by left].
        intros j Hj. pose proof (Huniq j Hj) as ->.
        destruct Hj as (h' & arg' & Hd' & Ha'). congruence. }
    destruct Hcase as [[Hds Has]|[Hno Hnew]].
    2: { (* the declaration is new, or its promise is fulfilled only now *)
      specialize (Hfree Hno).
      assert (o' = o) as ->.
      { destruct Hheap as [->|(t & pc & _ & _ & _ & _ & Hc)]; [done|].
        by destruct (Hno _ Hc). }
      assert (Hlate : targetIndex s' <= i
                      /\ forall t, In t (tasks s') -> targetIndex s' = i ->
                                   taskPc t = TTarget).
      { destruct Hmove as [_ Hp Hd Hi _ _ _
                          |pid x _ _ _ Hd Hi Hts _ _
                          |h' arg' Hd _ Hp Hi _ _ Hts
                          |h' arg' _ _ _ _ _ _ _ Hp Hd _
                          |t pc _ _ _ Hp Hd _ _ _
                          |t _ _ _ Hp Hd _ _ _
                          |t _ _ _ _ Hp Hd _ _].
        all: try (rewrite Hd in Hdi; rewrite (argLoc_ext s s' arg Hp) in Hai;
                  destruct Hnew; congruence).
        - (* a promise is fulfilled *)
          rewrite Hd in Hdi. destruct Hnew as [Hnew|Hnew]; [congruence|].
          rewrite Hi, Hts. split.
          + destruct (decide (i < targetIndex s)) as [Hlt|]; [|lia].
            destruct (Hab i h arg Hlt Hdi) as (l & Hl & _). congruence.
          + intros t Hin Hti. destruct (q_task s Hq t Hin) as [_ Hdt].
            rewrite Hti, Hdi in Hdt. injection Hdt as Hh Ha.
            destruct (taskPc t) eqn:Et; [done|..].
            all: destruct (Hat t loc0 Hin) as [Hl _]; [by rewrite Et|].
            all: congruence.
        - (* a declaration *)
          rewrite (argLoc_ext s s' arg Hp) in Hai.
          destruct Hnew as [Hnew|Hnew]; [|congruence].
          apply lookup_ge_None in Hnew. rewrite Hi. split; [lia|].
          intros t Hin Hti.
          destruct Hts as [Hts|(_ & _ & Hts)]; rewrite Hts in Hin.
          + destruct (q_task s Hq t Hin) as [_ Hdt].
            apply lookup_lt_Some in Hdt. lia.
          + by destruct Hin as [<-|[]]. }
      destruct Hlate as [Hle' Htt].
      split_and!; try done.
      - intros t Hin Hti. by rewrite (Htt t Hin Hti).
      - lia. }
    (* the declaration stood for the object before the step *)
    destruct (Hown i h arg Hds Has Huniq) as (P1 & P2 & P3 & P4).
    assert (Hsame : heap s' = heap s -> o' = o) by (intros Hh; congruence).
    destruct Hmove as [Hh Hp Hd Hi Hts Hm Hsp
                      |pid x _ _ Hh Hd Hi Hts Hm Hsp
                      |h' arg' Hd Hh Hp Hi Hm Hsp Hts
                      |h' arg' Hts0 Hpend Hdc Hts Hm Hsp Hh Hp Hd Hi
                      |t pc Hts0 Hts Hc Hp Hd Hi Hm Hsp
                      |t Hts0 Hts Hh Hp Hd Hi Hm Hsp
                      |t Hts0 Hts Hpc Hh Hp Hd Hi Hsp].
    + rewrite (Hsame Hh), Hi, Hts, Hm, Hsp. done.
    + rewrite (Hsame Hh), Hi, Hts, Hm, Hsp. done.
    + (* a declaration *)
      rewrite (Hsame Hh), Hi, Hm. split_and!; try done.
      * intros Hti Hnil Hq'. apply P2; [done| |].
        -- destruct Hts as [Hts|(_ & _ & Hts)]; congruence.
        -- destruct Hsp as [Hsp|Hsp]; [by rewrite <- Hsp|].
           by rewrite Hsp in Hds.
      * intros t Hin Hti. apply P3; [|done].
        destruct Hts as [Hts|(_ & Hlen' & _)]; [by rewrite <- Hts|].
        apply lookup_lt_Some in Hds. lia.
    + (* an activation is entered *)
      rewrite (Hsame Hh), Hi, Hts. split_and!; try done.
      intros t [<-|[]] Hti. simpl. by apply P2.
    + (* an activation goes on *)
      assert (Hin : In t (tasks s)) by (rewrite Hts0; by left).
      destruct (q_task s Hq t Hin) as [_ Hdt].
      destruct (decide (targetIndex s = i)) as [Hti|Hne].
      2: { assert (o' = o) as ->.
           { destruct Hheap as [->|(? & ? & _ & _ & _ & _ & Hc')]; [done|].
             by destruct Hne, (Huniq _ Hc'). }
           rewrite Hi, Hts. split_and!; done. }
      rewrite Hti, Hds in Hdt. injection Hdt as Hth Hta.
      rewrite Hi, Hts. split_and!; try lia; try done.
      intros t' [<-|[]] _. simpl.
      specialize (P3 t Hin Hti).
      assert (Hloc : forall l, pcLoc (taskPc t) = Some l -> l = loc).
      { intros l Hl. destruct (Hat t l Hin Hl) as [Ha _]. congruence. }
      revert P3. unfold calls in Hc.
      destruct (taskPc t) eqn:Et, pc; try done.
      all: repeat match goal with
             | H : _ /\ _ |- _ => destruct H
             | H : exists _, _ |- _ => destruct H
             end; subst.
      all: intros P3.
      all: try (rewrite Hsame by done; done).
      * (* [pull] is called on the object as the script made it *)
        rewrite Hsame by done. split; [done|].
        match goal with
        | H1 : argLoc s _ = Some ?l, H2 : heap s !! ?l = Some ?x |- _ =>
            assert (l = loc) as -> by congruence;
            assert (x = o) as -> by congruence
        end.
        eexists. split; [done|]. by rewrite P3.
      * rewrite Hsame by done. by rewrite pulledProps_none.
      * (* [Object.assign(target, pulled)] *)
        destruct P3 as [P3 (f & Hf & Hr)].
        pose proof (Hloc _ eq_refl) as ->.
        match goal with
        | H2 : heap s !! loc = Some ?x |- _ => assert (x = o) as -> by congruence
        end.
        unfold pulledProps. rewrite Hf, <- Hr.
        destruct r as [e|[pulled|]]; try (rewrite Hsame by done; done).
        match goal with H : heap s' = _ |- _ => rewrite H in Ho' end.
        rewrite list_lookup_insert_eq in Ho' by (by eapply lookup_lt_Some).
        injection Ho' as <-. simpl. by rewrite P3.
      * (* [defineTargetId] *)
        pose proof (Hloc _ eq_refl) as ->.
        match goal with
        | H2 : heap s !! loc = Some ?x |- _ => assert (x = o) as -> by congruence
        end.
        match goal with H : heap s' = _ |- _ => rewrite H in Ho' end.
        rewrite list_lookup_insert_eq in Ho' by (by eapply lookup_lt_Some).
        injection Ho' as <-. congruence.
    + (* an activation ends where it is *)
      pose proof (q_one s Hq) as H1. rewrite Hts0 in H1. simpl in H1.
      rewrite (Hsame Hh), Hi, Hts, Hm, Hsp. split_and!; try done.
      intros _ _ [?|Hs]; [lia|]. rewrite Hs in H1. lia.
    + (* an activation returns and the cursor moves *)
      assert (Hin : In t (tasks s)) by (rewrite Hts0; by left).
      rewrite (Hsame Hh), Hi, Hts. split_and!; try done.
      * intros Hlt. apply P1. lia.
      * intros Hlt _ _. apply P1. lia.
      * intros Hlt. destruct (decide (i = targetIndex s)) as [->|Hne].
        -- specialize (P3 t Hin eq_refl). by destruct (taskPc t).
        -- apply P4. lia.
Qed.

(** *** The hand-over of the new target cache *)

Lemma snapInv_step env s l s' :
  queueInv s -> snapInv s -> step env s l = Some s' -> snapInv s'.
Proof.
  intros Hq [Hno|(Hdep & Hmain & Hc)] Hstep.
  2: { (* after the hand-over only promises of the script settle *)
    destruct (q_resolved s Hq Hdep) as (Hts & Hm0 & Hsp & _).
    right. destruct l; simpl in Hstep.
    - unfold declare in Hstep.
      destruct Hmain as [Hm|[r Hm]]; by rewrite Hm in Hstep.
    - unfold settle in Hstep.
      destruct (promises s !! pid) as [[| |]|]; try done.
      injection Hstep as <-. simpl. split_and!; try done.
    - unfold scriptDone in Hstep.
      destruct Hmain as [Hm|[r' Hm]]; by rewrite Hm in Hstep.
    - unfold secretsLoaded in Hstep. by rewrite Hsp in Hstep.
    - unfold runMicrotask in Hstep. by rewrite Hm0 in Hstep.
    - unfold runTask in Hstep. by rewrite Hts in Hstep.
    - unfold mainStep in Hstep.
      destruct Hmain as [Hm|[r Hm]]; rewrite Hm in Hstep; [|done].
      injection Hstep as <-. simpl. split_and!; eauto. }
  assert (Hg : grows noSnapshot (trace s) (trace s')
               \/ deploying s' = DResolved
                  /\ (main s' = MPushing \/ exists r, main s' = MDone r)
                  /\ exists ev tr,
                       trace s' = ev :: tr
                       /\ grows noSnapshot (trace s) tr
                       /\ (ev = EvSetData (newTargetCache s')
                           \/ ev = EvDebugFile (newTargetCache s'))).
  { pose proof (q_phase s Hq) as Hp.
    step_cases Hstep.
    all: try done.
    all: assign.
    all: try solve [left; repeat case_match; grow_with; done].
    all: right.
    all: split_and!;
           [done
           |destruct (dryRun env); eauto
           |eexists _, _; split; [reflexivity|split];
            [repeat case_match; grow_with; done
            |destruct (dryRun env); [right|left]; reflexivity]]. }
  destruct Hg as [Hg|(Hdep & Hmain & ev & tr & Htr & Hg & Hev)].
  - left. eapply grows_Forall; [|exact Hg|exact Hno]. auto.
  - right. split_and!; try done.
    assert (Hno' : Forall noSnapshot tr).
    { eapply grows_Forall; [|exact Hg|exact Hno]. auto. }
    rewrite Forall_forall in Hno'.
    intros c Hin. rewrite Htr in Hin. simpl in Hin.
    destruct Hin as [[Hin|Hin]|[Hin|Hin]].
    all: try (apply list_elem_of_In, Hno' in Hin; done).
    all: destruct Hev; congruence.
Qed.

Lemma run_snapInv env f objects npromises ls s :
  run env f objects npromises ls = inr (Some s) ->
  queueInv s /\ argInv s /\ objInv objects s /\ snapInv s.
Proof.
  unfold run. destruct (start _ _ _ _) as [|s0] eqn:E; [done|].
  intros [= Hx].
  eapply (exec_invariant env
            (fun s => queueInv s /\ argInv s /\ objInv objects s /\ snapInv s));
    [| |exact Hx].
  - intros s1 l s2 (Hq & Ha & Ho & Hs) Hstep.
    pose proof (step_move env s1 l s2 Hq Hstep) as Hmove.
    split_and!.
    + by eapply queueInv_step.
    + by eapply argInv_step.
    + by eapply objInv_step.
    + by eapply snapInv_step.
  - split_and!; [by eapply start_queueInv|..].
    all: apply start_state in E as [-> _].
    + split; simpl; [done|]. intros i h arg Hi. lia.
    + split; simpl; [done|]. intros loc o0 o Ho0 Ho.
      assert (o = o0) as -> by congruence.
      split; [done|]. by intros [|i] h arg Hd.
    + left. constructor.
Qed.

(** C10: the new target cache that [deploy] hands over holds, under each
    plugin name, the second argument of every declaration made through that
    plugin, in the order of the declarations.  For a declaration that passed a
    promise this is the promise, although the promise has been fulfilled with
    a target object by then and [pull] has been merged into that object; for a
    declaration that passed an object it is the object as [addTarget] has left
    it, with the pulled fields merged in. *)
Theorem snapshot_holds_declared_values env f objects npromises ls s c :
  run env f objects npromises ls = inr (Some s) ->
  In (EvSetData c) (trace s) \/ In (EvDebugFile c) (trace s) ->
  nodupKeys c = true
  /\ (forall key,
        cachedUnder key c
        = map (fun d => cachedTarget s d.2) (declaredFor key (declared s)))
  /\ (forall i h pid,
        declared s !! i = Some (h, ArgPromise pid) ->
        cachedTarget s (ArgPromise pid) = CachedPromise pid
        /\ exists loc o,
             promises s !! pid = Some (Fulfilled loc)
             /\ heap s !! loc = Some o
             /\ forall o0,
                  objects !! loc = Some o0 ->
                  (forall j, owner s loc j -> j = i) ->
                  props o = pulledProps (plugin h) (props o0))
  /\ (forall i h loc o0,
        declared s !! i = Some (h, ArgObj loc) ->
        objects !! loc = Some o0 ->
        (forall j, owner s loc j -> j = i) ->
        cachedTarget s (ArgObj loc)
        = CachedObj (pulledProps (plugin h) (props o0))).
Proof.
  intros Hrun Hin.
  destruct (run_snapInv _ _ _ _ _ _ Hrun) as (Hq & [_ Hab] & [_ Hobj] & Hsnap).
  destruct Hsnap as [Hno|(Hdep & _ & Hc)].
  { rewrite Forall_forall in Hno.
    destruct Hin as [Hin|Hin]; apply list_elem_of_In, Hno in Hin; done. }
  rewrite (Hc c Hin).
  destruct (q_resolved s Hq Hdep) as (_ & _ & _ & Hend & _).
  assert (Hdone : forall i h arg loc o0,
             declared s !! i = Some (h, arg) -> argLoc s arg = Some loc ->
             objects !! loc = Some o0 ->
             (forall j, owner s loc j -> j = i) ->
             forall o, heap s !! loc = Some o ->
                       props o = pulledProps (plugin h) (props o0)).
  { intros i h arg loc o0 Hd Ha Ho0 Huniq o Ho.
    destruct (Hobj loc o0 o Ho0 Ho) as [_ Hown].
    destruct (Hown i h arg Hd Ha Huniq) as (_ & _ & _ & P4).
    apply P4. apply lookup_lt_Some in Hd. lia. }
  split_and!.
  - apply newTargetCache_nodupKeys.
  - apply newTargetCache_under.
  - intros i h pid Hd. split; [done|].
    destruct (Hab i h (ArgPromise pid)) as (loc & Ha & Hl); [|done|].
    { apply lookup_lt_Some in Hd. lia. }
    destruct (lookup_lt_is_Some_2 _ _ Hl) as [o Ho].
    exists loc, o. split_and!; try done.
    + simpl in Ha. by repeat case_match; simplify_eq.
    + intros o0 Ho0 Huniq. by eapply (Hdone i h (ArgPromise pid) loc).
  - intros i h loc o0 Hd Ho0 Huniq.
    destruct (Hab i h (ArgObj loc)) as (loc' & Ha & Hl); [|done|].
    { apply lookup_lt_Some in Hd. lia. }
    injection Ha as <-.
    destruct (lookup_lt_is_Some_2 _ _ Hl) as [o Ho].
    simpl. rewrite Ho. simpl. f_equal.
    by eapply (Hdone i h (ArgObj loc) loc).
Qed.

Lemma snapshot_holds_declared_values_witness :
  exists s,
    run Ex.regionalEnv (Ex.store []) [Ex.x1; Ex.y1] 1 Ex.objectAndPromise
    = inr (Some s)
    /\ main s = MPushing
    /\ targetsWrites (files s)
       = [[("web", ("web.js",
                    [CachedObj [("name", VStr "x"); ("size", VNum 1);
                                ("region", VStr "eu")];
                     CachedPromise 0]))]]
    /\ forall i h loc o0,
         declared s !! i = Some (h, ArgObj loc) ->
         [Ex.x1; Ex.y1] !! loc = Some o0 ->
         (forall j, owner s loc j -> j = i) ->
         cachedTarget s (ArgObj loc)
         = CachedObj (pulledProps (plugin h) (props o0)).
Proof.
  eexists. split; [vm_compute; reflexivity|].
  split; [reflexivity|]. split; [vm_compute; reflexivity|].
  apply (snapshot_holds_declared_values Ex.regionalEnv (Ex.store [])
           [Ex.x1; Ex.y1] 1 Ex.objectAndPromise _
           [("web", ("web.js",
                     [CachedObj [("name", VStr "x"); ("size", VNum 1);
                                 ("region", VStr "eu")];
                      CachedPromise 0]))]).
  - vm_compute; reflexivity.
  - left. vm_compute. auto.
Defined.

(** *** The next run *)

Lemma sameData_refl v : sameData v v.
Proof.
  induction v as [| | b | n | x | items IH | props IH] using Value_ind';
    try (by apply same_leaf).
  - apply same_props; [done..|]. intros key. unfold getProp.
    destruct (assoc key (fields (VArr items))) as [x|] eqn:E; simpl;
      [|by apply same_leaf].
    apply assoc_In in E.
    by apply (fields_values_In (VArr items) (key, x) (fun v => sameData v v)).
  - apply same_props; [done..|]. intros key. unfold getProp.
    destruct (assoc key (fields (VObj props))) as [x|] eqn:E; simpl;
      [|by apply same_leaf].
    apply assoc_In in E.
    by apply (fields_values_In (VObj props) (key, x) (fun v => sameData v v)).
Qed.

(** A target does not differ from itself. *)
Lemma diffObjects_same fields :
  wfValue (VObj fields) = true ->
  (diffObjects (VObj fields) (VObj fields)).1 = false.
Proof.
  intros Hwf.
  pose proof (proj2 (agree_sameData _ _ Hwf Hwf) (sameData_refl _)) as H.
  unfold agree in H. simpl in H. by apply negb_true_iff in H.
Qed.

Lemma assoc_reload promised key c :
  assoc key (reload promised c)
  = (fun v => mkPluginState v.1 (map (reloadTarget promised) v.2))
      <$> assoc key c.
Proof.
  induction c as [|[k v] c IH]; simpl; [done|].
  by destruct (String.eqb k key).
Qed.

Lemma defineTargetId_id env o v o' :
  defineTargetId env o v = inr o' -> _id o' = Some (toObjectHash env v).
Proof.
  unfold defineTargetId. destruct (_id o) as [old|] eqn:E; [|by intros [= <-]].
  destruct (String.eqb old _) eqn:Eq; [|done].
  apply String.eqb_eq in Eq. intros [= <-]. by rewrite E, Eq.
Qed.

Lemma secondPc_ext h loc o0 store s s' pc :
  heap s' = heap s -> savedTargetsByPlugin s' = savedTargetsByPlugin s ->
  targetCache s' = targetCache s ->
  secondPc h loc o0 store s pc -> secondPc h loc o0 store s' pc.
Proof. unfold secondPc. by intros -> -> ->. Qed.

Section NextRun.

Variable env : Env.
Variable h : DeployHookRef.
Variable loc : nat.
Variable o0 : TargetObj.
Variable store : DeployFile.

Hypothesis Hwf : wfValue (VObj (pulledProps (plugin h) (props o0))) = true.
Hypothesis Hstore :
  forall st, assoc (name (plugin h)) store = Some st ->
             exists rest,
               targets st = mkObj (pulledProps (plugin h) (props o0)) None :: rest.

(** One step of the first activation. *)
Lemma secondInv_taskStep s t s1 opc :
  secondInv h loc o0 store s -> In t (tasks s) ->
  taskHook t = h -> taskArg t = ArgObj loc ->
  taskStep env t s = Some (s1, opc) ->
  targetIndex s1 = targetIndex s
  /\ Forall noCall (trace s1)
  /\ deploying s1 <> DResolved
  /\ microtasks s1 = microtasks s /\ secretsPending s1 = secretsPending s
  /\ declared s1 = declared s /\ tasks s1 = tasks s
  /\ match opc with
     | Some pc => secondPc h loc o0 store s1 pc
     | None => True
     end.
Proof using Hwf Hstore.
  intros (Hi & Htr & Hdep & Hpc & _) Hin Hh Ha Hstep.
  specialize (Hpc t Hin). unfold secondPc in Hpc.
  assert (Hfail : forall e,
             Some (rejectTask (taskIndex t) e s, None) = Some (s1, opc) ->
             targetIndex s1 = targetIndex s
             /\ Forall noCall (trace s1)
             /\ deploying s1 <> DResolved
             /\ microtasks s1 = microtasks s
             /\ secretsPending s1 = secretsPending s
             /\ declared s1 = declared s /\ tasks s1 = tasks s
             /\ match opc with
                | Some pc => secondPc h loc o0 store s1 pc
                | None => True
                end).
  { intros e [= <- <-]. rewrite rejectTask_assign. simpl.
    split_and!; try done; [by constructor|]. by destruct (deploying s). }
  unfold taskStep, callIdentify, reconcile in Hstep.
  rewrite ?Hh, ?Ha in Hstep.
  destruct (taskPc t) as [|l r|l r|l r|l r|l r|l r|l r] eqn:Et; try done.
  - (* [await target] *)
    destruct Hpc as (Ho & Hs & Hc). rewrite Ho in Hstep.
    destruct (pull (plugin h)) as [f|] eqn:Ef; injection Hstep as <- <-.
    + simpl. split_and!; try done; [by constructor|eauto].
    + simpl. rewrite pulledProps_none by done.
      split_and!; try done; try (by constructor); eauto.
  - (* [pull] has answered *)
    destruct Hpc as (-> & Ho & [Hs Hc] & f & Hf & Hr).
    assert (Hp : pulledProps (plugin h) (props o0)
                 = match r with
                   | inr (Some pulled) => objectAssign (props o0) pulled
                   | _ => props o0
                   end).
    { unfold pulledProps. by rewrite Hf, <- Hr. }
    rewrite Ho in Hstep.
    destruct r as [e|[pulled|]]; [by apply (Hfail e)|..];
      injection Hstep as <- <-; unfold secondPc; rewrite Hp; simpl.
    + split_and!; try done; try (by constructor).
      eexists. split;
        [unfold setNth; apply list_lookup_insert_eq; by eapply lookup_lt_Some|].
      done.
    + split_and!; try done; try (by constructor); eauto.
  - (* [identify] has answered *)
    destruct Hpc as (-> & [Hs Hc] & Hr & o & Ho & Hprops).
    rewrite Ho in Hstep.
    destruct r as [e|values]; [by apply (Hfail e)|].
    destruct (defineTargetId env o values) as [e|o'] eqn:Ed;
      [by apply (Hfail e)|].
    pose proof (defineTargetId_props _ _ _ _ Ed) as Hprops'.
    pose proof (defineTargetId_id _ _ _ _ Ed) as Hid'.
    destruct (findSavedStart env t _) as [s2 found] eqn:Ef.
    injection Hstep as <- <-.
    pose proof (findSavedStart_assign env t
                  (set_heap (setNth loc o' (heap s)) s)) as Hs2.
    rewrite Ef in Hs2. simpl in Hs2. subst s2. simpl.
    split_and!; try done.
    + apply Forall_app. split; [|done].
      by apply identifyEvents_Forall.
    + exists o'. split_and!.
      * unfold setNth. apply list_lookup_insert_eq. by eapply lookup_lt_Some.
      * congruence.
      * apply (f_equal snd) in Ef. simpl in Ef. subst found.
        unfold findSavedStart. simpl. rewrite Hh, Hc, Hs.
        destruct (assoc (name (plugin h)) store) as [st|] eqn:Est in |- *;
          [|by intros saved].
        destruct (Hstore st Est) as [rest Hst]. simpl.
        rewrite Hst. simpl. rewrite <- Hr. simpl.
        destruct (allResults _) as [e|xs]; intros saved [= <-].
        eexists _, _. split; [reflexivity|]. simpl. split; [done|].
        by rewrite Hid'.
  - (* [findSavedTarget] has answered: the diff *)
    destruct Hpc as (-> & o & Ho & Hprops & Hhead).
    destruct r as [e|saved]; [by apply (Hfail e)|].
    destruct (Hhead saved eq_refl) as (saved0 & rest & -> & Hp0 & Hid0).
    simpl in Hstep.
    destruct (hasName (name (plugin h)) (savedTargetsByPlugin s));
      simpl in Hstep; rewrite Ho, Hid0 in Hstep.
    all: assert (Hmatch : match _id o with
                          | Some a => match _id o with
                                      | Some b => String.eqb a b
                                      | None => false
                                      end
                          | None => match _id o with
                                    | Some _ => false
                                    | None => true
                                    end
                          end = true)
           by (destruct (_id o); [apply String.eqb_refl|done]).
    all: rewrite Hmatch in Hstep.
    all: rewrite Hp0, Hprops, (diffObjects_same _ Hwf) in Hstep.
    all: simpl in Hstep; injection Hstep as <- <-; simpl.
    all: split_and!; try done; by repeat constructor.
Qed.

(** A step that leaves the activations and the objects alone. *)
Lemma secondInv_frame s s' :
  secondInv h loc o0 store s ->
  targetIndex s' = targetIndex s ->
  grows noCall (trace s) (trace s') ->
  deploying s' <> DResolved ->
  tasks s' = tasks s -> heap s' = heap s ->
  savedTargetsByPlugin s' = savedTargetsByPlugin s ->
  targetCache s' = targetCache s ->
  microtasks s' = microtasks s ->
  secretsPending s' = secretsPending s \/ declared s = [] ->
  length (declared s) <= length (declared s') ->
  secondInv h loc o0 store s'.
Proof.
  intros (Hi & Htr & Hdep & Hpc & Hidle) Hi' Hg Hdep' Hts Hh Hs Hc Hm Hsp Hlen.
  unfold secondInv. rewrite Hi', Hts, Hm. split_and!; try done.
  - eapply grows_Forall; [|exact Hg|exact Htr]. auto.
  - intros t Hin. eapply secondPc_ext; eauto.
  - intros Hnil. destruct (Hidle Hnil) as [Hf|(Hm0 & Hs0 & Hl)].
    + left. eapply secondPc_ext; eauto.
    + right. split_and!; [done| |lia].
      destruct Hsp as [->|Hd]; [done|]. rewrite Hd in Hl. simpl in Hl. lia.
Qed.

(** An activation is entered: it is the first one. *)
Lemma secondInv_start s s' h' arg :
  queueInv s -> secondInv h loc o0 store s ->
  1 <= microtasks s \/ secretsPending s = true ->
  targetIndex s' = targetIndex s ->
  trace s' = EvStart (targetIndex s) :: trace s ->
  deploying s' = deploying s ->
  tasks s' = tasks s ++ [mkTask (targetIndex s) h' arg TTarget] ->
  heap s' = heap s ->
  savedTargetsByPlugin s' = savedTargetsByPlugin s ->
  targetCache s' = targetCache s ->
  secondInv h loc o0 store s'.
Proof.
  intros Hq (Hi & Htr & Hdep & Hpc & Hidle) Hpend Hi' Htr' Hdep' Hts Hh Hs Hc.
  pose proof (q_one s Hq) as H1.
  assert (Hnil : tasks s = []).
  { destruct (tasks s); [done|]. simpl in H1.
    destruct Hpend as [?|Hsp]; [lia|]. rewrite Hsp in H1. lia. }
  destruct (Hidle Hnil) as [Hf|(Hm0 & Hs0 & _)].
  2: { destruct Hpend as [?|Hsp]; [lia|congruence]. }
  unfold secondInv. rewrite Hi', Htr', Hdep', Hts, Hnil. simpl.
  split_and!; try done.
  - by constructor.
  - intros t [<-|[]]. by apply (secondPc_ext h loc o0 store s s' TTarget).
Qed.

Lemma secondInv_step s l s' :
  queueInv s ->
  (forall d, declared s' !! 0%nat = Some d -> d = (h, ArgObj loc)) ->
  secondInv h loc o0 store s -> step env s l = Some s' ->
  secondInv h loc o0 store s'.
Proof using Hwf Hstore.
  intros Hq Hfirst Hinv Hstep.
  pose proof Hinv as (Hi & Htr & Hdep & Hpc & Hidle).
  pose proof (q_phase s Hq) as Hphase.
  destruct l as [h' arg|pid r|r| | |n|]; simpl in Hstep.
  - (* a declaration waits: the cursor is on the first one *)
    unfold declare in Hstep. destruct (main s); try done.
    injection Hstep as <-. rewrite addTargetCtx_assign. cbv zeta.
    rewrite Hi.
    assert (Hhead : negb (length (declared s) =? 0)%nat
                    && (length (declared s) =? 0)%nat = false)
      by (by destruct (length (declared s) =? 0)%nat).
    rewrite Hhead.
    eapply secondInv_frame; [exact Hinv|simpl; try done..].
    + apply grows_refl.
    + destruct (length (declared s) =? 0)%nat eqn:E0; [|by left].
      right. apply Nat.eqb_eq in E0. by destruct (declared s).
    + rewrite length_app. lia.
  - (* a promise settles *)
    unfold settle in Hstep. destruct (promises s !! pid) as [[| |]|]; try done.
    injection Hstep as <-.
    eapply secondInv_frame; [exact Hinv|simpl; try done..];
      [apply grows_refl|by left].
  - (* the deploy file has loaded *)
    unfold scriptDone in Hstep. destruct (main s); try done.
    destruct r as [e|[]]; injection Hstep as <-.
    + rewrite catchMain_assign.
      eapply secondInv_frame; [exact Hinv|simpl; try done..]; [|by left].
      repeat case_match; grow_with; done.
    + eapply secondInv_frame; [exact Hinv|simpl; try done..];
        [apply grows_refl|by left].
  - (* the secrets are loaded *)
    unfold secretsLoaded in Hstep.
    destruct (secretsPending s) eqn:Esp; [|done].
    simpl in Hstep. destruct (declared s !! 0%nat) as [[h' arg]|]; [|done].
    rewrite Hi in Hstep. simpl in Hstep. injection Hstep as <-.
    eapply (secondInv_start s _ h' arg); [done|done|by right|simpl..];
      rewrite ?Hi; done.
  - (* the microtask *)
    unfold runMicrotask in Hstep.
    destruct (microtasks s) as [|m] eqn:Em; [done|].
    simpl in Hstep. rewrite Hi in Hstep.
    pose proof (q_one s Hq) as H1. rewrite Em in H1.
    assert (Hnil : tasks s = []) by (destruct (tasks s); [done|simpl in H1; lia]).
    destruct (Hidle Hnil) as [Hf|(Hm0 & _)]; [|lia].
    destruct (declared s !! 0%nat) as [[h' arg]|]; injection Hstep as <-.
    + eapply (secondInv_start s _ h' arg);
        [done|done|left; lia|simpl; rewrite ?Hi; done..].
    + pose proof (q_micro s Hq) as Hmic. rewrite Em, Hi in Hmic.
      destruct (declared s) eqn:Ed; [simpl in Hmic; lia|].
      split_and!; simpl; rewrite ?Hnil; try done.
      intros _. left.
      by apply (secondPc_ext h loc o0 store s (set_microtasks m s) TTarget).
  - (* the first activation goes on *)
    unfold runTask in Hstep.
    destruct (tasks s !! n) as [t|] eqn:Et; [|done].
    destruct (queueInv_task s n t Hq Et)
      as (Hts & -> & Hm0 & Hs0 & Hti & Hdt & Hlt).
    assert (Hin : In t (tasks s)) by (rewrite Hts; by left).
    destruct (taskStep env t s) as [[s1 opc]|] eqn:Estep; [|done].
    assert (Hd1 : declared s' = declared s1 /\ targetIndex s' = targetIndex s1
                  /\ trace s' = trace s1 /\ deploying s' = deploying s1
                  /\ heap s' = heap s1
                  /\ savedTargetsByPlugin s' = savedTargetsByPlugin s1
                  /\ targetCache s' = targetCache s1
                  /\ microtasks s' = microtasks s1
                  /\ secretsPending s' = secretsPending s1
                  /\ tasks s' = match opc with
                                | Some pc =>
                                    setNth 0 (mkTask (taskIndex t) (taskHook t)
                                                (taskArg t) pc) (tasks s1)
                                | None => delete 0%nat (tasks s1)
                                end).
    { destruct opc; injection Hstep as <-; simpl; done. }
    destruct Hd1 as (Hd' & Hi' & Htr' & Hdep' & Hh' & Hs' & Hc' & Hm' & Hsp' & Hts').
    assert (Hd1 : forall s1' opc',
               taskStep env t s = Some (s1', opc') -> declared s1' = declared s).
    { intros s1' opc' Hx. unfold taskStep, reconcile, callIdentify in Hx.
      break_hyp Hx.
      all: repeat match goal with
             | E : findSavedStart ?env ?t ?x = (?s0, _) |- _ =>
                 let Hy := fresh in
                 pose proof (findSavedStart_assign env t x) as Hy;
                 rewrite E in Hy; simpl in Hy; subst s0; clear E
             end.
      all: subst; assign; done. }
    pose proof (Hd1 _ _ Estep) as Hds.
    rewrite Hi in Hdt. rewrite Hd', Hds in Hfirst.
    pose proof (Hfirst _ Hdt) as [= Hth Hta].
    destruct (secondInv_taskStep s t s1 opc Hinv Hin Hth Hta Estep)
      as (Hi1 & Htr1 & Hdep1 & Hm1 & Hsp1 & _ & Hts1 & Hpc1).
    unfold secondInv.
    rewrite Hi', Htr', Hdep', Hm', Hsp', Hts', Hd', Hi1, Hm1, Hsp1, Hts1, Hts, Hds.
    split_and!; try done.
    + destruct opc as [pc|]; simpl; [|done].
      intros t' [<-|[]]. by apply (secondPc_ext h loc o0 store s1 s' pc).
    + destruct opc as [pc|]; simpl; [done|]. intros _. right.
      split_and!; try done. lia.
  - (* [deploy] itself *)
    unfold mainStep in Hstep.
    destruct (main s) as [| |p r rest k|e i| |r] eqn:Em; try done.
    + destruct (deploying s) as [| | |e] eqn:Ed; try done.
      injection Hstep as <-. rewrite catchMain_assign.
      eapply secondInv_frame; [exact Hinv|simpl; try done..];
        [|by rewrite Ed|by left].
      repeat case_match; grow_with; done.
    + destruct (revertFns s !! i) as [fn|]; [|done].
      destruct (revertResult fn) as [e'|[]]; injection Hstep as <-.
      * eapply secondInv_frame; [exact Hinv|simpl; try done..]; [|by left].
        unfold leave, finally, emit. simpl. grow_with; done.
      * rewrite revertLoop_assign.
        eapply secondInv_frame; [exact Hinv|simpl; try done..]; [|by left].
        repeat case_match; grow_with; done.
Qed.

End NextRun.

Lemma move_declared s s' : Move s s' -> declared s `prefix_of` declared s'.
Proof.
  intros [_ _ Hd _ _ _ _
         |pid x _ _ _ Hd _ _ _ _
         |h arg Hd _ _ _ _ _ _
         |h arg _ _ _ _ _ _ _ _ Hd _
         |t pc _ _ _ _ Hd _ _ _
         |t _ _ _ _ Hd _ _ _
         |t _ _ _ _ _ Hd _ _]; rewrite Hd; try done.
  by apply prefix_app_r.
Qed.

(** What the store of the next run holds for the first declaration of a run
    that has handed over its target cache. *)
Lemma handed_over_first env f objects npromises ls s c promised h loc o0 :
  run env f objects npromises ls = inr (Some s) ->
  In (EvSetData c) (trace s) ->
  declared s !! 0%nat = Some (h, ArgObj loc) ->
  (forall j, owner s loc j -> j = 0%nat) ->
  objects !! loc = Some o0 ->
  forall st, assoc (name (plugin h)) (reload promised c) = Some st ->
             exists rest,
               targets st
               = mkObj (pulledProps (plugin h) (props o0)) None :: rest.
Proof.
  intros Hrun Hin Hd Huniq Ho0 st Hst.
  destruct (run_snapInv _ _ _ _ _ _ Hrun) as (Hq & [_ Hab] & [_ Hobj] & Hsnap).
  destruct Hsnap as [Hno|(Hdep & _ & Hc)].
  { rewrite Forall_forall in Hno. apply list_elem_of_In, Hno in Hin. done. }
  rewrite (Hc c (or_introl Hin)) in Hst.
  destruct (q_resolved s Hq Hdep) as (_ & _ & _ & Hend & _).
  assert (Hlt : 0 < targetIndex s) by (apply lookup_lt_Some in Hd; lia).
  destruct (Hab 0%nat h (ArgObj loc) Hlt Hd) as (loc' & [= <-] & Hl).
  destruct (lookup_lt_is_Some_2 _ _ Hl) as [o Ho].
  destruct (Hobj loc o0 o Ho0 Ho) as [_ Hown].
  destruct (Hown 0%nat h (ArgObj loc) Hd eq_refl Huniq) as (_ & _ & _ & P4).
  specialize (P4 Hlt).
  rewrite assoc_reload in Hst.
  pose proof (newTargetCache_under s (name (plugin h))) as Hu.
  unfold cachedUnder in Hu.
  destruct (assoc (name (plugin h)) (newTargetCache s)) as [[hf ts]|];
    [|done].
  injection Hst as <-. simpl. rewrite Hu.
  destruct (declared s) as [|d ds]; [done|]. injection Hd as ->.
  unfold declaredFor. simpl. rewrite String.eqb_refl. simpl.
  rewrite Ho. simpl. rewrite P4. eauto.
Qed.

Lemma run_secondInv env f objects npromises ls s h loc o0 :
  wfValue (VObj (pulledProps (plugin h) (props o0))) = true ->
  (forall st, assoc (name (plugin h)) (targetsYaml f) = Some st ->
              exists rest,
                targets st
                = mkObj (pulledProps (plugin h) (props o0)) None :: rest) ->
  objects !! loc = Some o0 ->
  run env f objects npromises ls = inr (Some s) ->
  (forall d, declared s !! 0%nat = Some d -> d = (h, ArgObj loc)) ->
  queueInv s /\ secondInv h loc o0 (targetsYaml f) s.
Proof.
  intros Hwf Hstore Ho0. unfold run.
  destruct (start _ _ _ _) as [|s0] eqn:E; [done|]. intros [= Hx].
  assert (H : queueInv s
              /\ ((forall d, declared s !! 0%nat = Some d -> d = (h, ArgObj loc)) ->
                  secondInv h loc o0 (targetsYaml f) s)); [|tauto].
  eapply (exec_invariant env
            (fun s => queueInv s
                      /\ ((forall d, declared s !! 0%nat = Some d ->
                                     d = (h, ArgObj loc)) ->
                          secondInv h loc o0 (targetsYaml f) s)));
    [| |exact Hx].
  - intros s1 l s2 [Hq Hinv] Hstep. split; [by eapply queueInv_step|].
    intros Hfirst.
    pose proof (move_declared _ _ (step_move env s1 l s2 Hq Hstep)) as Hpre.
    eapply secondInv_step; eauto. apply Hinv.
    intros d Hd. apply Hfirst. by eapply prefix_lookup_Some.
  - split; [by eapply start_queueInv|]. intros _.
    apply start_state in E as [-> _].
    unfold secondInv. simpl. split_and!; try done. intros _. by left.
Qed.




(** * Further properties of the code *)

(** ** [equalArrays] *)

Lemma equalArrays_cons o olds v news :
  equalArrays (o :: olds) (v :: news) = agree o v && equalArrays olds news.
Proof.
  unfold equalArrays, agree. cbn [equalArraysOf length Nat.eqb head tail default].
  destruct (length olds =? length news)%nat; simpl.
  2: { by rewrite andb_false_r. }
  destruct (isPlainObject o && isPlainObject v) eqn:Hp.
  - by destruct (diffObjects o v).1.
  - destruct (isArray o && isArray v) eqn:Ha.
    + apply isArray_isPlainObject in Ha. congruence.
    + by destruct (strictEq o v).
Qed.

Lemma equalArrays_Forall2 olds news :
  equalArrays olds news = true
  <-> Forall2 (fun o v => agree o v = true) olds news.
Proof.
  revert news. induction olds as [|o olds IH]; intros [|v news].
  - split; [constructor|done].
  - split; [done|inversion 1].
  - split; [done|inversion 1].
  - rewrite equalArrays_cons, andb_true_iff, IH. split.
    + intros [H1 H2]. by constructor.
    + inversion 1; subst. done.
Qed.

(** X1: [equalArrays] answers [true] exactly for arrays of one length whose
    elements agree pairwise, and then [diffObjects] finds no difference
    between the two arrays either.  Inside both functions the branch for two
    arrays is never taken: two arrays are two objects for [isPlainObject],
    whose branch comes first. *)
Theorem equalArrays_elementwise olds news :
  (equalArrays olds news = true
   <-> Forall2 (fun o v => agree o v = true) olds news)
  /\ (equalArrays olds news = true ->
      (diffObjects (VArr olds) (VArr news)).1 = false)
  /\ (forall a b, isArray a && isArray b = true ->
                  isPlainObject a && isPlainObject b = true).
Proof.
  split_and!; [apply equalArrays_Forall2| |apply isArray_isPlainObject].
  intros H%equalArrays_Forall2. apply diffObjects_false. split.
  - intros [k v] Hin. simpl in Hin. simpl.
    pose proof (indexed_assoc_Forall2 _ _ _ H 0%nat k) as Hk.
    rewrite (nodupKeys_assoc _ k v (indexed_nodupKeys _ _) Hin) in Hk.
    unfold getProp. simpl.
    destruct (assoc k (indexed 0 olds)); [done|by destruct Hk].
  - intros [k v] Hin Hhas. simpl in Hin. unfold hasProp in Hhas.
    simpl in Hhas.
    pose proof (indexed_assoc_Forall2 _ _ _ H 0%nat k) as Hk.
    rewrite (nodupKeys_assoc _ k v (indexed_nodupKeys _ _) Hin) in Hk.
    by destruct (assoc k (indexed 0 news)).
Qed.

(** [equalArrays] is the stricter of the two: an array and the same array
    with one more element that is [undefined] are unequal for it, and no
    different for [diffObjects]. *)
Lemma equalArrays_counts_undefined :
  equalArrays [VNum 1] [VNum 1; VUndef] = false
  /\ (diffObjects (VArr [VNum 1]) (VArr [VNum 1; VUndef])).1 = false.
Proof. split; vm_compute; reflexivity. Qed.

(** ** The verdict of the diff *)

Lemma sameData_sym a b : sameData a b -> sameData b a.
Proof.
  induction 1 as [a Ha|a b Ha Hb _ IH]; [by apply same_leaf|].
  by apply same_props.
Qed.

Lemma sameData_trans a b : sameData a b -> forall c, sameData b c -> sameData a c.
Proof.
  induction 1 as [a Ha|a b Ha Hb Hk IH]; intros c Hbc; [done|].
  inversion Hbc as [b' Hb'|b' c' Hb' Hc Hk']; subst; [congruence|].
  apply same_props; [done..|]. intros key. by apply IH.
Qed.

Lemma differs_sameData a b :
  wfValue a = true -> wfValue b = true ->
  isPlainObject a = true -> isPlainObject b = true ->
  (diffObjects a b).1 = false <-> sameData a b.
Proof.
  intros Hwa Hwb Ha Hb. rewrite <- (agree_sameData _ _ Hwb Hwa).
  unfold agree. rewrite Ha, Hb. simpl. by rewrite negb_true_iff.
Qed.



(** ** [defineTargetId] *)



(** ** [getKillableTargets] *)

Lemma getKillableTargets_cons env key state rest reused :
  getKillableTargets env ((key, state) :: rest) reused
  = match (match pluginNamed key (deployPlugins env) with
           | Some p => inr p
           | None => loadDeployPlugin env (hook state)
           end) with
    | inl e => inl e
    | inr p =>
        match getKillableTargets env rest reused with
        | inl e => inl e
        | inr more =>
            inr (map (fun j => (p, (key, j)))
                     (List.filter (fun j => negb (hasSaved (key, j) reused))
                                  (seq 0 (length (targets state))))
                 ++ more)
        end
    end.
Proof. reflexivity. Qed.

(** X4: when [getKillableTargets] returns, it returns the saved targets
    that no declaration has reused, all of them and no others, each with the
    plugin registered under the name of its entry or else loaded from the
    hook of the entry. *)
Theorem getKillableTargets_exact env targetsFile reused killables :
  getKillableTargets env targetsFile reused = inr killables ->
  (forall p ref,
      In (p, ref) killables ->
      hasSaved ref reused = false
      /\ exists state,
           In (ref.1, state) targetsFile /\ ref.2 < length (targets state)
           /\ match pluginNamed ref.1 (deployPlugins env) with
              | Some p' => p = p'
              | None => loadDeployPlugin env (hook state) = inr p
              end)
  /\ (forall key state j,
        In (key, state) targetsFile -> j < length (targets state) ->
        hasSaved (key, j) reused = false ->
        exists p, In (p, (key, j)) killables).
Proof.
  revert killables.
  induction targetsFile as [|[key state] rest IH]; intros killables.
  - intros [= <-]. split; [by intros p ref []|by intros key state j []].
  - rewrite getKillableTargets_cons.
    destruct (match pluginNamed key (deployPlugins env) with
              | Some p => inr p
              | None => loadDeployPlugin env (hook state)
              end) as [e|p] eqn:Ep; [done|].
    destruct (getKillableTargets env rest reused) as [e|more]; [done|].
    intros [= <-]. destruct (IH more eq_refl) as [IH1 IH2]. split.
    + intros p' ref [Hin|Hin]%in_app_or.
      * apply in_map_iff in Hin as (j & [= <- <-] & Hj).
        apply filter_In in Hj as [Hj Hr]. apply in_seq in Hj.
        apply negb_true_iff in Hr. split; [done|].
        exists state. simpl. split_and!; [by left|lia|].
        by destruct (pluginNamed key (deployPlugins env)); simplify_eq.
      * destruct (IH1 p' ref Hin) as (Hr & st & Hst & Hj & Hp).
        split; [done|]. exists st. split_and!; try done. by right.
    + intros key' state' j [[= <- <-]|Hin] Hj Hr.
      * exists p. apply in_or_app. left. apply in_map_iff. exists j.
        split; [done|]. apply filter_In. split; [apply in_seq; lia|].
        by rewrite Hr.
      * destruct (IH2 key' state' j Hin Hj Hr) as [p' Hp'].
        exists p'. apply in_or_app. by right.
Qed.

Lemma getKillableTargets_exact_witness :
  (forall p ref,
      In (p, ref) [(Ex.web, ("web", 1%nat))] ->
      hasSaved ref [("web", 0%nat)] = false
      /\ exists state,
           In (ref.1, state) (targetsYaml (Ex.store [Ex.x1; Ex.y1]))
           /\ ref.2 < length (targets state)
           /\ match pluginNamed ref.1 (deployPlugins (Ex.envOf false "")) with
              | Some p' => p = p'
              | None =>
                  loadDeployPlugin (Ex.envOf false "") (hook state) = inr p
              end)
  /\ (forall key state j,
        In (key, state) (targetsYaml (Ex.store [Ex.x1; Ex.y1])) ->
        j < length (targets state) ->
        hasSaved (key, j) [("web", 0%nat)] = false ->
        exists p, In (p, (key, j)) [(Ex.web, ("web", 1%nat))]).
Proof.
  apply (getKillableTargets_exact (Ex.envOf false "")
           (targetsYaml (Ex.store [Ex.x1; Ex.y1])) [("web", 0%nat)]).
  reflexivity.
Defined.

(** X5: [getKillableTargets] throws exactly when the target cache has an
    entry whose plugin is not registered and cannot be loaded from the hook
    of the entry -- whether or not a target of that entry is left to kill;
    the error is the one of the first such entry. *)
Theorem getKillableTargets_throws env targetsFile reused e :
  getKillableTargets env targetsFile reused = inl e
  <-> exists before key state after,
        targetsFile = before ++ (key, state) :: after
        /\ pluginNamed key (deployPlugins env) = None
        /\ loadDeployPlugin env (hook state) = inl e
        /\ forall key' state',
             In (key', state') before ->
             pluginNamed key' (deployPlugins env) = None ->
             exists p, loadDeployPlugin env (hook state') = inr p.
Proof.
  induction targetsFile as [|[key state] rest IH].
  - split; [done|]. intros (before & k & st & after & H & _). by destruct before.
  - rewrite getKillableTargets_cons. split.
    + destruct (pluginNamed key (deployPlugins env)) as [p|] eqn:Ep.
      * destruct (getKillableTargets env rest reused) as [e'|more] eqn:Er;
          [|done].
        intros [= ->]. apply proj1 in IH.
        destruct (IH eq_refl) as (before & k & st & after & -> & Hk & Hl & Hb).
        exists ((key, state) :: before), k, st, after. split_and!; try done.
        intros key' state' [[= <- <-]|Hin] Hn; [congruence|eauto].
      * destruct (loadDeployPlugin env (hook state)) as [e'|p] eqn:El.
        -- intros [= ->]. exists [], key, state, rest. by split_and!.
        -- destruct (getKillableTargets env rest reused) as [e'|more] eqn:Er;
             [|done].
           intros [= ->]. apply proj1 in IH.
           destruct (IH eq_refl) as (before & k & st & after & -> & Hk & Hl & Hb).
           exists ((key, state) :: before), k, st, after. split_and!; try done.
           intros key' state' [[= <- <-]|Hin] Hn; eauto.
    + intros (before & k & st & after & Heq & Hk & Hl & Hb).
      destruct before as [|[k0 st0] before]; simpl in Heq.
      * injection Heq as -> -> ->. by rewrite Hk, Hl.
      * injection Heq as -> -> ->.
        assert (Hrest : getKillableTargets env (before ++ (k, st) :: after) reused
                        = inl e).
        { apply IH. exists before, k, st, after. split_and!; try done.
          intros key' state' Hin. apply Hb. by right. }
        rewrite Hrest.
        destruct (pluginNamed k0 (deployPlugins env)) as [p|] eqn:Ep; [done|].
        destruct (Hb k0 st0) as [p Hp]; [by left|done|]. by rewrite Hp.
Qed.

(** ** The kill phase *)

Lemma resolved_stable env s l s' :
  queueInv s -> deploying s = DResolved -> step env s l = Some s' ->
  deploying s' = DResolved
  /\ reusedTargets s' = reusedTargets s /\ targetCache s' = targetCache s
  /\ tasks s' = [] /\ (l = LMain \/ trace s' = trace s /\ main s' = main s).
Proof.
  intros Hq Hdep Hstep.
  destruct (q_resolved s Hq Hdep) as (Hts & Hm0 & Hsp & _).
  pose proof (q_load s Hq) as Hload.
  destruct l; simpl in Hstep.
  - unfold declare in Hstep. destruct (main s); try done.
    rewrite Hload in Hdep; done.
  - unfold settle in Hstep.
    destruct (promises s !! pid) as [[| |]|]; try done.
    injection Hstep as <-. simpl. split_and!; try done. by right.
  - unfold scriptDone in Hstep. destruct (main s); try done.
    rewrite Hload in Hdep; done.
  - unfold secretsLoaded in Hstep. by rewrite Hsp in Hstep.
  - unfold runMicrotask in Hstep. by rewrite Hm0 in Hstep.
  - unfold runTask in Hstep. by rewrite Hts in Hstep.
  - unfold mainStep in Hstep. break_hyp Hstep.
    all: repeat match goal with
           | E : killLoop _ _ _ _ = Some _ |- _ =>
               unfold killLoop in E; break_hyp E
           end; subst.
    all: try done.
    all: assign.
    all: split_and!; try done; by left.
Qed.

(** Until [deploying] is resolved, the loop over [killedTargets] is not
    entered. *)
Lemma before_kill_phase env s l s' :
  queueInv s -> deploying s <> DResolved -> step env s l = Some s' ->
  grows (fun ev => killPhase ev = false) (trace s) (trace s')
  /\ forall p r rest k, main s' <> MKilling p r rest k.
Proof.
  intros Hq Hdep Hstep.
  pose proof (q_phase s Hq) as Hp.
  step_cases Hstep.
  all: try done.
  all: assign.
  all: split; [repeat case_match; grow_with; done|].
  all: intros p' r' rest' k'; repeat case_match; try done.
  all: simplify_eq.
  all: try congruence.
  all: intros Hm; rewrite Hm in Hp; done.
Qed.

Lemma getKillableTargets_unused env targetsFile reused killables :
  getKillableTargets env targetsFile reused = inr killables ->
  Forall (fun x => hasSaved x.2 reused = false) killables.
Proof.
  revert killables.
  induction targetsFile as [|[key state] rest IH]; intros killables.
  - intros [= <-]. constructor.
  - rewrite getKillableTargets_cons.
    destruct (match pluginNamed key (deployPlugins env) with
              | Some p => inr p
              | None => loadDeployPlugin env (hook state)
              end) as [e|p]; [done|].
    destruct (getKillableTargets env rest reused) as [e|more]; [done|].
    intros [= <-]. apply Forall_app. split; [|by apply IH].
    apply Forall_forall. intros x Hin.
    apply list_elem_of_In, in_map_iff in Hin as (j & <- & Hj).
    apply filter_In in Hj as [_ Hr]. by apply negb_true_iff in Hr.
Qed.

Lemma killOk_ext s s' ev :
  reusedTargets s' = reusedTargets s -> targetCache s' = targetCache s ->
  killOk s ev -> killOk s' ev.
Proof. unfold killOk. by intros -> ->. Qed.

Lemma killOk_other s ev : killPhase ev = false -> killOk s ev.
Proof. by destruct ev as [| | | | |[i|] | | | | | | | |]. Qed.

Lemma killInv_quiet s s' :
  reusedTargets s' = reusedTargets s -> targetCache s' = targetCache s ->
  grows (fun ev => killPhase ev = false) (trace s) (trace s') ->
  (forall p r rest k, main s' <> MKilling p r rest k) ->
  Forall (killOk s) (trace s) -> killInv s'.
Proof.
  intros Hr Hc Hg Hm Htr. split.
  - intros p r rest k Hx. by destruct (Hm p r rest k).
  - apply grows_split in Hg as (evs & -> & Hevs). apply Forall_app. split.
    + eapply Forall_impl; [exact Hevs|]. intros ev. apply killOk_other.
    + eapply Forall_impl; [exact Htr|]. intros ev. by apply killOk_ext.
Qed.

Lemma killLoop_killInv env s s0 s' kills k :
  reusedTargets s0 = reusedTargets s -> targetCache s0 = targetCache s ->
  grows (fun ev => killPhase ev = false) (trace s) (trace s0) ->
  Forall (killOk s) (trace s) ->
  Forall (fun x => hasSaved x.2 (reusedTargets s) = false) kills ->
  killLoop env kills k s0 = Some s' -> killInv s'.
Proof.
  intros Hr Hc Hg Htr Hk Hstep. unfold killLoop in Hstep.
  destruct kills as [|[p ref] rest].
  - injection Hstep as <-. rewrite persist_assign.
    eapply (killInv_quiet s); [simpl; try done..|exact Htr].
    + repeat apply grows_cons; try done. by destruct (dryRun env).
    + by destruct (dryRun env).
  - destruct (savedAt (targetCache s0) ref) as [target|] eqn:Es; [|done].
    injection Hstep as <-. apply Forall_cons in Hk as [Hk1 Hk2]. split.
    + simpl. intros p' r rest' k' [= _ _ <- _]. by rewrite Hr.
    + simpl. constructor.
      * simpl. exists ref, target. by rewrite Hr.
      * apply grows_split in Hg as (evs & -> & Hevs). apply Forall_app. split.
        -- eapply Forall_impl; [exact Hevs|]. intros ev. apply killOk_other.
        -- eapply Forall_impl; [exact Htr|]. intros ev. by apply killOk_ext.
Qed.

Lemma killInv_step env s l s' :
  queueInv s ->
  Forall (fun ev => killPhase ev = false) (trace s) \/ deploying s = DResolved ->
  killInv s -> step env s l = Some s' ->
  (Forall (fun ev => killPhase ev = false) (trace s')
   \/ deploying s' = DResolved)
  /\ killInv s'.
Proof.
  intros Hq Hphase [Hrest Htr] Hstep.
  assert (Hd : deploying s = DResolved \/ deploying s <> DResolved)
    by (destruct (deploying s); auto; by right).
  destruct Hd as [Hdep|Hdep].
  2: { (* [deploying] is not resolved: no kill so far, and none now *)
    destruct Hphase as [Hno|?]; [|done].
    destruct (before_kill_phase env s l s' Hq Hdep Hstep) as [Hg Hm].
    assert (Hno' : Forall (fun ev => killPhase ev = false) (trace s')).
    { eapply grows_Forall; [|exact Hg|exact Hno]. auto. }
    split; [by left|]. split.
    - intros p r rest k Hx. by destruct (Hm p r rest k).
    - eapply Forall_impl; [exact Hno'|]. intros ev. apply killOk_other. }
  destruct (resolved_stable env s l s' Hq Hdep Hstep)
    as (Hdep' & Hr & Hc & _ & Hl).
  split; [by right|].
  destruct Hl as [->|[Ht Hm]].
  2: { split.
       - intros p r rest k Hx. rewrite Hr. eapply Hrest. by rewrite <- Hm.
       - rewrite Ht. eapply Forall_impl; [exact Htr|].
         intros ev. by apply killOk_ext. }
  simpl in Hstep. unfold mainStep in Hstep.
  assert (Hcatch : forall e, killInv (catchMain env e s)).
  { intros e. rewrite catchMain_assign.
    eapply (killInv_quiet s); [simpl; try done..|exact Htr].
    - repeat case_match; repeat apply grows_cons; try done; apply grows_refl.
    - intros p r rest k. by repeat case_match. }
  destruct (main s) as [| |p r rest k|e i| |r] eqn:Em; try done.
  - rewrite Hdep in Hstep.
    destruct (getKillableTargets env (targetCache s) (reusedTargets s))
      as [e|kills] eqn:Ek; [by injection Hstep as <-|].
    destruct (_ =? 0)%nat.
    + injection Hstep as <-.
      eapply (killInv_quiet s); [simpl; try done..|exact Htr].
      unfold finally, emit. simpl. repeat apply grows_cons; try done.
      apply grows_refl.
    + destruct (killLoop env kills (length kills) s) as [s1|] eqn:Ekl; [|done].
      injection Hstep as <-.
      apply (killLoop_killInv env s s s1 kills (length kills));
        [done|done|apply grows_refl|done| |exact Ekl].
      by eapply getKillableTargets_unused.
  - destruct r as [e|revert]; [by injection Hstep as <-|].
    eapply (killLoop_killInv env s (addRevertFn env revert p "kill" s) s' rest k);
      [| | | |eapply Hrest; done|exact Hstep].
    + by rewrite addRevertFn_assign.
    + by rewrite addRevertFn_assign.
    + rewrite addRevertFn_assign. simpl.
      repeat case_match; repeat apply grows_cons; try done; apply grows_refl.
    + done.
  - destruct (revertFns s !! i) as [fn|]; [|done].
    destruct (revertResult fn) as [e'|[]]; injection Hstep as <-.
    + eapply (killInv_quiet s); [simpl; try done..|exact Htr].
      unfold finally, emit. simpl. repeat apply grows_cons; try done.
      apply grows_refl.
    + rewrite revertLoop_assign.
      eapply (killInv_quiet s); [simpl; try done..|exact Htr].
      * repeat case_match; repeat apply grows_cons; try done; apply grows_refl.
      * intros p r rest k. by repeat case_match.
  - injection Hstep as <-.
    eapply (killInv_quiet s); [simpl; try done..|exact Htr]. apply grows_refl.
Qed.

Lemma run_killInv env f objects npromises ls s :
  run env f objects npromises ls = inr (Some s) ->
  queueInv s
  /\ (Forall (fun ev => killPhase ev = false) (trace s)
      \/ deploying s = DResolved)
  /\ killInv s.
Proof.
  unfold run. destruct (start _ _ _ _) as [|s0] eqn:E; [done|].
  intros [= Hx].
  eapply (exec_invariant env
            (fun s => queueInv s
                      /\ (Forall (fun ev => killPhase ev = false) (trace s)
                          \/ deploying s = DResolved)
                      /\ killInv s)); [| |exact Hx].
  - intros s1 l s2 (Hq & Hp & Hk) Hstep.
    split; [by eapply queueInv_step|]. by eapply killInv_step.
  - split; [by eapply start_queueInv|].
    apply start_state in E as [-> _]. simpl. split; [left; constructor|].
    split; [done|constructor].
Qed.

(** X6: the loop over [killedTargets] comes last.  Once it has called
    [kill], every declaration has been dispatched and its activation of
    [addTarget] has returned without an error, and none is under way or
    queued. *)
Theorem kill_phase_comes_last env f objects npromises ls s a n fields r :
  run env f objects npromises ls = inr (Some s) ->
  In (EvAction None a n fields r) (trace s) ->
  deploying s = DResolved
  /\ tasks s = [] /\ microtasks s = 0%nat /\ secretsPending s = false
  /\ targetIndex s = length (declared s)
  /\ forall j, j < length (declared s) -> In (EvEnd j (inr tt)) (trace s).
Proof.
  intros Hrun Hin.
  destruct (run_killInv _ _ _ _ _ _ Hrun) as (Hq & [Hno|Hdep] & _).
  { rewrite Forall_forall in Hno. by apply list_elem_of_In, Hno in Hin. }
  destruct (q_resolved s Hq Hdep) as (Ht & Hm & Hs & Hi & _).
  split_and!; try done.
  intros j Hj. apply (q_ended s Hq). lia.
Qed.

Lemma kill_phase_comes_last_witness :
  exists s,
    run (Ex.envOf false "") (Ex.store [Ex.y1]) [Ex.x1] 0 Ex.spawnAndKill
    = inr (Some s)
    /\ deploying s = DResolved
    /\ tasks s = [] /\ microtasks s = 0%nat /\ secretsPending s = false
    /\ targetIndex s = length (declared s)
    /\ forall j, j < length (declared s) -> In (EvEnd j (inr tt)) (trace s).
Proof.
  eexists. split; [vm_compute; reflexivity|].
  apply (kill_phase_comes_last (Ex.envOf false "") (Ex.store [Ex.y1]) [Ex.x1]
           0 Ex.spawnAndKill _ Kill "web" (props Ex.y1)
           (inr (Some (Ex.undo "kill y")))).
  - vm_compute; reflexivity.
  - vm_compute. auto.
Defined.

(** X7: the loop over [killedTargets] kills saved targets only, and none
    that a declaration has been matched with. *)
Theorem kill_phase_spares_reused env f objects npromises ls s a n fields r :
  run env f objects npromises ls = inr (Some s) ->
  In (EvAction None a n fields r) (trace s) ->
  exists ref target,
    hasSaved ref (reusedTargets s) = false
    /\ savedAt (targetCache s) ref = Some target
    /\ props target = fields.
Proof.
  intros Hrun Hin.
  destruct (run_killInv _ _ _ _ _ _ Hrun) as (_ & _ & _ & Htr).
  rewrite Forall_forall in Htr. by apply list_elem_of_In, Htr in Hin.
Qed.

Lemma kill_phase_spares_reused_witness :
  exists s,
    run (Ex.envOf false "") (Ex.store [Ex.y1]) [Ex.x1] 0 Ex.spawnAndKill
    = inr (Some s)
    /\ exists ref target,
         hasSaved ref (reusedTargets s) = false
         /\ savedAt (targetCache s) ref = Some target
         /\ props target = props Ex.y1.
Proof.
  eexists. split; [vm_compute; reflexivity|].
  apply (kill_phase_spares_reused (Ex.envOf false "") (Ex.store [Ex.y1])
           [Ex.x1] 0 Ex.spawnAndKill _ Kill "web" (props Ex.y1)
           (inr (Some (Ex.undo "kill y")))).
  - vm_compute; reflexivity.
  - vm_compute. auto.
Defined.

(** ** The [catch] block before the first dispatch *)

Lemma identifyEvents_dispatched t s :
  existsb dispatched (identifyEvents t s) = false.
Proof.
  unfold identifyEvents. destruct (assoc _ _); [|done].
  destruct (hasName _ _); [done|].
  induction (seq 0 (length (targets p))) as [|j l IH]; [done|].
  simpl. by rewrite existsb_app, IH.
Qed.

Lemma activePlugin_step env s l s' :
  existsb dispatched (trace s)
  = match activePlugin s with Some _ => true | None => false end ->
  step env s l = Some s' ->
  existsb dispatched (trace s')
  = match activePlugin s' with Some _ => true | None => false end.
Proof.
  intros Hinv Hstep. step_cases Hstep.
  all: try done.
  all: assign.
  all: rewrite ?existsb_app, ?identifyEvents_dispatched; simpl.
  all: repeat case_match; simpl; rewrite ?Hinv; try done.
Qed.

Lemma run_activePlugin env f objects npromises ls s :
  run env f objects npromises ls = inr (Some s) ->
  existsb dispatched (trace s)
  = match activePlugin s with Some _ => true | None => false end.
Proof.
  unfold run. destruct (start _ _ _ _) as [|s0] eqn:E; [done|].
  intros [= Hx].
  eapply (exec_invariant env
            (fun s => existsb dispatched (trace s)
                      = match activePlugin s with
                        | Some _ => true
                        | None => false
                        end)); [| |exact Hx].
  - intros s1 l s2. apply activePlugin_step.
  - by apply start_state in E as [-> _].
Qed.

(** X8: when the deploy script fails to load, the [catch] block of
    [deploy] logs its error [e].  If no activation of [addTarget] has been
    entered by then, [activePlugin] is still [null]: the block throws a
    [TypeError] of its own instead of [e], reverts nothing, and [finally]
    deletes the lock file.  If one has been entered, the block names its
    plugin and goes on to the revert functions or to [throw e]. *)
Theorem script_error_before_first_dispatch env f objects npromises ls s e :
  run env f objects npromises ls = inr (Some s) ->
  main s = MLoad ->
  exists s',
    step env s (LScript (inl e)) = Some s'
    /\ ((forall i, ~ In (EvStart i) (trace s)) ->
        main s' = MDone (inl "TypeError: Cannot read properties of null")
        /\ In (EvError e None) (trace s')
        /\ invoked (trace s') = invoked (trace s)
        /\ lockExists (files s') = false)
    /\ (forall i, In (EvStart i) (trace s) ->
        exists p, In (EvError e (Some p)) (trace s')
                  /\ (main s' = MDone (inl e) \/ main s' = MReverting e 0)).
Proof.
  intros Hrun Hm.
  pose proof (run_activePlugin _ _ _ _ _ _ Hrun) as Ha.
  destruct (run_killInv _ _ _ _ _ _ Hrun) as (Hq & Hk & _).
  assert (Hno : Forall (fun ev => killPhase ev = false) (trace s)).
  { destruct Hk as [Hk|Hk]; [done|]. by rewrite (q_load s Hq Hm) in Hk. }
  exists (catchMain env e s). split.
  { simpl. unfold scriptDone. by rewrite Hm. }
  rewrite catchMain_assign. cbv zeta. split.
  - intros Hstart.
    assert (Hnone : activePlugin s = None).
    { destruct (activePlugin s); [|done].
      apply existsb_exists in Ha as (ev & Hin & Hev).
      rewrite Forall_forall in Hno.
      pose proof (Hno ev (proj2 (list_elem_of_In _ _) Hin)) as Hkp.
      destruct ev as [i| | | | |[i|] | | | | | | | |]; try done.
      by destruct (Hstart i). }
    rewrite Hnone. simpl. split_and!; auto.
  - intros i Hin.
    destruct (activePlugin s) as [p|] eqn:Ep.
    + exists p. simpl. split.
      * destruct (negb (dryRun env)); simpl; [|auto].
        destruct (rev (revertFns s) !! 0%nat); simpl; auto.
      * destruct (negb (dryRun env)); simpl; [|auto].
        destruct (rev (revertFns s) !! 0%nat); simpl; auto.
    + assert (Hex : existsb dispatched (trace s) = true).
      { apply existsb_exists. by exists (EvStart i). }
      congruence.
Qed.

Lemma script_error_before_first_dispatch_witness :
  exists s s',
    run (Ex.envOf false "") (Ex.store []) [Ex.x1] 0
        [LDeclare Ex.webHook (ArgObj 0)]
    = inr (Some s)
    /\ step (Ex.envOf false "") s (LScript (inl "script failed")) = Some s'
    /\ main s' = MDone (inl "TypeError: Cannot read properties of null")
    /\ In (EvError "script failed" None) (trace s')
    /\ lockExists (files s') = false.
Proof.
  eexists. 
  destruct (script_error_before_first_dispatch (Ex.envOf false "")
              (Ex.store []) [Ex.x1] 0 [LDeclare Ex.webHook (ArgObj 0)]
              _ "script failed" eq_refl eq_refl)
    as (s' & Hstep & Hnone & _).
  exists s'. split; [reflexivity|]. split; [exact Hstep|].
  destruct Hnone as (H1 & H2 & _ & H4); [|done].
  intros i Hin. vm_compute in Hin. done.
Defined.

(** ** Plugins without an entry in the target cache *)

Lemma map_fst_setTargets key saved cache :
  map fst (setTargets key saved cache) = map fst cache.
Proof.
  unfold setTargets. rewrite map_map. apply map_ext.
  intros [k st]. simpl. by destruct (String.eqb k key).
Qed.

Lemma assoc_keys {A} key (l : list (string * A)) :
  In key (map fst l) <-> exists v, assoc key l = Some v.
Proof.
  induction l as [|[k v] l IH]; simpl.
  - split; [done|by intros [v ?]].
  - destruct (String.eqb k key) eqn:E.
    + apply String.eqb_eq in E. split; [eauto|by left].
    + rewrite <- IH. split; [|by right].
      intros [->|H]; [|done]. by rewrite String.eqb_refl in E.
Qed.

Lemma findSavedStart_entry env t s saved :
  (findSavedStart env t s).2 = inr saved ->
  In (name (plugin (taskHook t))) (map fst (targetCache s)).
Proof.
  unfold findSavedStart.
  destruct (assoc _ (targetCache s)) as [st|] eqn:E; [|done].
  intros _. apply assoc_keys. eauto.
Qed.

Lemma storeInv_move store s s' :
  storeInv store s ->
  map fst (targetCache s') = map fst (targetCache s) ->
  grows (entryOk store) (trace s) (trace s') ->
  (forall t, In t (tasks s') -> needsEntry (taskPc t) = true ->
             In (name (plugin (taskHook t))) (map fst store)) ->
  (store = [] -> deploying s' <> DResolved) ->
  storeInv store s'.
Proof.
  intros (Hc & _ & Htr & _) Hc' Hg Hpc Hd. split_and!; try done.
  - congruence.
  - eapply grows_Forall; [|exact Hg|exact Htr]. auto.
Qed.

Lemma storeInv_step env store s l s' :
  queueInv s -> storeInv store s -> step env s l = Some s' ->
  storeInv store s'.
Proof.
  intros Hq Hinv Hstep. pose proof Hinv as (Hc & Hpc & Htr & Hd).
  pose proof (q_phase s Hq) as Hp.
  step_cases Hstep.
  all: try done.
  all: try match goal with
       | E : tasks ?s !! _ = Some ?t |- _ =>
           destruct (queueInv_task s _ t Hq E)
             as (Hts & -> & Hm0 & Hs0 & Hti & Hdt & Hlt)
       end.
  all: try (assert (Hpt := Hpc t); rewrite Hts in Hpt;
            specialize (Hpt (or_introl eq_refl));
            match goal with
            | E : taskPc _ = _ |- _ => rewrite E in Hpt; simpl in Hpt
            end).
  all: assign.
  all: eapply (storeInv_move store s); [exact Hinv|simpl..].
  all: rewrite ?map_fst_setTargets; try done.
  all: try solve [repeat case_match; grow_with; auto].
  all: try solve [rewrite ?Hts; simpl;
                  intros t' Hin; repeat case_match; simpl in Hin;
                  destruct_or?; simplify_eq; simpl; auto].
  all: try solve [intros ->; simpl in *; done].
  all: try solve [intros t' Hin Hn; repeat case_match;
                  rewrite ?in_app_iff in Hin; simpl in Hin; destruct_or?;
                  subst; simpl in *; try done; by apply Hpc].
  all: try solve [rewrite Hts; intros t' [<-|[]] Hn; simpl in *;
                  destruct (findSavedStart _ _ _).2 as [e|saved] eqn:Ef;
                  [done|];
                  apply findSavedStart_entry in Ef; simpl in Ef;
                  by rewrite <- Hc].
  all: try solve [apply grows_cons; [|repeat case_match; grow_with; done];
                  simpl; intros ->;
                  match goal with
                  | E : savedAt _ _ = Some _ |- _ =>
                      rewrite ?addRevertFn_assign in E; simpl in E;
                      unfold savedAt in E; destruct (targetCache s);
                      [done|simpl in Hc; done]
                  end].
  all: intros Hs; specialize (Hd Hs); congruence.
Qed.

Lemma run_storeInv env f objects npromises ls s :
  run env f objects npromises ls = inr (Some s) ->
  queueInv s /\ storeInv (targetsYaml f) s.
Proof.
  unfold run. destruct (start _ _ _ _) as [|s0] eqn:E; [done|].
  intros [= Hx].
  eapply (exec_invariant env
            (fun s => queueInv s /\ storeInv (targetsYaml f) s));
    [| |exact Hx].
  - intros s1 l s2 [Hq Hs] Hstep.
    split; [by eapply queueInv_step|by eapply storeInv_step].
  - split; [by eapply start_queueInv|].
    apply start_state in E as [-> _]. split_and!; simpl; done.
Qed.

(** X9: an action is called for a declaration only if the target cache
    that [deploy] has read has an entry under the name of its plugin:
    [findSavedTarget] reads [targetCache[plugin.name].targets] and throws
    when there is no entry.  With an empty target cache no action is ever
    called, and [deploy] does not return without an error. *)
Theorem actions_need_a_store_entry env f objects npromises ls s :
  run env f objects npromises ls = inr (Some s) ->
  (forall i a n fields r,
      In (EvAction (Some i) a n fields r) (trace s) ->
      exists state, assoc n (targetsYaml f) = Some state)
  /\ (targetsYaml f = [] ->
      Forall noCall (trace s) /\ main s <> MDone (inr tt)).
Proof.
  intros Hrun.
  destruct (run_storeInv _ _ _ _ _ _ Hrun) as (Hq & _ & _ & Htr & Hd).
  rewrite Forall_forall in Htr. split.
  - intros i a n fields r Hin. apply assoc_keys.
    by apply list_elem_of_In, Htr in Hin.
  - intros Hempty. split.
    + apply Forall_forall. intros ev Hin. specialize (Htr ev Hin).
      destruct ev as [| | | | |[i|] a n fields r| | | | | | | |]; try done;
        simpl in Htr; by rewrite Hempty in Htr.
    + intros Hm. pose proof (q_phase s Hq) as Hp. rewrite Hm in Hp.
      by apply Hd.
Qed.

Lemma actions_need_a_store_entry_witness :
  exists s,
    run (Ex.envOf false "") (mkFiles false [] [] []) [Ex.x1] 0
        [LDeclare Ex.webHook (ArgObj 0); LScript (inr tt); LSecrets;
         LTask 0; LTask 0; LTask 0; LMain]
    = inr (Some s)
    /\ main s = MDone (inl "TypeError: Cannot read properties of undefined")
    /\ Forall noCall (trace s) /\ main s <> MDone (inr tt).
Proof.
  eexists. split; [vm_compute; reflexivity|]. split; [reflexivity|].
  apply (actions_need_a_store_entry (Ex.envOf false "")
           (mkFiles false [] [] []) [Ex.x1] 0
           [LDeclare Ex.webHook (ArgObj 0); LScript (inr tt); LSecrets;
            LTask 0; LTask 0; LTask 0; LMain]).
  - vm_compute; reflexivity.
  - reflexivity.
Defined.

(** ** Rollback and the hand-over of the target cache *)

Lemma phase_step env s l s' :
  step env s l = Some s' ->
  grows calm (trace s) (trace s')
  /\ (failing (main s) ->
      failing (main s') /\ grows noSnapshot (trace s) (trace s'))
  \/ failing (main s') /\ grows noSnapshot (trace s) (trace s')
     /\ match main s with
        | MPushing | MDone _ => False
        | _ => True
        end.
Proof.
  intros Hstep. step_cases Hstep.
  all: try done.
  all: assign.
  all: first
         [ left; split;
           [ repeat case_match; grow_with; done
           | simpl; intros Hf;
             first [ done
                   | split; [done|repeat case_match; grow_with; done]
                   | repeat case_match; simpl in *; first
                       [ done
                       | split; [done|repeat case_match; grow_with; done] ] ] ]
         | right; split_and!;
           [ repeat case_match; done
           | repeat case_match; grow_with; done
           | repeat case_match; done ] ].
Qed.

Lemma phaseInv_step env s l s' :
  snapInv s -> phaseInv s -> step env s l = Some s' -> phaseInv s'.
Proof.
  intros Hsnap Hph Hstep.
  destruct (phase_step env s l s' Hstep) as [[Hg Hf]|(Hf & Hg & Hm)].
  - destruct Hph as [Hcalm|[Hfail Hns]].
    + left. eapply grows_Forall; [|exact Hg|exact Hcalm]. auto.
    + right. destruct (Hf Hfail) as [Hf' Hg']. split; [done|].
      eapply grows_Forall; [|exact Hg'|exact Hns]. auto.
  - right. split; [done|].
    assert (Hns : Forall noSnapshot (trace s)).
    { destruct Hph as [_|[_ Hns]]; [|done].
      destruct Hsnap as [Hns|(_ & [Hx|[r Hx]] & _)]; [done|..];
        by rewrite Hx in Hm. }
    eapply grows_Forall; [|exact Hg|exact Hns]. auto.
Qed.

Lemma run_phaseInv env f objects npromises ls s :
  run env f objects npromises ls = inr (Some s) ->
  queueInv s /\ snapInv s /\ phaseInv s.
Proof.
  unfold run. destruct (start _ _ _ _) as [|s0] eqn:E; [done|].
  intros [= Hx].
  eapply (exec_invariant env
            (fun s => queueInv s /\ snapInv s /\ phaseInv s)); [| |exact Hx].
  - intros s1 l s2 (Hq & Hs & Hp) Hstep. split_and!.
    + by eapply queueInv_step.
    + by eapply snapInv_step.
    + by eapply phaseInv_step.
  - split; [by eapply start_queueInv|].
    apply start_state in E as [-> _]. split; left; constructor.
Qed.

Lemma calm_invoked tr : Forall calm tr -> invoked tr = [].
Proof.
  induction 1 as [|ev tr Hev _ IH]; [done|]. by destruct ev.
Qed.

(** X10: once [deploy] has handed over the new target cache, or has
    returned without an error, its [catch] block has not been entered and no
    revert function has been called -- this includes the run in which
    [pushCachedTargets] throws after the target store has been written: the
    store keeps the new cache and nothing is reverted. *)
Theorem no_rollback_after_hand_over env f objects npromises ls s :
  run env f objects npromises ls = inr (Some s) ->
  main s = MPushing \/ main s = MDone (inr tt)
  \/ (exists c, In (EvSetData c) (trace s) \/ In (EvDebugFile c) (trace s)) ->
  invoked (trace s) = []
  /\ (forall e p, ~ In (EvError e p) (trace s))
  /\ (forall e i, main s <> MReverting e i).
Proof.
  intros Hrun Hok.
  destruct (run_phaseInv _ _ _ _ _ _ Hrun) as (Hq & Hsnap & Hph).
  destruct Hph as [Hcalm|[Hfail Hns]].
  - split_and!.
    + by apply calm_invoked.
    + intros e p Hin. rewrite Forall_forall in Hcalm.
      by apply list_elem_of_In, Hcalm in Hin.
    + intros e i Hm.
      destruct Hok as [Hx|[Hx|(c & Hc)]]; try congruence.
      destruct Hsnap as [Hns|(_ & Hx & _)].
      * rewrite Forall_forall in Hns.
        destruct Hc as [Hc|Hc]; by apply list_elem_of_In, Hns in Hc.
      * destruct Hx as [Hx|[r Hx]]; congruence.
  - exfalso.
    destruct Hok as [Hm|[Hm|(c & Hc)]]; try (by rewrite Hm in Hfail).
    rewrite Forall_forall in Hns.
    destruct Hc as [Hc|Hc]; by apply list_elem_of_In, Hns in Hc.
Qed.

Lemma no_rollback_after_hand_over_witness :
  exists s,
    run Ex.regionalEnv (Ex.store []) [Ex.x1; Ex.y1] 1 Ex.objectAndPromise
    = inr (Some s)
    /\ main s = MPushing
    /\ invoked (trace s) = []
    /\ (forall e p, ~ In (EvError e p) (trace s))
    /\ (forall e i, main s <> MReverting e i).
Proof.
  eexists. split; [vm_compute; reflexivity|]. split; [reflexivity|].
  apply (no_rollback_after_hand_over Ex.regionalEnv (Ex.store [])
           [Ex.x1; Ex.y1] 1 Ex.objectAndPromise).
  - vm_compute; reflexivity.
  - by left.
Defined.

Lemma writesInv_step env f s l s' :
  queueInv s -> writesInv env f s -> step env s l = Some s' ->
  writesInv env f s'.
Proof.
  intros Hq [(Hno & Hw & Hd)|(tr & Hno & Htr & Hw & Hd & Hlock & Hdep & Hmain)]
         Hstep.
  2: { (* after the hand-over only promises of the script settle *)
    destruct (q_resolved s Hq Hdep) as (Hts & Hm0 & Hsp & _).
    right. exists tr. destruct l; simpl in Hstep.
    - unfold declare in Hstep.
      destruct Hmain as [Hm|[r Hm]]; by rewrite Hm in Hstep.
    - unfold settle in Hstep.
      destruct (promises s !! pid) as [[| |]|]; try done.
      injection Hstep as <-. simpl. split_and!; try done.
    - unfold scriptDone in Hstep.
      destruct Hmain as [Hm|[r' Hm]]; by rewrite Hm in Hstep.
    - unfold secretsLoaded in Hstep. by rewrite Hsp in Hstep.
    - unfold runMicrotask in Hstep. by rewrite Hm0 in Hstep.
    - unfold runTask in Hstep. by rewrite Hts in Hstep.
    - unfold mainStep in Hstep.
      destruct Hmain as [Hm|[r Hm]]; rewrite Hm in Hstep; [|done].
      injection Hstep as <-. simpl. split_and!; eauto. }
  pose proof (q_phase s Hq) as Hp.
  step_cases Hstep.
  all: try done.
  all: assign.
  all: unfold writesInv; simpl.
  all: try solve [left; split_and!;
                  first [ done
                        | eapply (grows_Forall noSnapshot noSnapshot);
                          [auto| |exact Hno];
                          repeat case_match; grow_with; done ]].
  all: right; eexists; rewrite ?Hw, ?Hd; split_and!;
         [ |reflexivity|reflexivity|reflexivity|done|done
         |destruct (dryRun env); eauto].
  all: eapply (grows_Forall noSnapshot noSnapshot); [auto| |exact Hno];
         repeat case_match; grow_with; done.
Qed.

Lemma run_writesInv env f objects npromises ls s :
  run env f objects npromises ls = inr (Some s) ->
  queueInv s /\ writesInv env f s.
Proof.
  unfold run. destruct (start _ _ _ _) as [|s0] eqn:E; [done|].
  intros [= Hx].
  eapply (exec_invariant env (fun s => queueInv s /\ writesInv env f s));
    [| |exact Hx].
  - intros s1 l s2 [Hq Hw] Hstep.
    split; [by eapply queueInv_step|by eapply writesInv_step].
  - split; [by eapply start_queueInv|].
    apply start_state in E as [-> _]. left. simpl. by split_and!.
Qed.

(** X11: a run writes nothing until [deploy] hands over the new target
    cache, which it does at most once and as the last thing it logs, right
    after the [finally] block has deleted the lock file: to the side file in
    a dry run, to the target store otherwise, and only once [deploying] has
    resolved. *)
Theorem target_cache_is_written_last env f objects npromises ls s :
  run env f objects npromises ls = inr (Some s) ->
  (Forall noSnapshot (trace s)
   /\ targetsWrites (files s) = targetsWrites f
   /\ debugWrites (files s) = debugWrites f)
  \/ exists tr,
       Forall noSnapshot tr
       /\ trace s = (if dryRun env then EvDebugFile (newTargetCache s)
                     else EvSetData (newTargetCache s))
                    :: EvLockDelete :: tr
       /\ targetsWrites (files s)
          = (if dryRun env then targetsWrites f
             else targetsWrites f ++ [newTargetCache s])
       /\ debugWrites (files s)
          = (if dryRun env then debugWrites f ++ [newTargetCache s]
             else debugWrites f)
       /\ lockExists (files s) = false
       /\ deploying s = DResolved
       /\ (main s = MPushing \/ exists r, main s = MDone r).
Proof. intros Hrun. by destruct (run_writesInv _ _ _ _ _ _ Hrun). Qed.

Lemma target_cache_is_written_last_witness :
  exists s,
    run Ex.regionalEnv (Ex.store []) [Ex.x1; Ex.y1] 1 Ex.objectAndPromise
    = inr (Some s)
    /\ targetsWrites (files s) = [Ex.regionalCache]
    /\ ((Forall noSnapshot (trace s)
         /\ targetsWrites (files s) = targetsWrites (Ex.store [])
         /\ debugWrites (files s) = debugWrites (Ex.store []))
        \/ exists tr,
             Forall noSnapshot tr
             /\ trace s = (if dryRun Ex.regionalEnv
                           then EvDebugFile (newTargetCache s)
                           else EvSetData (newTargetCache s))
                          :: EvLockDelete :: tr
             /\ targetsWrites (files s)
                = (if dryRun Ex.regionalEnv then targetsWrites (Ex.store [])
                   else targetsWrites (Ex.store []) ++ [newTargetCache s])
             /\ debugWrites (files s)
                = (if dryRun Ex.regionalEnv
                   then debugWrites (Ex.store []) ++ [newTargetCache s]
                   else debugWrites (Ex.store []))
             /\ lockExists (files s) = false
             /\ deploying s = DResolved
             /\ (main s = MPushing \/ exists r, main s = MDone r)).
Proof.
  eexists. split; [vm_compute; reflexivity|].
  split; [vm_compute; reflexivity|].
  apply (target_cache_is_written_last Ex.regionalEnv (Ex.store [])
           [Ex.x1; Ex.y1] 1 Ex.objectAndPromise).
  vm_compute; reflexivity.
Defined.

(** ** Dispatch *)

Lemma ordered_app tr1 tr2 : ordered (tr1 ++ tr2) -> ordered tr2.
Proof.
  induction tr1 as [|ev tr1 IH]; simpl; [done|]. intros [_ H]. auto.
Qed.

Lemma ordered_start i tr : ordered (EvStart i :: tr) -> ~ In (EvStart i) tr.
Proof.
  simpl. intros [[Hb _] _] Hin. rewrite Forall_forall in Hb.
  apply list_elem_of_In, Hb in Hin. unfold evBelow in Hin. simpl in Hin. lia.
Qed.

(** X12: [addTarget] is entered at most once for a declaration, and only
    for a declaration that has been made. *)
Theorem each_declaration_dispatched_once env f objects npromises ls s i
    tr1 tr2 :
  run env f objects npromises ls = inr (Some s) ->
  trace s = tr1 ++ EvStart i :: tr2 ->
  ~ In (EvStart i) tr1 /\ ~ In (EvStart i) tr2 /\ i < length (declared s).
Proof.
  intros Hq%run_queueInv Htr.
  pose proof (q_ordered s Hq) as Ho. rewrite Htr in Ho. split_and!.
  - intros (a & b & ->)%in_split. rewrite <- app_assoc in Ho. simpl in Ho.
    apply ordered_app, ordered_start in Ho. apply Ho.
    apply in_or_app. right. by left.
  - by apply ordered_app, ordered_start in Ho.
  - assert (Hin : EvStart i ∈ trace s).
    { rewrite Htr. apply list_elem_of_In, in_or_app. right. by left. }
    pose proof (q_cursor s Hq) as Hc.
    pose proof (q_upto s Hq) as Hu. rewrite Forall_forall in Hu.
    pose proof (Hu _ Hin) as Hi. unfold evBelow in Hi. simpl in Hi.
    destruct (tasks s) as [|t ts] eqn:Et.
    + destruct (decide (targetIndex s = length (declared s))) as [He|Hne];
        [|lia].
      pose proof (q_fresh s Hq Et (or_intror (or_intror He))) as Hf.
      rewrite Forall_forall in Hf. pose proof (Hf _ Hin) as Hi'.
      unfold evBelow in Hi'. simpl in Hi'. lia.
    + destruct (q_task s Hq t) as [_ Hd]; [rewrite Et; by left|].
      apply lookup_lt_Some in Hd. lia.
Qed.

Lemma each_declaration_dispatched_once_witness :
  exists s tr1 tr2,
    run (Ex.envOf false "") (Ex.store []) [Ex.x1; Ex.y1; Ex.z1] 2 Ex.outOfOrder
    = inr (Some s)
    /\ trace s = tr1 ++ EvStart 1 :: tr2
    /\ ~ In (EvStart 1) tr1 /\ ~ In (EvStart 1) tr2
    /\ 1 < length (declared s).
Proof.
  eexists _, _, _. split; [vm_compute; reflexivity|].
  assert (Hx : forall (A B : Prop), A -> (A -> B) -> A /\ B) by tauto.
  apply Hx.
  - vm_compute.
    match goal with
    | |- ?l = _ =>
        let rec go pre l :=
          lazymatch l with
          | EvStart 1%nat :: ?tl =>
              instantiate (1 := tl); instantiate (1 := rev pre)
          | ?x :: ?tl => go (x :: pre) tl
          end in
        go (@nil Event) l
    end.
    reflexivity.
  - intros Htr.
    apply (each_declaration_dispatched_once (Ex.envOf false "") (Ex.store [])
             [Ex.x1; Ex.y1; Ex.z1] 2 Ex.outOfOrder _ 1); [|exact Htr].
    vm_compute; reflexivity.
Defined.

(** ** The actions of one declaration *)

Lemma actionsOf_app i evs tr :
  actionsOf i (evs ++ tr) = actionsOf i evs ++ actionsOf i tr.
Proof.
  induction evs as [|ev evs IH]; [done|].
  destruct ev as [| | | | |[j|] a n fields r| | | | | | | |]; simpl; try done.
  destruct (j =? i)%nat; simpl; by rewrite ?IH.
Qed.

Lemma actionsOf_identifyEvents i t s : actionsOf i (identifyEvents t s) = [].
Proof.
  unfold identifyEvents. destruct (assoc _ _); [|done].
  destruct (hasName _ _); [done|].
  induction (seq 0 (length (targets p))) as [|j l IH]; [done|].
  simpl. by rewrite actionsOf_app, IH.
Qed.

Lemma actionsOf_below i tr : Forall (evBelow i) tr -> actionsOf i tr = [].
Proof.
  induction 1 as [|ev tr Hev _ IH]; [done|].
  destruct ev as [| | | | |[j|] a n fields r| | | | | | | |]; simpl; try done.
  unfold evBelow in Hev. simpl in Hev.
  destruct (j =? i)%nat eqn:E; [|done]. apply Nat.eqb_eq in E. lia.
Qed.

Lemma actInv_step env s l s' :
  queueInv s -> actInv s -> step env s l = Some s' -> actInv s'.
Proof.
  intros Hq [Hpc Hall] Hstep.
  assert (Hfresh : tasks s = [] ->
                   1 <= microtasks s \/ secretsPending s = true
                   \/ targetIndex s = length (declared s) ->
                   actionsOf (targetIndex s) (trace s) = []).
  { intros Ht Hc. apply actionsOf_below. by apply (q_fresh s Hq). }
  pose proof (q_one s Hq) as H1.
  step_cases Hstep.
  all: try done.
  all: try match goal with
       | E : tasks ?s !! _ = Some ?t |- _ =>
           destruct (queueInv_task s _ t Hq E)
             as (Hts & -> & Hm0 & Hs0 & Hti & Hdt & Hlt)
       end.
  all: try (assert (Hpt := Hpc t); rewrite Hts in Hpt;
            specialize (Hpt (or_introl eq_refl));
            match goal with
            | E : taskPc _ = _ |- _ => rewrite E in Hpt; simpl in Hpt
            end).
  all: assign.
  all: repeat case_match.
  all: unfold actInv; simpl; rewrite ?Hts; simpl.
  all: try solve
         [ split;
           [ intros t' Hin; simpl in *;
             destruct_or?; subst; simpl;
             rewrite ?actionsOf_app, ?actionsOf_identifyEvents,
               ?Nat.eqb_refl, ?Hpt;
             simpl; try done; by apply Hpc
           | intros i; simpl;
             rewrite ?actionsOf_app, ?actionsOf_identifyEvents; simpl;
             try apply Hall;
             repeat case_match;
             repeat match goal with
                    | H : (_ =? _)%nat = true |- _ =>
                        apply Nat.eqb_eq in H; subst
                    end;
             first [apply Hall|rewrite ?Hpt; unfold onePlan; auto 6] ] ].
  all: try solve [split; [exact Hpc|exact Hall]].
  all: split; [|exact Hall].
  all: intros t' [Hin|[<-|[]]]%in_app_or; [by apply Hpc|]; simpl.
  all: assert (Ht0 : tasks s = []) by
    (destruct (tasks s) as [|t0 ts0] eqn:Ets; [done|]; exfalso;
     destruct (q_task s Hq t0) as [_ Hd0]; [rewrite Ets; by left|];
     apply lookup_lt_Some in Hd0; simpl in *;
     repeat match goal with
            | H : _ && _ = true |- _ => apply andb_true_iff in H; destruct H
            | H : (_ =? _)%nat = true |- _ => apply Nat.eqb_eq in H
            end; lia).
  all: apply (Hfresh Ht0).
  all: repeat match goal with
              | H : _ && _ = true |- _ => apply andb_true_iff in H; destruct H
              | H : (_ =? _)%nat = true |- _ => apply Nat.eqb_eq in H
              end.
  all: first [by right; left | by (left; lia) | by (right; right)].
Qed.

Lemma run_actInv env f objects npromises ls s :
  run env f objects npromises ls = inr (Some s) ->
  queueInv s /\ actInv s.
Proof.
  unfold run. destruct (start _ _ _ _) as [|s0] eqn:E; [done|].
  intros [= Hx].
  eapply (exec_invariant env (fun s => queueInv s /\ actInv s));
    [| |exact Hx].
  - intros s1 l s2 [Hq Ha] Hstep.
    split; [by eapply queueInv_step|by eapply actInv_step].
  - split; [by eapply start_queueInv|].
    apply start_state in E as [-> _].
    split; [intros t []|intros i; by left].
Qed.

(** X13: on behalf of one declaration [addTarget] calls the plugin's actions
    according to one plan and never twice: no action at all, one [spawn], one
    [update], or one [kill] followed by one [spawn] (a [kill] alone while the
    [spawn] after it is pending or has thrown).  The trace is most recent
    first, so [[Spawn; Kill]] reads: [kill], then [spawn]. *)
Theorem one_plan_per_declaration env f objects npromises ls s i :
  run env f objects npromises ls = inr (Some s) ->
  actionsOf i (trace s) = []
  \/ actionsOf i (trace s) = [Spawn]
  \/ actionsOf i (trace s) = [Update]
  \/ actionsOf i (trace s) = [Kill]
  \/ actionsOf i (trace s) = [Spawn; Kill].
Proof.
  intros Hrun. destruct (run_actInv _ _ _ _ _ _ Hrun) as [_ [_ Hall]].
  apply Hall.
Qed.

Lemma one_plan_per_declaration_witness :
  exists s,
    run (Ex.envOf false "") (Ex.store []) [Ex.x1; Ex.y1; Ex.z1] 2 Ex.outOfOrder
    = inr (Some s)
    /\ actionsOf 1 (trace s) = [Spawn]
    /\ (actionsOf 1 (trace s) = []
        \/ actionsOf 1 (trace s) = [Spawn]
        \/ actionsOf 1 (trace s) = [Update]
        \/ actionsOf 1 (trace s) = [Kill]
        \/ actionsOf 1 (trace s) = [Spawn; Kill]).
Proof.
  eexists. split; [vm_compute; reflexivity|].
  split; [vm_compute; reflexivity|].
  apply (one_plan_per_declaration (Ex.envOf false "") (Ex.store []) [Ex.x1; Ex.y1; Ex.z1] 2
           Ex.outOfOrder).
  vm_compute; reflexivity.
Defined.

(** *** Warnings for actions without a revert function *)

Lemma warned_app tr1 tr2 : warned (tr1 ++ tr2) = warned tr1 ++ warned tr2.
Proof.
  induction tr1 as [|ev tr1 IH]; [done|].
  destruct ev; simpl; by rewrite ?IH.
Qed.

Lemma handedNothing_app tr1 tr2 :
  handedNothing (tr1 ++ tr2) = handedNothing tr1 ++ handedNothing tr2.
Proof.
  induction tr1 as [|ev tr1 IH]; [done|].
  destruct ev as [| | | | |j a n fields [e|[fn|]]| | | | | | | |]; simpl;
    by rewrite ?IH.
Qed.

Lemma warned_identifyEvents t s : warned (identifyEvents t s) = [].
Proof.
  unfold identifyEvents. destruct (assoc _ _); [|done].
  destruct (hasName _ _); [done|].
  induction (seq 0 (length (targets p))) as [|j l IH]; [done|].
  simpl. by rewrite warned_app, IH.
Qed.

Lemma handedNothing_identifyEvents t s :
  handedNothing (identifyEvents t s) = [].
Proof.
  unfold identifyEvents. destruct (assoc _ _); [|done].
  destruct (hasName _ _); [done|].
  induction (seq 0 (length (targets p))) as [|j l IH]; [done|].
  simpl. by rewrite handedNothing_app, IH.
Qed.

Lemma warnInv_step env s l s' :
  queueInv s -> warnInv (dryRun env) s -> step env s l = Some s' ->
  warnInv (dryRun env) s'.
Proof.
  intros Hq Hw Hstep.
  assert (Hmk : forall p r rest k, main s = MKilling p r rest k -> tasks s = []).
  { intros p r rest k Em. pose proof (q_phase s Hq) as Hph. rewrite Em in Hph.
    by destruct (q_resolved s Hq Hph). }
  assert (Hmr : deploying s = DResolved -> tasks s = []).
  { intros Hd. by destruct (q_resolved s Hq Hd). }
  unfold warnInv, owed in *.
  destruct (dryRun env) eqn:Hdry.
  all: step_cases Hstep.
  all: try done.
  all: try match goal with
       | E : tasks ?s !! _ = Some ?t |- _ =>
           destruct (queueInv_task s _ t Hq E)
             as (Hts & -> & Hm0 & Hs0 & Hti & Hdt & Hlt);
           assert (Hom : owedMain (main s) = [])
             by (destruct (main s) eqn:Em; try done;
                 erewrite Hmk in Hts; done);
           rewrite Hts, Hom in Hw; simpl in Hw; rewrite ?app_nil_r in Hw;
           unfold owedTask in Hw
       end.
  all: assign.
  all: rewrite ?Hdry; simpl.
  all: repeat case_match.
  all: simpl; rewrite ?Hts; simpl.
  all: rewrite ?warned_app, ?handedNothing_app, ?warned_identifyEvents,
         ?handedNothing_identifyEvents; simpl.
  all: try done.
  all: rewrite ?map_app, ?concat_app, ?Hom; simpl; rewrite ?app_nil_r.
  all: simpl in Hw.
  all: repeat match goal with
           | E : main _ = _ |- _ => rewrite E in Hw; simpl in Hw
           | E : main _ = _ |- _ => rewrite E in Hmk
           | E : taskPc _ = _ |- _ => rewrite E in Hw; simpl in Hw
           | E : deploying _ = DResolved |- _ =>
               rewrite (Hmr E) in Hw; simpl in Hw
           end.
  all: repeat match goal with
           | E : main _ = _ |- _ => rewrite E; simpl
           | E : main ?s = MKilling _ _ _ _ |- _ =>
               rewrite (Hmk _ _ _ _ E) in *; simpl in *
           | E : deploying _ = DResolved |- _ => rewrite (Hmr E); simpl
           end.
  all: rewrite ?app_nil_r in *.
  all: try done.
  all: try (rewrite <- Hw; done).
  all: repeat match goal with
           | E : ?r = inr _ |- _ => rewrite E in Hw; simpl in Hw
           | E : ?r = inl _ |- _ => rewrite E in Hw; simpl in Hw
           end.
  all: try done.
  all: try (rewrite <- Hw; done).
  all: simplify_eq; simpl in *.
  all: try done.
  all: try (rewrite <- Hw; done).
  all: try (rewrite (Hmr eq_refl) in *; simpl in * ).
  all: try (rewrite (Hmk _ _ _ _ eq_refl) in *; simpl in * ).
  all: try done.
  all: try (rewrite <- Hw; done).
Qed.

Lemma run_warnInv env f objects npromises ls s :
  run env f objects npromises ls = inr (Some s) ->
  queueInv s /\ warnInv (dryRun env) s.
Proof.
  unfold run. destruct (start _ _ _ _) as [|s0] eqn:E; [done|].
  intros [= Hx].
  eapply (exec_invariant env (fun s => queueInv s /\ warnInv (dryRun env) s));
    [| |exact Hx].
  - intros s1 l s2 [Hq Hw] Hstep.
    split; [by eapply queueInv_step|by eapply warnInv_step].
  - split; [by eapply start_queueInv|].
    apply start_state in E as [-> _].
    unfold warnInv, owed. by destruct (dryRun env).
Qed.

Lemma owedOf_length n action r : length (owedOf n action r) <= 1.
Proof. destruct r as [e|[fn|]]; simpl; lia. Qed.

(** X14: [addRevertFn] calls [logger.warnOnce] exactly for the actions that
    handed back no revert function, in their order, as soon as their result
    is there: in a run that is not dry the warnings are those actions but at
    most the one still awaited, and all of them once [deploy] has got past
    its [try] block.  A dry run never warns. *)
Theorem warning_for_each_action_without_revert env f objects npromises ls s :
  run env f objects npromises ls = inr (Some s) ->
  (dryRun env = true -> warned (trace s) = [])
  /\ (dryRun env = false ->
      owed s ++ warned (trace s) = handedNothing (trace s)
      /\ length (owed s) <= 1
      /\ (main s = MPushing \/ main s = MDone (inr tt) -> owed s = [])).
Proof.
  intros Hrun. destruct (run_warnInv _ _ _ _ _ _ Hrun) as [Hq Hw].
  unfold warnInv in Hw. split; intros Hdry; rewrite Hdry in Hw; [done|].
  split; [done|].
  assert (Hres : deploying s = DResolved -> owed s = owedMain (main s)).
  { intros Hd. destruct (q_resolved s Hq Hd) as [Ht _].
    unfold owed. by rewrite Ht. }
  split.
  - pose proof (q_one s Hq) as H1. pose proof (q_phase s Hq) as Hph.
    destruct (main s) eqn:Em;
      try (rewrite (Hres Hph); simpl; apply owedOf_length).
    all: unfold owed; rewrite Em; simpl; rewrite app_nil_r.
    all: destruct (tasks s) as [|t [|t' ts]]; simpl in *; try lia.
    all: rewrite app_nil_r; unfold owedTask.
    all: destruct (taskPc t); simpl; try lia; apply owedOf_length.
  - pose proof (q_phase s Hq) as Hph.
    intros [Em|Em]; rewrite Em in Hph; rewrite (Hres Hph), Em; done.
Qed.

Lemma warning_for_each_action_without_revert_witness :
  exists s,
    run (Bare.bareEnv false) (Ex.store [Ex.y1]) [Ex.x1] 0 Bare.spawnThenKill
    = inr (Some s)
    /\ main s = MPushing
    /\ warned (trace s) = [("web", "kill"); ("web", "spawn")]
    /\ (dryRun (Bare.bareEnv false) = true -> warned (trace s) = [])
    /\ (dryRun (Bare.bareEnv false) = false ->
        owed s ++ warned (trace s) = handedNothing (trace s)
        /\ length (owed s) <= 1
        /\ (main s = MPushing \/ main s = MDone (inr tt) -> owed s = [])).
Proof.
  eexists. split; [vm_compute; reflexivity|].
  split; [vm_compute; reflexivity|].
  split; [vm_compute; reflexivity|].
  apply (warning_for_each_action_without_revert (Bare.bareEnv false)
           (Ex.store [Ex.y1]) [Ex.x1] 0 Bare.spawnThenKill).
  vm_compute; reflexivity.
Defined.
